(** * EOS statistics: priors and the log-posterior

    A shallow embedding of [eos/statistics/log-prior.cc] and
    [eos/statistics/log-posterior.cc]: the four prior classes with their
    constructors, [operator()], [clone], [as_string] and [sample], the
    factory functions, and of [LogPosterior] the registry ([add], [clone],
    [index], [nuisance], [operator[]], [log_prior]), [log_posterior],
    [optimize], [goodness_of_fit] with [dump_descriptions], and
    [proposal_covariance]; of [eos/form-factors/parametric-fvdv2018-impl.hh]
    the conformal variables and the Blaschke factors.  [LogPrior::Make], the
    HDF5 readers and the form factors proper, which need [eos::lambda] and
    the parameter bindings, are left out.

    Conventions of the embedding.
    - A C++ [double] holding a finite value is a real number ([R]); the
      arithmetic is exact.  Where the source produces or compares infinities
      or NaN (the value of a density, [std::log] in the constructor of
      CurtailedGauss, the objective of the minimiser) the type [xdouble]
      adds the IEEE special values.
    - A [Parameter]/[MutablePtr] handle is the parameter's name; it is
      resolved against the [Parameters] store whenever it is read or set.
      A posterior, its likelihood and its priors share one store.
    - C++ exceptions are values of [Exception]; undefined behaviour
      (dereferencing a null [LogPriorPtr], indexing or writing past the end
      of a vector) is the outcome [Undefined].
    - A call that reads or writes the parameters, logs or touches a file
      is a function from the world before to its outcome and the world after.
    - GSL, the HDF5 layer, the likelihood and the prior's [variance()]
      accessor are not part of the two files; they are interfaces (type
      classes and records) whose members the code calls. *)

From Stdlib Require Import Reals Lra Lia ZArith String List.
From stdpp Require Import base gmap sets list strings.

#[global] Instance R_inhabited : Inhabited R := populate 0%R.
#[global] Instance Rlt_decision (x y : R) : Decision (x < y)%R := Rlt_dec x y.
#[global] Instance Rle_decision (x y : R) : Decision (x <= y)%R := Rle_dec x y.
#[global] Instance Rgt_decision (x y : R) : Decision (x > y)%R := Rgt_dec x y.
#[global] Instance Rge_decision (x y : R) : Decision (x >= y)%R := Rge_dec x y.
#[global] Instance Req_decision (x y : R) : Decision (x = y) := Req_dec_T x y.

(** ** Doubles with the IEEE special values *)

Inductive xdouble : Type :=
| Finite (r : R)
| PosInf
| NegInf
| NaN.

Module XD.
Local Open Scope R_scope.

Definition add (a b : xdouble) : xdouble :=
  match a, b with
  | NaN, _ | _, NaN => NaN
  | Finite x, Finite y => Finite (x + y)
  | PosInf, NegInf | NegInf, PosInf => NaN
  | PosInf, _ | _, PosInf => PosInf
  | NegInf, _ | _, NegInf => NegInf
  end.

Definition neg (a : xdouble) : xdouble :=
  match a with
  | Finite x => Finite (- x)
  | PosInf => NegInf
  | NegInf => PosInf
  | NaN => NaN
  end.


(** [a - b] *)
Definition sub (a b : xdouble) : xdouble := add a (neg b).

(** [std::log]: minus infinity at zero and NaN below zero. *)
Definition log (x : R) : xdouble :=
  if bool_decide (0 < x) then Finite (ln x)
  else if bool_decide (x < 0) then NaN
  else NegInf.

(** [a >= b]; false as soon as one side is NaN. *)
Definition ge (a b : xdouble) : bool :=
  match a, b with
  | NaN, _ | _, NaN => false
  | Finite x, Finite y => bool_decide (x >= y)
  | PosInf, _ => true
  | _, NegInf => true
  | Finite _, PosInf => false
  | NegInf, Finite _ => false
  | NegInf, PosInf => false
  end.
End XD.

(** ** Text built with [stringify] and [operator<<] *)

Inductive fragment : Type :=
| Str (s : string)
| Dbl (x : R)
| XDbl (x : xdouble)
| Uns (n : nat)
| Vec (v : list R).

Definition text : Type := list fragment.

Inductive Exception : Type :=
| InternalError (message : text)
| RangeError (message : text)
| UnknownPriorError (message : text)
| ExternalError (message : text).

(** What a call does: return, throw, or run into undefined behaviour. *)
Inductive outcome (A : Type) : Type :=
| Returns (a : A)
| Throws (e : Exception)
| Undefined.
Arguments Returns {A} a.
Arguments Throws {A} e.
Arguments Undefined {A}.

Definition outcome_map {A B : Type} (f : A -> B) (o : outcome A) : outcome B :=
  match o with
  | Returns a => Returns (f a)
  | Throws e => Throws e
  | Undefined => Undefined
  end.

(** ** Parameters *)

(** The named-parameter store: every parameter has a current value. *)
Abbreviation Parameters := (gmap string R).

Definition Parameter_evaluate (name : string) (p : Parameters) : R := p !!! name.
Definition Parameter_set (name : string) (value : R) (p : Parameters) : Parameters :=
  <[name := value]> p.

Record ParameterRange : Type := { range_min : R; range_max : R }.

Record ParameterDescription : Type :=
  { parameter : string; min : R; max : R; nuisance : bool }.

(** [std::numeric_limits<double>::max()] *)
Definition DBL_MAX : R := ((2 - / 2 ^ 52) * 2 ^ 1023)%R.

(** ** GSL *)

Record gsl_matrix : Type :=
  { size1 : nat; size2 : nat; rows : list (list R) }.

Abbreviation gsl_vector := (list R).

Class GslCdf : Type :=
  { (** [gsl_cdf_gaussian_P (x, sigma)] *)
    gsl_cdf_gaussian_P : R -> R -> R;
    gsl_cdf_chisq_Q : R -> R -> R;
    gsl_cdf_chisq_Qinv : R -> R -> R }.

Class GslLinalg : Type :=
  { (** [gsl_linalg_LU_decomp] followed by [gsl_linalg_LU_lndet] *)
    gsl_linalg_LU_lndet : gsl_matrix -> R;
    (** [None]: the call did not return [GSL_SUCCESS] *)
    GSL_LINALG_CHOLESKY_DECOMP : gsl_matrix -> option gsl_matrix;
    gsl_linalg_cholesky_invert : gsl_matrix -> option gsl_matrix }.

Definition power_of_2 (x : R) : R := (x * x)%R.

(** ** The prior classes of namespace [eos::priors]

    Each class is a record of its data members.  The base class member
    [_parameter_descriptions] holds exactly one description in the three
    univariate classes (the constructor pushes one and nothing removes it),
    so the record keeps that element and [front()] is its projection; the
    multivariate class keeps the vector.  The [Parameters] argument of the
    constructors only serves to look the handles up, and handles are names
    here. *)

Module Flat.
Local Open Scope R_scope.

Record t : Type :=
  { _name : string;
    _range : ParameterRange;
    (* The flat prior always returns this value *)
    _value : R;
    _parameter_descriptions_front : ParameterDescription }.

Definition make (name : string) (range : ParameterRange) : outcome t :=
  let value := ln (1 / (range_max range - range_min range)) in
  if bool_decide (range_min range >= range_max range)
  then Throws (RangeError
         [Str "LogPrior::Flat("; Str name; Str "): minimum ("; Dbl (range_min range);
          Str ") must be smaller than maximum ("; Dbl (range_max range); Str ")"])
  else Returns
         {| _name := name; _range := range; _value := value;
            _parameter_descriptions_front :=
              {| parameter := name; min := range_min range;
                 max := range_max range; nuisance := false |} |}.

Definition as_string (p : t) : text :=
  [Str "Parameter: "; Str (_name p); Str ", prior type: flat, range: [";
   Dbl (range_min (_range p)); Str ","; Dbl (range_max (_range p)); Str "]"].

Definition call (p : t) (parameters : Parameters) : xdouble := Finite (_value p).

Definition clone (p : t) : outcome t := make (_name p) (_range p).

Definition informative (p : t) : bool := false.
End Flat.

Module CurtailedGauss.
Section WithGsl.
Context `{GslCdf}.
Local Open Scope R_scope.

Record t : Type :=
  { _name : string;
    _range : ParameterRange;
    _lower : R; _central : R; _upper : R;
    _sigma_lower : R; _sigma_upper : R;
    _c_a : R; _c_b : R;
    _prob_lower : R;
    _norm_lower : xdouble; _norm_upper : xdouble;
    _parameter_descriptions_front : ParameterDescription }.

Definition make (name : string) (range : ParameterRange) (lower central upper : R)
  : outcome t :=
  let sigma_lower := central - lower in
  let sigma_upper := upper - central in
  let c_a := 1 / ((sigma_lower / sigma_upper)
                    * (0.5 - gsl_cdf_gaussian_P (range_min range - central) sigma_lower)
                  + gsl_cdf_gaussian_P (range_max range - central) sigma_upper - 0.5) in
  let c_b := sigma_lower / sigma_upper * c_a in
  let prob_lower := c_b * (0.5 - gsl_cdf_gaussian_P (range_min range - central) sigma_lower) in
  let norm_lower := XD.log (c_b / sqrt (2 * PI) / sigma_lower) in
  let norm_upper := XD.log (c_a / sqrt (2 * PI) / sigma_upper) in
  if bool_decide (range_min range >= range_max range)
  then Throws (RangeError
         [Str "LogPrior::Gauss("; Str name; Str "): minimum ("; Dbl (range_min range);
          Str ") must be smaller than maximum ("; Dbl (range_max range); Str ")"])
  else Returns
         {| _name := name; _range := range;
            _lower := lower; _central := central; _upper := upper;
            _sigma_lower := sigma_lower; _sigma_upper := sigma_upper;
            _c_a := c_a; _c_b := c_b; _prob_lower := prob_lower;
            _norm_lower := norm_lower; _norm_upper := norm_upper;
            _parameter_descriptions_front :=
              {| parameter := name; min := range_min range;
                 max := range_max range; nuisance := false |} |}.

Definition as_string (p : t) : text :=
  [Str "Parameter: "; Str (_name p); Str ", prior type: Gaussian, range: [";
   Dbl (range_min (_range p)); Str ","; Dbl (range_max (_range p)); Str "]";
   Str ", x = "; Dbl (_central p)]
  ++ (if bool_decide (Rabs (_sigma_upper p - _sigma_lower p) < 1 / 10 ^ 15)
      then [Str " +- "; Dbl (_sigma_upper p)]
      else [Str " + "; Dbl (_sigma_upper p); Str " - "; Dbl (_sigma_lower p)]).

(** The value of [operator()] when the parameter's current value is [x];
    the normalisations are what [std::log] gave the constructor. *)
Definition density (p : t) (x : R) : xdouble :=
  let '(sigma, norm) :=
    if bool_decide (x < _central p)
    then (_sigma_lower p, _norm_lower p)
    else (_sigma_upper p, _norm_upper p) in
  XD.sub norm (Finite (0.5 * power_of_2 ((x - _central p) / sigma))).

Definition call (p : t) (parameters : Parameters) : xdouble :=
  (* read parameter's current value *)
  let x := Parameter_evaluate (parameter (_parameter_descriptions_front p)) parameters in
  density p x.

Definition clone (p : t) : outcome t :=
  make (_name p) (_range p) (_lower p) (_central p) (_upper p).

Definition informative (p : t) : bool := true.
End WithGsl.
End CurtailedGauss.

Module Scale.
Local Open Scope R_scope.

Record t : Type :=
  { _name : string;
    _range : ParameterRange;
    _mu_0 : R; _lambda : R;
    _min : R; _max : R;
    _ln_lambda : R;
    _parameter_descriptions_front : ParameterDescription }.

Definition make (name : string) (range : ParameterRange) (mu_0 lambda : R) : t :=
  {| _name := name; _range := range;
     _mu_0 := mu_0; _lambda := lambda;
     _min := mu_0 / lambda; _max := mu_0 * lambda;
     _ln_lambda := ln lambda;
     _parameter_descriptions_front :=
       {| parameter := name; min := mu_0 / lambda; max := mu_0 * lambda;
          nuisance := false |} |}.

Definition as_string (p : t) : text :=
  [Str "Parameter: "; Str (_name p); Str ", prior type: Scale, range: [";
   Dbl (_mu_0 p / _lambda p); Str ","; Dbl (_mu_0 p * _lambda p); Str "]";
   Str ", mu_0 = "; Dbl (_mu_0 p); Str ", lambda = "; Dbl (_lambda p)].

Definition call (p : t) (parameters : Parameters) : xdouble :=
  (* read parameter's current value *)
  let x := Parameter_evaluate (parameter (_parameter_descriptions_front p)) parameters in
  if bool_decide (x < _min p) || bool_decide (_max p < x)
  then NegInf
  else Finite (1 / (2 * _ln_lambda p * x)).

Definition clone (p : t) : t :=
  make (_name p) (_range p) (_mu_0 p) (_lambda p).

Definition informative (p : t) : bool := true.
End Scale.

Module MultivariateGaussian.
Section WithGsl.
Context `{GslLinalg}.
Local Open Scope R_scope.

Record t : Type :=
  { _parameters : list string;
    _names : list string;
    _dim : nat;
    (* inputs *)
    _mean : gsl_vector;
    _covariance : gsl_matrix;
    (* the normalization constant of the density *)
    _norm : R;
    (* cholesky matrix of covariance, and inverse of covariance *)
    _chol : gsl_matrix;
    _covariance_inv : gsl_matrix;
    _parameter_descriptions : list ParameterDescription }.

(* compute the normalization constant on log scale *)
Definition compute_norm (dim : nat) (covariance : gsl_matrix) : R :=
  let log_det := gsl_linalg_LU_lndet covariance in
  - 0.5 * INR dim * ln (2 * PI) - 0.5 * log_det.

(* keep only the lower and diagonal parts, set upper parts to zero *)
Definition zero_upper (dim : nat) (m : gsl_matrix) : gsl_matrix :=
  {| size1 := size1 m; size2 := size2 m;
     rows := imap (fun i row =>
                     imap (fun j x =>
                             if ((i <? dim) && (i <? j) && (j <? dim))%nat then 0 else x)
                          row)
                  (rows m) |}.

Definition make (names : list string) (mean : gsl_vector) (covariance : gsl_matrix)
  : outcome t :=
  let dim := length names in
  let norm := compute_norm dim covariance in
  if negb (size1 covariance =? size2 covariance)%nat
  then Throws (InternalError
         [Str "priors::MultivariateGaussian: covariance matrix is not a square matrix"])
  else if negb (size1 covariance =? length mean)%nat
  then Throws (InternalError
         [Str "priors::MultivariateGaussian: number of parameters and dimension of covariance matrix are not identical"])
  else if negb (dim =? length mean)%nat
  then Throws (InternalError
         [Str "priors::MultivariateGaussian: number of parameters and dimension of mean vector are not identical"])
  else
    let inf := DBL_MAX in
    let descriptions :=
      map (fun n => {| parameter := n; min := - inf; max := inf; nuisance := false |})
          names in
    match GSL_LINALG_CHOLESKY_DECOMP covariance with
    | None => Throws (InternalError
                [Str "priors::MultivariateGaussian: Cholesky decomposition failed"])
    | Some chol =>
        match gsl_linalg_cholesky_invert chol with
        | None => Throws (InternalError
                    [Str "priors::MultivariateGaussian: Cholesky inversion failed"])
        | Some covariance_inv =>
            Returns
              {| _parameters := names; _names := names; _dim := dim;
                 _mean := mean; _covariance := covariance; _norm := norm;
                 _chol := zero_upper dim chol;
                 _covariance_inv := covariance_inv;
                 _parameter_descriptions := descriptions |}
        end
    end.

Definition as_string (p : t) : outcome text :=
  Throws (InternalError [Str "priors::MultivariateGaussian::as_string() not implemented"]).

Definition gsl_blas_ddot (x y : gsl_vector) : R :=
  foldr Rplus 0 (zip_with Rmult x y).

(* y <- A x *)
Definition gsl_blas_dgemv (A : gsl_matrix) (x : gsl_vector) : gsl_vector :=
  map (fun row => gsl_blas_ddot row x) (rows A).

Definition call (p : t) (parameters : Parameters) : xdouble :=
  (* read parameters *)
  let observables :=
    map (fun n => Parameter_evaluate n parameters) (take (_dim p) (_parameters p)) in
  (* measurements <- mean - observables *)
  let measurements := zip_with Rminus (_mean p) observables in
  (* measurements_2 <- inv(covariance) * measurements *)
  let measurements_2 := gsl_blas_dgemv (_covariance_inv p) measurements in
  let chi_square := gsl_blas_ddot measurements measurements_2 in
  Finite (_norm p - 0.5 * chi_square).

Definition clone (p : t) : outcome t :=
  make (_names p) (_mean p) (_covariance p).

Definition informative (p : t) : bool := true.
End WithGsl.
End MultivariateGaussian.

(** ** [LogPrior]: the four dynamic types behind a [LogPriorPtr] *)

Section LogPrior.
Context `{GslCdf} `{GslLinalg}.
Local Open Scope R_scope.

Inductive LogPrior : Type :=
| IsFlat (p : Flat.t)
| IsCurtailedGauss (p : CurtailedGauss.t)
| IsScale (p : Scale.t)
| IsMultivariateGaussian (p : MultivariateGaussian.t).

(** [begin()] .. [end()] *)
Definition LogPrior_descriptions (prior : LogPrior) : list ParameterDescription :=
  match prior with
  | IsFlat p => [Flat._parameter_descriptions_front p]
  | IsCurtailedGauss p => [CurtailedGauss._parameter_descriptions_front p]
  | IsScale p => [Scale._parameter_descriptions_front p]
  | IsMultivariateGaussian p => MultivariateGaussian._parameter_descriptions p
  end.

(** [operator()] *)
Definition LogPrior_call (prior : LogPrior) (parameters : Parameters) : xdouble :=
  match prior with
  | IsFlat p => Flat.call p parameters
  | IsCurtailedGauss p => CurtailedGauss.call p parameters
  | IsScale p => Scale.call p parameters
  | IsMultivariateGaussian p => MultivariateGaussian.call p parameters
  end.

Definition LogPrior_clone (prior : LogPrior) : outcome LogPrior :=
  match prior with
  | IsFlat p => outcome_map IsFlat (Flat.clone p)
  | IsCurtailedGauss p => outcome_map IsCurtailedGauss (CurtailedGauss.clone p)
  | IsScale p => Returns (IsScale (Scale.clone p))
  | IsMultivariateGaussian p =>
      outcome_map IsMultivariateGaussian (MultivariateGaussian.clone p)
  end.

Definition LogPrior_informative (prior : LogPrior) : bool :=
  match prior with
  | IsFlat p => Flat.informative p
  | IsCurtailedGauss p => CurtailedGauss.informative p
  | IsScale p => Scale.informative p
  | IsMultivariateGaussian p => MultivariateGaussian.informative p
  end.

Definition LogPrior_as_string (prior : LogPrior) : outcome text :=
  match prior with
  | IsFlat p => Returns (Flat.as_string p)
  | IsCurtailedGauss p => Returns (CurtailedGauss.as_string p)
  | IsScale p => Returns (Scale.as_string p)
  | IsMultivariateGaussian p => MultivariateGaussian.as_string p
  end.

(** The factory functions [LogPrior::Flat], [LogPrior::CurtailedGauss],
    [LogPrior::Scale] and [LogPrior::MultivariateGaussian]. *)

Definition LogPrior_Flat (name : string) (range : ParameterRange) : outcome LogPrior :=
  outcome_map IsFlat (Flat.make name range).

Definition LogPrior_CurtailedGauss (name : string) (range : ParameterRange)
    (lower central upper : R) : outcome LogPrior :=
  (* check input *)
  if bool_decide (lower >= central)
  then Throws (InternalError
         [Str "LogPrior::Gauss: lower value ("; Dbl lower; Str ") >= central value (";
          Dbl central; Str ")"])
  else if bool_decide (upper <= central)
  then Throws (InternalError
         [Str "LogPrior::Gauss: upper value ("; Dbl upper; Str ") <= central value (";
          Dbl central; Str ")"])
  else outcome_map IsCurtailedGauss (CurtailedGauss.make name range lower central upper).

Definition LogPrior_Scale (name : string) (range : ParameterRange) (mu_0 lambda : R)
  : outcome LogPrior :=
  (* check input *)
  if bool_decide (mu_0 <= 0)
  then Throws (InternalError
         [Str "LogPrior::Scale: default value mu_0 must be strictly positive"])
  else if bool_decide (lambda <= 1)
  then Throws (InternalError
         [Str "LogPrior::Scale: scale factor lambda must be strictly larger than 1"])
  else Returns (IsScale (Scale.make name range mu_0 lambda)).

Definition LogPrior_MultivariateGaussian (names : list string) (mean : gsl_vector)
    (covariance : gsl_matrix) : outcome LogPrior :=
  outcome_map IsMultivariateGaussian (MultivariateGaussian.make names mean covariance).

(** A prior that one of the factories returned. *)
Inductive constructed : LogPrior -> Prop :=
| constructed_Flat name range prior :
    LogPrior_Flat name range = Returns prior -> constructed prior
| constructed_CurtailedGauss name range lower central upper prior :
    LogPrior_CurtailedGauss name range lower central upper = Returns prior ->
    constructed prior
| constructed_Scale name range mu_0 lambda prior :
    LogPrior_Scale name range mu_0 lambda = Returns prior -> constructed prior
| constructed_MultivariateGaussian names mean covariance prior :
    LogPrior_MultivariateGaussian names mean covariance = Returns prior ->
    constructed prior.

End LogPrior.

(** ** Collaborators of [LogPosterior] *)

(** The prior's [variance()] accessor, called by [proposal_covariance]. *)
Class PriorVariance : Type :=
  { variance : LogPrior -> R }.

(** What the headers and [config.h] declare: the default argument of
    [LogPosterior::add] and the version string. *)
Class Declarations : Type :=
  { add_nuisance_default : bool;
    EOS_GITHEAD : string }.

(** The likelihood, at its interface.  Everything it computes is a function of
    the current parameter values. *)
Record LogLikelihoodBlock : Type :=
  { significance : Parameters -> R }.

Record Constraint : Type :=
  { constraint_name : string;
    blocks : list LogLikelihoodBlock }.

Record LogLikelihood : Type :=
  { (** [operator()] *)
    llh_call : Parameters -> xdouble;
    number_of_observations : nat;
    bootstrap_p_value : Parameters -> nat -> R * R;
    (** [begin()] .. [end()] *)
    constraints : list Constraint;
    (** [observable_cache()]: name and value of each observable *)
    observable_cache : list (string * (Parameters -> R)) }.

(** The HDF5 layer.  [hdf5_disk] is whatever the files hold. *)
Inductive hdf5_record : Type :=
| DescriptionRecord (name : string) (min max : R) (nuisance : Z) (prior : text)
| NameRecord (name : string)
| ArrayRecord (values : list R).

Inductive hdf5_attribute_value : Type :=
| AttrString (s : string)
| AttrDouble (x : R).

Class Hdf5 : Type :=
  { hdf5_disk : Type;
    hdf5_File : Type;
    hdf5_DataSet : Type;
    hdf5_Attribute : Type;
    hdf5_File_Create : string -> hdf5_disk -> outcome hdf5_File * hdf5_disk;
    hdf5_create_data_set : hdf5_File -> string -> hdf5_disk -> outcome hdf5_DataSet * hdf5_disk;
    hdf5_write : hdf5_DataSet -> hdf5_record -> hdf5_disk -> outcome unit * hdf5_disk;
    hdf5_create_attribute :
      hdf5_DataSet -> string -> hdf5_disk -> outcome hdf5_Attribute * hdf5_disk;
    hdf5_assign :
      hdf5_Attribute -> hdf5_attribute_value -> hdf5_disk -> outcome unit * hdf5_disk }.

(** The simplex minimiser of GSL.  It is C code that reaches the posterior
    only through the callback [posterior.f]; a call into it is therefore a
    finite tree of callback evaluations ending in the call's result. *)
Inductive gsl_call (A : Type) : Type :=
| gsl_done (a : A)
| gsl_f (x : gsl_vector) (k : xdouble -> gsl_call A).
Arguments gsl_done {A} a.
Arguments gsl_f {A} x k.

Definition GSL_SUCCESS : Z := 0.
Definition GSL_CONTINUE : Z := (-2).

Class GslMultimin : Type :=
  { gsl_multimin_fminimizer : Type;
    (** [gsl_multimin_fminimizer_alloc (nmsimplex2rand, n)] and
        [gsl_multimin_fminimizer_set (minim, f, x, ss)] *)
    gsl_multimin_fminimizer_set :
      nat -> gsl_vector -> gsl_vector -> gsl_call gsl_multimin_fminimizer;
    gsl_multimin_fminimizer_iterate :
      gsl_multimin_fminimizer -> gsl_call (Z * gsl_multimin_fminimizer);
    gsl_multimin_fminimizer_size : gsl_multimin_fminimizer -> R;
    gsl_multimin_test_size : R -> R -> Z;
    (** [minim->fval] and [minim->x] *)
    minim_fval : gsl_multimin_fminimizer -> xdouble;
    minim_x : gsl_multimin_fminimizer -> gsl_vector }.

(** ** The state the calls act on *)

Inductive LogLevel : Type :=
| ll_debug
| ll_informational
| ll_warning.

Record LogMessage : Type :=
  { log_context : string; log_level : LogLevel; log_text : text }.

Section Effects.
Context `{Hdf5}.

Record World : Type :=
  { parameters : Parameters;
    log : list LogMessage;
    disk : hdf5_disk }.

(** A call runs in a world and leaves a world behind, also when it throws. *)
Definition M (A : Type) : Type := World -> outcome A * World.

Definition ret {A : Type} (a : A) : M A := fun w => (Returns a, w).

Definition bind {A B : Type} (c : M A) (k : A -> M B) : M B :=
  fun w =>
    match c w with
    | (Returns a, w') => k a w'
    | (Throws e, w') => (Throws e, w')
    | (Undefined, w') => (Undefined, w')
    end.

Definition throw {A : Type} (e : Exception) : M A := fun w => (Throws e, w).

Definition undefined {A : Type} : M A := fun w => (Undefined, w).

Definition lift_outcome {A : Type} (o : outcome A) : M A := fun w => (o, w).

Definition get_parameters : M Parameters := fun w => (Returns (parameters w), w).

(** [parameter->set(value)] *)
Definition set_parameter (name : string) (value : R) : M unit :=
  fun w =>
    (Returns tt,
     {| parameters := Parameter_set name value (parameters w);
        log := log w; disk := disk w |}).

(** [Log::instance()->message(context, level) << ...] *)
Definition log_message (context : string) (level : LogLevel) (message : text) : M unit :=
  fun w =>
    (Returns tt,
     {| parameters := parameters w;
        log := log w ++ [{| log_context := context; log_level := level;
                            log_text := message |}];
        disk := disk w |}).

Definition on_disk {A : Type} (op : hdf5_disk -> outcome A * hdf5_disk) : M A :=
  fun w =>
    let '(o, d) := op (disk w) in
    (o, {| parameters := parameters w; log := log w; disk := d |}).

End Effects.

Declare Scope eos_scope.
Delimit Scope eos_scope with eos.
Notation "x <- c1 ;; c2" := (bind c1 (fun x => c2))
  (at level 100, c1 at next level, right associativity) : eos_scope.
Notation "c1 ;; c2" := (bind c1 (fun _ => c2))
  (at level 100, right associativity) : eos_scope.
Section Loops.
Context `{Hdf5}.
Local Open Scope eos_scope.

(** [for (const auto & a : l) body(a);] *)
Fixpoint for_each {A : Type} (l : list A) (body : A -> M unit) : M unit :=
  match l with
  | [] => ret tt
  | a :: l' => body a ;; for_each l' body
  end.

End Loops.

(** ** [LogPosterior] *)

(** [unsigned] arithmetic wraps around at [2^32]. *)
Definition UINT_MAX : N := 4294967295.
Definition unsigned_add (a b : N) : N := ((a + b) mod (UINT_MAX + 1))%N.

Record LogPosterior : Type :=
  { _log_likelihood : LogLikelihood;
    _priors : list LogPrior;
    _parameter_descriptions : list ParameterDescription;
    _parameter_names : gset string;
    _informative_priors : N }.

Definition LogPosterior_new (log_likelihood : LogLikelihood) : LogPosterior :=
  {| _log_likelihood := log_likelihood;
     _priors := [];
     _parameter_descriptions := [];
     _parameter_names := ∅;
     _informative_priors := 0 |}.

Definition with_nuisance (d : ParameterDescription) (nuisance : bool)
  : ParameterDescription :=
  {| parameter := parameter d; min := min d; max := max d; nuisance := nuisance |}.

(** The loop of [add] over the descriptions [d] of the prior: [(false, _, _)]
    is the early [return false], leaving what was inserted so far. *)
Fixpoint add_descriptions (ds : list ParameterDescription) (nuisance : bool)
    (names : gset string) (registered : list ParameterDescription)
  : bool * gset string * list ParameterDescription :=
  match ds with
  | [] => (true, names, registered)
  | d :: ds' =>
      (* _parameter_names.insert(...).second is false when the name is there *)
      if bool_decide (parameter d ∈ names)
      then (false, names, registered)
      else add_descriptions ds' nuisance ({[parameter d]} ∪ names)
             (registered ++ [with_nuisance d nuisance])
  end.

Section Posterior.
Context `{GslCdf} `{GslLinalg} `{Declarations}.

(** [add] also stores [nuisance] into the descriptions held by the argument
    prior itself; nothing reads them afterwards ([clone] runs the constructor
    again), so the argument is not returned. *)
Definition add (self : LogPosterior) (prior : LogPrior) (nuisance : bool)
  : outcome (bool * LogPosterior) :=
  (* clone has correct Parameters object selected *)
  match LogPrior_clone prior with
  | Returns prior_clone =>
      let informative_priors :=
        unsigned_add (_informative_priors self)
                     (if LogPrior_informative prior then 1 else 0) in
      (* check if param exists already *)
      let '(inserted, names, registered) :=
        add_descriptions (LogPrior_descriptions prior) nuisance
          (_parameter_names self) (_parameter_descriptions self) in
      if inserted
      then
        (* then add to prior container *)
        Returns (true,
                 {| _log_likelihood := _log_likelihood self;
                    _priors := _priors self ++ [prior_clone];
                    _parameter_descriptions := registered;
                    _parameter_names := names;
                    _informative_priors := informative_priors |})
      else
        Returns (false,
                 {| _log_likelihood := _log_likelihood self;
                    _priors := _priors self;
                    _parameter_descriptions := registered;
                    _parameter_names := names;
                    _informative_priors := informative_priors |})
  | Throws e => Throws e
  | Undefined => Undefined
  end.

(* add parameters via prior clones *)
Fixpoint add_prior_clones (priors : list LogPrior) (result : LogPosterior)
  : outcome LogPosterior :=
  match priors with
  | [] => Returns result
  | _prior :: priors' =>
      match LogPrior_clone _prior with
      | Returns c =>
          match add result c add_nuisance_default with
          | Returns (_, result') => add_prior_clones priors' result'
          | Throws e => Throws e
          | Undefined => Undefined
          end
      | Throws e => Throws e
      | Undefined => Undefined
      end
  end.

(* copy proper range for subspace sampling: i runs over the original's
   descriptions, j over the result's; j is written without a bound check *)
Fixpoint copy_ranges (original result : list ParameterDescription)
  : outcome (list ParameterDescription) :=
  match original, result with
  | [], _ => Returns result
  | i :: original', j :: result' =>
      outcome_map
        (cons {| parameter := parameter j; min := min i; max := max i;
                 nuisance := nuisance i |})
        (copy_ranges original' result')
  | _ :: _, [] => Undefined
  end.

(** The clone of the likelihood is an independent copy with a parameter
    store of its own; as a value it is the same interface. *)
Definition LogLikelihood_clone (llh : LogLikelihood) : LogLikelihood := llh.

Definition private_clone (self : LogPosterior) : outcome LogPosterior :=
  (* clone log_likelihood *)
  let llh := LogLikelihood_clone (_log_likelihood self) in
  match add_prior_clones (_priors self) (LogPosterior_new llh) with
  | Returns result =>
      match copy_ranges (_parameter_descriptions self) (_parameter_descriptions result) with
      | Returns copied =>
          Returns {| _log_likelihood := _log_likelihood result;
                     _priors := _priors result;
                     _parameter_descriptions := copied;
                     _parameter_names := _parameter_names result;
                     _informative_priors := _informative_priors result |}
      | Throws e => Throws e
      | Undefined => Undefined
      end
  | Throws e => Throws e
  | Undefined => Undefined
  end.

Definition LogPosterior_clone (self : LogPosterior) : outcome LogPosterior :=
  private_clone self.

Definition parameter_descriptions (self : LogPosterior) : list ParameterDescription :=
  _parameter_descriptions self.

Definition informative_priors (self : LogPosterior) : N := _informative_priors self.

(** [index (name)] *)
Fixpoint index_from (name : string) (ds : list ParameterDescription) (result : nat)
  : outcome nat :=
  match ds with
  | [] => Throws (InternalError
            [Str "Implementation<Analysis>::definition: no such parameter '"; Str name;
             Str "'"])
  | d :: ds' =>
      if bool_decide (name = parameter d) then Returns result
      else index_from name ds' (S result)
  end.

Definition index (self : LogPosterior) (name : string) : outcome nat :=
  index_from name (_parameter_descriptions self) 0.

(** [log_prior ()] at the current parameter values *)
Definition log_prior (self : LogPosterior) (parameters : Parameters) : outcome xdouble :=
  match _priors self with
  | [] => Throws (InternalError [Str "LogPosterior::log_prior(): prior is undefined"])
  | _ =>
      (* all prior components are assumed independent,
         thus the logs can be simply added up *)
      Returns (foldl (fun result _prior => XD.add result (LogPrior_call _prior parameters))
                     (Finite 0) (_priors self))
  end.

(** [log_prior (name)]: [None] is the null pointer. *)
Definition log_prior_named (self : LogPosterior) (name : string) : option LogPrior :=
  foldl (fun prior _prior =>
           foldl (fun prior i => if bool_decide (parameter i = name) then Some _prior else prior)
                 prior (LogPrior_descriptions _prior))
        None (_priors self).

End Posterior.

Section PosteriorCalls.
Context `{GslCdf} `{GslLinalg} `{Declarations} `{Hdf5} `{GslMultimin} `{PriorVariance}.
Local Open Scope eos_scope.
Local Open Scope R_scope.

(** [log_prior ()] and [_log_likelihood ()] as calls. *)
Definition call_log_prior (self : LogPosterior) : M xdouble :=
  parameters <- get_parameters ;; lift_outcome (log_prior self parameters).

Definition call_log_likelihood (self : LogPosterior) : M xdouble :=
  parameters <- get_parameters ;; ret (llh_call (_log_likelihood self) parameters).

(** [dump_descriptions (file, data_set_base)] *)
Definition dump_descriptions (self : LogPosterior) (file : hdf5_File)
    (data_set_base : string) : M unit :=
  (* store parameter info, including the prior *)
  data_set <- on_disk (hdf5_create_data_set file (data_set_base ++ "/parameters")) ;;
  for_each (_parameter_descriptions self)
    (fun d =>
       match log_prior_named self (parameter d) with
       | None => undefined
       | Some prior =>
           prior_string <- lift_outcome (LogPrior_as_string prior) ;;
           on_disk (hdf5_write data_set
                      (DescriptionRecord (parameter d) (min d) (max d)
                         (if nuisance d then 1%Z else 0%Z) prior_string))
       end) ;;
  (* store the SHA hash of the current git version *)
  attr <- on_disk (hdf5_create_attribute data_set "version") ;;
  on_disk (hdf5_assign attr (AttrString EOS_GITHEAD)) ;;
  (* store constraints *)
  constraint_data_set <-
    on_disk (hdf5_create_data_set file (data_set_base ++ "/constraints")) ;;
  for_each (constraints (_log_likelihood self))
    (fun c => on_disk (hdf5_write constraint_data_set (NameRecord (constraint_name c)))) ;;
  (* store observable names *)
  observables_data_set <-
    on_disk (hdf5_create_data_set file (data_set_base ++ "/observables")) ;;
  for_each (observable_cache (_log_likelihood self))
    (fun o => on_disk (hdf5_write observables_data_set (NameRecord (fst o)))).

(** The loop of [goodness_of_fit] that sets the parameter values: the range
    check of component [i] and the write of component [i] alternate. *)
Fixpoint set_parameter_values (descs : list ParameterDescription) (parameter_values : list R)
  : M unit :=
  match parameter_values, descs with
  | [], _ => ret tt
  | value :: parameter_values', desc :: descs' =>
      if bool_decide (value < min desc) || bool_decide (value > max desc)
      then throw (InternalError
             [Str "LogPosterior::goodness_of_fit: parameter "; Str (parameter desc);
              Str " out of bounds ["; Dbl (min desc); Str ", "; Dbl (max desc); Str "]: ";
              Dbl value])
      else set_parameter (parameter desc) value ;;
           set_parameter_values descs' parameter_values'
  | _ :: _, [] => undefined
  end.

(** The optional output file of [goodness_of_fit]. *)
Definition open_output (self : LogPosterior) (parameter_values : list R)
    (output_file : string) : M (option hdf5_File) :=
  if bool_decide (output_file = "")
  then ret None
  else
    f <- on_disk (hdf5_File_Create output_file) ;;
    dump_descriptions self f "/descriptions" ;;
    data_set <- on_disk (hdf5_create_data_set f "/data/parameters") ;;
    on_disk (hdf5_write data_set (ArrayRecord parameter_values)) ;;
    ret (Some f).

(* calculate the significances *)
Fixpoint block_significances (name : string) (bs : list LogLikelihoodBlock)
    (acc : R * list R) : M (R * list R) :=
  match bs with
  | [] => ret acc
  | b :: bs' =>
      parameters <- get_parameters ;;
      let significance := significance b parameters in
      log_message "log_posterior.goodness_of_fit" ll_informational
        [Str name; Str ": "; Dbl significance; Str " sigma"] ;;
      block_significances name bs'
        (fst acc + power_of_2 significance, snd acc ++ [significance])
  end.

Fixpoint constraint_significances (cs : list Constraint) (acc : R * list R)
  : M (R * list R) :=
  match cs with
  | [] => ret acc
  | c :: cs' =>
      acc' <- block_significances (constraint_name c) (blocks c) acc ;;
      constraint_significances cs' acc'
  end.

(* store significances and chi^2 *)
Definition store_significances (f : option hdf5_File) (significances : list R)
    (total_significance_squared chi_squared : R) : M unit :=
  match f with
  | Some file =>
      data_set <- on_disk (hdf5_create_data_set file "/data/significances") ;;
      on_disk (hdf5_write data_set (ArrayRecord significances)) ;;
      attr_sign <- on_disk (hdf5_create_attribute data_set "chi2_significance") ;;
      on_disk (hdf5_assign attr_sign (AttrDouble total_significance_squared)) ;;
      attr_sim <- on_disk (hdf5_create_attribute data_set "chi2_simulation") ;;
      on_disk (hdf5_assign attr_sign (AttrDouble chi_squared))
  | None => ret tt
  end.

Definition goodness_of_fit (self : LogPosterior) (parameter_values : list R)
    (simulated_datasets : nat) (output_file : string) : M (R * R) :=
  let descs := _parameter_descriptions self in
  let llh := _log_likelihood self in
  (* count scan parameters *)
  let scan_parameters := length (filter (fun d => nuisance d = false) descs) in
  if negb (length descs =? length parameter_values)%nat
  then throw (InternalError
         [Str "LogPosterior::goodness_of_fit: starting point doesn't have the correct dimension: ";
          Uns (length parameter_values); Str " vs "; Uns (length descs)])
  else
    f <- open_output self parameter_values output_file ;;
    (* set the parameter values *)
    set_parameter_values descs parameter_values ;;
    (* update observables for new parameter values *)
    ll <- call_log_likelihood self ;;
    lp <- call_log_prior self ;;
    log_message "log_posterior.goodness_of_fit" ll_informational
      [Str "Calculating p-values at parameters "; Vec parameter_values;
       Str " with log(post) = "; XDbl (XD.add ll lp)] ;;
    (* simulate data sets *)
    parameters <- get_parameters ;;
    let sim_result := bootstrap_p_value llh parameters simulated_datasets in
    (* p-value from the analytical, yet approximate chi^2-distribution
       with (n_obs - n_par) degrees-of-freedom *)
    let dof := 1 * INR (number_of_observations llh) - INR (length descs) in
    let chi_squared :=
      gsl_cdf_chisq_Qinv (fst sim_result) (INR (number_of_observations llh)) in
    p_analytical <-
      (if bool_decide (dof > 0)
       then
         let p_analytical := gsl_cdf_chisq_Q chi_squared dof in
         log_message "log_posterior.goodness_of_fit" ll_debug
           [Str "dof = "; Dbl dof; Str ", _parameter_descriptions.size = ";
            Uns (length descs); Str ", #observations = ";
            Uns (number_of_observations llh)] ;;
         log_message "log_posterior.goodness_of_fit" ll_informational
           [Str "p-value from simulating pseudo experiments after applying DoF correction and using the \chi^2-distribution";
            Str " (valid assumption?) has a value of "; Dbl p_analytical] ;;
         ret p_analytical
       else
         log_message "log_posterior.goodness_of_fit" ll_warning
           [Str "Cannot compute p-value for non-positive dof ("; Dbl dof;
            Str "). Need more constraints / less parameters"] ;;
         ret 0) ;;
    let dof_scan := 1 * INR (number_of_observations llh) - INR scan_parameters in
    (if bool_decide (dof_scan > 0)
     then
       let p_analytical_scan := gsl_cdf_chisq_Q chi_squared dof_scan in
       log_message "log_posterior.goodness_of_fit" ll_informational
         [Str "p-value from simulating pseudo experiments after applying DoF correction (scan parameters only)";
          Str " and using the \chi^2-distribution";
          Str " (valid assumption?) has a value of "; Dbl p_analytical_scan]
     else
       log_message "log_posterior.goodness_of_fit" ll_warning
         [Str "Cannot compute p-value for negative dof_scan ("; Dbl dof_scan;
          Str "). Need more constraints / less parameters"]) ;;
    log_message "log_posterior.goodness_of_fit" ll_informational
      [Str "Significances for each constraint:"] ;;
    acc <- constraint_significances (constraints llh) (0, []) ;;
    let total_significance_squared := fst acc in
    let significances := snd acc in
    store_significances f significances total_significance_squared chi_squared ;;
    log_message "log_posterior.goodness_of_fit" ll_informational
      [Str "Listing the individual observables' predicted values:"] ;;
    for_each (observable_cache llh)
      (fun o =>
         parameters <- get_parameters ;;
         log_message "log_posterior.goodness_of_fit" ll_informational
           [Str (fst o); Str " = "; Dbl (snd o parameters)]) ;;
    (if bool_decide (dof > 0)
     then
       let p_significance := gsl_cdf_chisq_Q total_significance_squared dof in
       log_message "log_posterior.goodness_of_fit" ll_informational
         [Str "p-value from calculating significances, treating them as coming from a Gaussian, is ";
          Dbl p_significance; Str ". The pseudo chi_squared/dof is ";
          Dbl total_significance_squared; Str "/"; Dbl dof; Str " = ";
          Dbl (total_significance_squared / dof)]
     else ret tt) ;;
    (if bool_decide (dof_scan > 0)
     then
       let p_significance_scan := gsl_cdf_chisq_Q total_significance_squared dof_scan in
       log_message "log_posterior.goodness_of_fit" ll_informational
         [Str "p-value from calculating significances, treating them as coming from a Gaussian, is ";
          Dbl p_significance_scan;
          Str ". The pseudo chi_squared/dof (dof from scan parameters only) is ";
          Dbl total_significance_squared; Str "/"; Dbl dof_scan; Str " = ";
          Dbl (total_significance_squared / dof_scan)]
     else ret tt) ;;
    ret (fst sim_result, p_analytical).

(** [negative_log_posterior (pars, data)], the callback handed to GSL.  GSL
    hands over vectors of [posterior.n] components; [gsl_vector_get (pars, i)]
    is the total lookup [pars !!! i]. *)
Fixpoint set_components (descs : list ParameterDescription) (pars : gsl_vector) (i : nat)
  : M unit :=
  match descs with
  | [] => ret tt
  | desc :: descs' =>
      set_parameter (parameter desc) (pars !!! i) ;; set_components descs' pars (S i)
  end.

Definition negative_log_posterior (pars : gsl_vector) (log_posterior : LogPosterior)
  : M xdouble :=
  (* set all components of parameters *)
  set_components (_parameter_descriptions log_posterior) pars 0%nat ;;
  (* calculate negative posterior *)
  lp <- call_log_prior log_posterior ;;
  ll <- call_log_likelihood log_posterior ;;
  ret (XD.neg (XD.add lp ll)).

Record OptimizationOptions : Type :=
  { fix_flat_nuisance : bool;
    initial_step_size : R;
    maximum_iterations : nat;
    mcmc_pre_run : bool;
    tolerance : R;
    splitting_tolerance : R;
    strategy_level : nat }.

Definition OptimizationOptions_Defaults : OptimizationOptions :=
  {| fix_flat_nuisance := false;
     initial_step_size := 0.1;
     maximum_iterations := 8000;
     mcmc_pre_run := true;
     tolerance := 0.1;
     splitting_tolerance := 0.01;
     strategy_level := 1 |}.

(** A call into GSL with [posterior.f = &negative_log_posterior] and
    [posterior.params = this]. *)
Fixpoint call_gsl {A : Type} (self : LogPosterior) (c : gsl_call A) : M A :=
  match c with
  | gsl_done a => ret a
  | gsl_f x k => value <- negative_log_posterior x self ;; call_gsl self (k value)
  end.

(** The [do ... while (status == GSL_CONTINUE && iter < maximum_iterations)]
    loop; [fuel] bounds the number of further passes and is started at
    [maximum_iterations], which the loop condition never exceeds. *)
Fixpoint run_minimizer (fuel : nat) (self : LogPosterior) (options : OptimizationOptions)
    (iter : nat) (minim : gsl_multimin_fminimizer) : M gsl_multimin_fminimizer :=
  let iter := S iter in
  r <- call_gsl self (gsl_multimin_fminimizer_iterate minim) ;;
  let status := fst r in
  let minim := snd r in
  if negb (status =? 0)%Z
  then ret minim
  else
    let simplex_size := gsl_multimin_fminimizer_size minim in
    let status := gsl_multimin_test_size simplex_size (tolerance options) in
    log_message "log_posterior.optimize" ll_debug
      [Str "f() = "; XDbl (minim_fval minim); Str "	size = "; Dbl simplex_size] ;;
    (if (status =? GSL_SUCCESS)%Z
     then log_message "log_posterior.optimize" ll_informational
            [Str "Simplex algorithm converged after "; Uns iter; Str " iterations"]
     else ret tt) ;;
    if (status =? GSL_CONTINUE)%Z && (iter <? maximum_iterations options)%nat
    then
      match fuel with
      | S fuel' => run_minimizer fuel' self options iter minim
      | O => ret minim
      end
    else ret minim.

(** [parameters_at_mode[i] = gsl_vector_get (minim->x, i)] for every [i] *)
Definition copy_mode (initial_guess : list R) (x : gsl_vector) : list R :=
  imap (fun i _ => x !!! i) initial_guess.

Definition optimize (self : LogPosterior) (initial_guess : list R)
    (options : OptimizationOptions) : M (list R * xdouble) :=
  let descs := _parameter_descriptions self in
  (* input validation *)
  if negb (length descs =? length initial_guess)%nat
  then throw (InternalError
         [Str "LogPosterior::optimize: starting point doesn't have the correct dimension ";
          Uns (length descs)])
  else
    let n := length descs in
    (* set starting guess *)
    let x := initial_guess in
    (* save minimum for later comparison *)
    initial_minimum <- negative_log_posterior x self ;;
    (* set initial step sizes relative to allowed parameter range *)
    let ss := map (fun d => (max d - min d) * initial_step_size options) descs in
    (* setup the minimizer *)
    minim <- call_gsl self (gsl_multimin_fminimizer_set n x ss) ;;
    (* run the minimizer *)
    minim <- run_minimizer (maximum_iterations options) self options 0 minim ;;
    (* build output vector *)
    let parameters_at_mode := copy_mode initial_guess (minim_x minim) in
    let mode := minim_fval minim in
    (* check if algorithm actually found a better minimum *)
    if XD.ge mode initial_minimum
    then
      log_message "log_posterior.optimize" ll_warning
        [Str "Simplex algorithm did not improve on initial guess"] ;;
      ret (initial_guess, XD.neg initial_minimum)
    else
      log_message "log_posterior.optimize" ll_informational
        ([Str "Results: maximum of posterior = "; XDbl (XD.neg mode); Str " at ( "]
         ++ concat (map (fun v => [Dbl v; Str " "]) parameters_at_mode)
         ++ [Str ")"]) ;;
      (* minus sign to convert to posterior *)
      ret (parameters_at_mode, XD.neg mode).

(** [proposal_covariance]: the matrix is a vector of [npar * npar] entries,
    entry [(i, j)] at position [i + npar * j]. *)
Fixpoint fill_diagonal (self : LogPosterior) (scale_reduction : R) (scale_nuisance : bool)
    (npar : nat) (defs : list ParameterDescription) (par : nat) (covariance : list R)
  : outcome (list R) :=
  match defs with
  | [] => Returns covariance
  | def :: defs' =>
      match log_prior_named self (parameter def) with
      | None => Undefined
      | Some prior =>
          let covariance := <[(par + npar * par)%nat := variance prior]> covariance in
          (* rescale variance of scan parameters with a configurable value, in order
             to avoid drawing too many samples outside the allowed range. *)
          let covariance :=
            if negb (nuisance def) || scale_nuisance
            then <[(par + npar * par)%nat :=
                     (covariance !!! (par + npar * par)%nat) / power_of_2 scale_reduction]>
                   covariance
            else covariance in
          fill_diagonal self scale_reduction scale_nuisance npar defs' (S par) covariance
      end
  end.

Definition proposal_covariance (log_posterior : LogPosterior) (scale_reduction : R)
    (scale_nuisance : bool) : outcome (list R) :=
  let npar := length (parameter_descriptions log_posterior) in
  (* zero off-diagonal *)
  let covariance := replicate (npar * npar) 0 in
  (* prior variance on the diagonal *)
  fill_diagonal log_posterior scale_reduction scale_nuisance npar
    (parameter_descriptions log_posterior) 0%nat covariance.

End PosteriorCalls.

(** ** Posteriors built by adding priors *)

Section Built.
Context `{GslCdf} `{GslLinalg} `{Declarations}.

(** The names a prior contributes, in order. *)
Definition names_of (prior : LogPrior) : list string :=
  map parameter (LogPrior_descriptions prior).

(** The invariant of the registry: the descriptions are, in add-order, those
    of the owned priors, no name occurs twice, and the name set holds exactly
    the described names. *)
Record registry_consistent (self : LogPosterior) : Prop :=
  { owned_constructed : Forall constructed (_priors self);
    descriptions_of_priors :
      map parameter (_parameter_descriptions self) = concat (map names_of (_priors self));
    names_distinct : NoDup (map parameter (_parameter_descriptions self));
    names_registered :
      _parameter_names self = list_to_set (map parameter (_parameter_descriptions self)) }.

(** A posterior built by adding priors: a new posterior, then calls of
    [add] that returned [true], possibly rejected calls that registered
    nothing (as every rejected call for a prior with one parameter), and
    clones of such posteriors. *)
Inductive built : LogPosterior -> Prop :=
| built_new log_likelihood : built (LogPosterior_new log_likelihood)
| built_add self prior nuisance self' :
    built self -> constructed prior ->
    add self prior nuisance = Returns (true, self') ->
    built self'
| built_rejected self prior nuisance self' :
    built self ->
    add self prior nuisance = Returns (false, self') ->
    _parameter_descriptions self' = _parameter_descriptions self ->
    built self'
| built_clone self result :
    built self -> private_clone self = Returns result -> built result.

(** The part of the invariant that every call keeps. *)
Definition names_consistent (self : LogPosterior) : Prop :=
  NoDup (map parameter (_parameter_descriptions self)) /\
  _parameter_names self = list_to_set (map parameter (_parameter_descriptions self)).

(** Every posterior the constructor, [add] and [clone] can produce,
    whatever [add] returned. *)
Inductive reachable : LogPosterior -> Prop :=
| reachable_new log_likelihood : reachable (LogPosterior_new log_likelihood)
| reachable_add self prior nuisance result self' :
    reachable self ->
    add self prior nuisance = Returns (result, self') ->
    reachable self'
| reachable_clone self result :
    reachable self -> private_clone self = Returns result -> reachable result.

End Built.

(** ** Vocabulary of the statements *)

Section Vocabulary.
Context `{Hdf5} `{PriorVariance}.
Local Open Scope R_scope.

(** The entry the loop leaves on the diagonal for [def] and its prior. *)
Definition diagonal_entry (scale_reduction : R) (scale_nuisance : bool)
    (def : ParameterDescription) (prior : LogPrior) : R :=
  if nuisance def && negb scale_nuisance
  then variance prior
  else variance prior / power_of_2 scale_reduction.

(** The condition under which [goodness_of_fit] throws at a component. *)
Definition out_of_bounds (desc : ParameterDescription) (value : R) : Prop :=
  value < min desc \/ value > max desc.

Definition out_of_bounds_error (desc : ParameterDescription) (value : R) : Exception :=
  InternalError
    [Str "LogPosterior::goodness_of_fit: parameter "; Str (parameter desc);
     Str " out of bounds ["; Dbl (min desc); Str ", "; Dbl (max desc); Str "]: ";
     Dbl value].

(** The store after the listed parameters were set, first to last. *)
Definition set_all (assignments : list (ParameterDescription * R)) (p : Parameters)
  : Parameters :=
  foldl (fun p a => Parameter_set (parameter (fst a)) (snd a) p) p assignments.

Definition with_parameters (w : World) (p : Parameters) : World :=
  {| parameters := p; log := log w; disk := disk w |}.

Definition with_log (w : World) (messages : list LogMessage) : World :=
  {| parameters := parameters w; log := log w ++ messages; disk := disk w |}.

Definition with_disk (w : World) (d : hdf5_disk) : World :=
  {| parameters := parameters w; log := log w; disk := d |}.

(** A message of [goodness_of_fit]. *)
Definition gof_message (level : LogLevel) (message : text) : LogMessage :=
  {| log_context := "log_posterior.goodness_of_fit"; log_level := level;
     log_text := message |}.

(** The significances of all blocks of all constraints, in order, with the
    name of the constraint. *)
Definition significances_at (llh : LogLikelihood) (p : Parameters) : list (string * R) :=
  concat (map (fun c => map (fun b => (constraint_name c, significance b p)) (blocks c))
              (constraints llh)).

Definition significance_messages (llh : LogLikelihood) (p : Parameters) : list LogMessage :=
  map (fun s => gof_message ll_informational
                  [Str (fst s); Str ": "; Dbl (snd s); Str " sigma"])
      (significances_at llh p).

Definition total_significance_squared_at (llh : LogLikelihood) (p : Parameters) : R :=
  foldl (fun total s => total + power_of_2 (snd s)) 0 (significances_at llh p).

Definition observable_messages (llh : LogLikelihood) (p : Parameters) : list LogMessage :=
  map (fun o => gof_message ll_informational [Str (fst o); Str " = "; Dbl (snd o p)])
      (observable_cache llh).

(** The HDF5 operations on an open file return. *)
Definition hdf5_returns : Prop :=
  (forall f name d, exists data_set d',
      hdf5_create_data_set f name d = (Returns data_set, d')) /\
  (forall data_set r d, exists d', hdf5_write data_set r d = (Returns tt, d')) /\
  (forall data_set name d, exists a d',
      hdf5_create_attribute data_set name d = (Returns a, d')) /\
  (forall a v d, exists d', hdf5_assign a v d = (Returns tt, d')).

End Vocabulary.

(** ** Instances of the interfaces used in examples *)

Module Example.
Local Open Scope R_scope.

(** A step function in place of the Gaussian distribution function. *)
Definition cdf : GslCdf :=
  {| gsl_cdf_gaussian_P := fun x sigma => if bool_decide (x < 0) then 0 else 1;
     gsl_cdf_chisq_Q := fun x nu => if bool_decide (x <= 0) then 1 else 0;
     gsl_cdf_chisq_Qinv := fun Q nu => 1 - Q |}.

(** Linear algebra for identity covariance matrices, the only ones the
    examples use: the identity is its own Cholesky factor and its own
    inverse, and the logarithm of its determinant is 0. *)
Definition linalg : GslLinalg :=
  {| gsl_linalg_LU_lndet := fun m => 0;
     GSL_LINALG_CHOLESKY_DECOMP := fun m => Some m;
     gsl_linalg_cholesky_invert := fun m => Some m |}.

Definition identity_2 : gsl_matrix :=
  {| size1 := 2; size2 := 2; rows := [[1; 0]; [0; 1]] |}.

Definition declarations : Declarations :=
  {| add_nuisance_default := false; EOS_GITHEAD := "0000000" |}.

(** A disk that keeps nothing and never fails. *)
Definition hdf5 : Hdf5 :=
  {| hdf5_disk := unit;
     hdf5_File := string;
     hdf5_DataSet := string;
     hdf5_Attribute := string;
     hdf5_File_Create := fun name d => (Returns name, d);
     hdf5_create_data_set := fun f name d => (Returns name, d);
     hdf5_write := fun ds r d => (Returns tt, d);
     hdf5_create_attribute := fun ds name d => (Returns name, d);
     hdf5_assign := fun a v d => (Returns tt, d) |}.

(** A minimiser that evaluates the starting point, then in each step the
    point halfway to the origin, and keeps the better of the two. *)
Definition multimin : GslMultimin :=
  {| gsl_multimin_fminimizer := gsl_vector * xdouble;
     gsl_multimin_fminimizer_set := fun n x ss => gsl_f x (fun v => gsl_done (x, v));
     gsl_multimin_fminimizer_iterate := fun m =>
       let y := map (fun c => c / 2) (fst m) in
       gsl_f y (fun v => gsl_done (0%Z, if XD.ge v (snd m) then m else (y, v)));
     gsl_multimin_fminimizer_size := fun m => foldr (fun c s => Rabs c + s) 0 (fst m);
     gsl_multimin_test_size := fun size tolerance =>
       if bool_decide (size < tolerance) then GSL_SUCCESS else GSL_CONTINUE;
     minim_fval := snd;
     minim_x := fst |}.

(** A likelihood without observations that is constant. *)
Definition likelihood : LogLikelihood :=
  {| llh_call := fun _ => Finite 0;
     number_of_observations := 0;
     bootstrap_p_value := fun _ _ => (1, 0);
     constraints := [];
     observable_cache := [] |}.

Definition world : @World hdf5 :=
  @Build_World hdf5 ∅ [] tt.

Definition unit_interval : ParameterRange := {| range_min := 0; range_max := 1 |}.

(** What [LogPrior::Flat (parameters, name, [0, 1])] returns. *)
Definition flat (name : string) : LogPrior :=
  IsFlat {| Flat._name := name; Flat._range := unit_interval;
            Flat._value := ln (1 / (1 - 0));
            Flat._parameter_descriptions_front :=
              {| parameter := name; min := 0; max := 1; nuisance := false |} |}.

(** What [LogPrior::Scale (parameters, name, range, 1.0, 2.0)] returns. *)
Definition scale (name : string) : LogPrior :=
  IsScale (Scale.make name unit_interval 1 2).

(** The prior of ["a"] has variance 4, every other prior variance 9. *)
Definition prior_variance : PriorVariance :=
  {| variance := fun prior =>
       match map parameter (LogPrior_descriptions prior) with
       | ["a"] => 4
       | _ => 9
       end |}.

(** The posterior after [add (flat "a", true)] and [add (flat "b", false)]. *)
Definition two_parameters : LogPosterior :=
  {| _log_likelihood := likelihood;
     _priors := [flat "a"; flat "b"];
     _parameter_descriptions :=
       [{| parameter := "a"; min := 0; max := 1; nuisance := true |};
        {| parameter := "b"; min := 0; max := 1; nuisance := false |}];
     _parameter_names := {["b"]} ∪ ({["a"]} ∪ ∅);
     _informative_priors := 0 |}.

End Example.

(** ** Sampling from the priors *)

(** The inverse distribution functions of GSL that [sample] calls. *)
Class GslCdfInverse : Type :=
  { (** [gsl_cdf_gaussian_Pinv (P, sigma)] *)
    gsl_cdf_gaussian_Pinv : R -> R -> R;
    gsl_cdf_ugaussian_Pinv : R -> R }.

(** [sample ()] draws with [evaluate_generator ()] of its parameter and sets
    the parameter.  The draws are an argument: [u i] is what the generator of
    the prior's [i]-th parameter returns.  [std::pow (lambda, y)] is
    [Rpower lambda y], its value for a positive base. *)
Section Sampling.
Context `{GslCdf} `{GslLinalg} `{GslCdfInverse}.
Local Open Scope R_scope.

Definition Flat_sample (p : Flat.t) (u : R) (parameters : Parameters) : Parameters :=
  Parameter_set (Flat._name p)
    (u * (range_max (Flat._range p) - range_min (Flat._range p))
     + range_min (Flat._range p))
    parameters.

Definition CurtailedGauss_sample (p : CurtailedGauss.t) (u : R) (parameters : Parameters)
  : Parameters :=
  (* find out if sample in upper or lower part *)
  let p' := u in
  if bool_decide (p' < CurtailedGauss._prob_lower p)
  then Parameter_set (CurtailedGauss._name p)
         (gsl_cdf_gaussian_Pinv
            ((p' - CurtailedGauss._prob_lower p) / CurtailedGauss._c_b p + 0.5)
            (CurtailedGauss._sigma_lower p)
          + CurtailedGauss._central p)
         parameters
  else Parameter_set (CurtailedGauss._name p)
         (gsl_cdf_gaussian_Pinv
            ((p' - CurtailedGauss._prob_lower p) / CurtailedGauss._c_a p + 0.5)
            (CurtailedGauss._sigma_upper p)
          + CurtailedGauss._central p)
         parameters.

Definition Scale_sample (p : Scale.t) (u : R) (parameters : Parameters) : Parameters :=
  (* inverse CDF: x = \mu_0 * \lambda^(2 p - 1) *)
  Parameter_set (Scale._name p)
    (Scale._mu_0 p * Rpower (Scale._lambda p) (2 * u - 1))
    parameters.

Definition MultivariateGaussian_sample (p : MultivariateGaussian.t) (u : nat -> R)
    (parameters : Parameters) : Parameters :=
  let dim := MultivariateGaussian._dim p in
  (* generate standard normals in observables *)
  let measurements := map (fun i => gsl_cdf_ugaussian_Pinv (u i)) (seq 0 dim) in
  (* transform: measurements_2 <- _chol * measurements *)
  let measurements_2 :=
    MultivariateGaussian.gsl_blas_dgemv (MultivariateGaussian._chol p) measurements in
  (* transform: measurements_2 <- measurements_2 + _mean *)
  let measurements_2 := zip_with Rplus measurements_2 (MultivariateGaussian._mean p) in
  (* set parameters *)
  foldl (fun parameters a => Parameter_set (fst a) (snd a) parameters) parameters
        (imap (fun i name => (name, measurements_2 !!! i))
              (take dim (MultivariateGaussian._parameters p))).

(** [sample ()] through a [LogPriorPtr]. *)
Definition LogPrior_sample (prior : LogPrior) (u : nat -> R) (parameters : Parameters)
  : Parameters :=
  match prior with
  | IsFlat p => Flat_sample p (u 0%nat) parameters
  | IsCurtailedGauss p => CurtailedGauss_sample p (u 0%nat) parameters
  | IsScale p => Scale_sample p (u 0%nat) parameters
  | IsMultivariateGaussian p => MultivariateGaussian_sample p u parameters
  end.

End Sampling.

(** ** Further members of [LogPosterior] *)

Section PosteriorAccess.
Context `{GslCdf} `{GslLinalg} `{Hdf5}.
Local Open Scope eos_scope.

(** [nuisance (par_name)] *)
Definition LogPosterior_nuisance (self : LogPosterior) (par_name : string) : outcome bool :=
  match index self par_name with
  | Returns index =>
      if (length (_parameter_descriptions self) <=? index)%nat
      then Returns false
      else
        match _parameter_descriptions self !! index with
        | Some d => Returns (nuisance d)
        | None => Undefined
        end
  | Throws e => Throws e
  | Undefined => Undefined
  end.

(** [operator[] (index)]: past the end of the vector the behaviour is
    undefined. *)
Definition LogPosterior_subscript (self : LogPosterior) (index : nat) : outcome string :=
  match _parameter_descriptions self !! index with
  | Some d => Returns (parameter d)
  | None => Undefined
  end.

(** [log_posterior ()]: the sum of [log_prior ()] and the likelihood; the
    likelihood changes nothing, so the order of the two operands is not
    observable. *)
Definition log_posterior (self : LogPosterior) : M xdouble :=
  lp <- call_log_prior self ;;
  ll <- call_log_likelihood self ;;
  ret (XD.add lp ll).

Definition evaluate (self : LogPosterior) : M xdouble := log_posterior self.

End PosteriorAccess.

(** ** The form factors of [eos/form-factors/parametric-fvdv2018-impl.hh] *)

(** [std::sqrt] is the real square root; the statements keep its arguments
    positive, where both agree. *)

(** The masses a [Process_] declares. *)
Class Process : Type :=
  { mB : R; mP1 : R; mP2 : R; mBst : R }.

Module FvDV2018.
Section WithProcess.
Context `{Process}.
Local Open Scope R_scope.

Definition _calc_z (t t_p t_0 : R) : R :=
  (sqrt (t_p - t) - sqrt (t_p - t_0)) / (sqrt (t_p - t) + sqrt (t_p - t_0)).

Definition _z (t : R) : R :=
  let t_p := power_of_2 (mB + mP1 + mP2) in
  let t_0 := 0 in
  _calc_z t t_p t_0.

Definition _zhat (that : R) : R :=
  let mBst2 := power_of_2 mBst in
  let that_p := power_of_2 (mB + mP2) in
  let that_0 := that_p - sqrt (that_p * (that_p - mBst2)) in
  _calc_z that that_p that_0.

Definition _blaschke (z zh : R) : R :=
  let mBst2 := power_of_2 mBst in
  let zBst2 := _z mBst2 in
  let zhBst2 := _zhat mBst2 in
  let result := 1 in
  let result := result * ((1 - z * zBst2) / (z - zBst2)) in
  let result := result * ((1 - zh * zhBst2) / (zh - zhBst2)) in
  result.

Definition _blaschke_res_qhat2 (z : R) : R :=
  let mBst2 := power_of_2 mBst in
  let that_p := power_of_2 (mB + mP2) in
  let zBst2 := _z mBst2 in
  let result := 4 * (mBst2 - that_p) in
  let result := result * ((1 - z * zBst2) / (z - zBst2)) in
  result.

End WithProcess.
End FvDV2018.

(** ** Vocabulary of the further statements *)

(** The two parabolas of a CurtailedGauss prior over one normalisation
    [norm]: the lower one below [central], the upper one from [central] on. *)
Definition CurtailedGauss_parabolas (norm : R) (p : CurtailedGauss.t) (x : R) : R :=
  let sigma :=
    if bool_decide (x < CurtailedGauss._central p)%R
    then CurtailedGauss._sigma_lower p
    else CurtailedGauss._sigma_upper p in
  (norm - 0.5 * power_of_2 ((x - CurtailedGauss._central p) / sigma))%R.

(** The counter of informative priors after [add] was called with one
    more prior. *)
Definition counted (n : N) (prior : LogPrior) : N :=
  unsigned_add n (if LogPrior_informative prior then 1 else 0).

(** ** Further instances used in examples *)

Module MoreExamples.
Local Open Scope R_scope.

(** Inverse distribution functions that are linear around the median. *)
Definition cdf_inverse : GslCdfInverse :=
  {| gsl_cdf_gaussian_Pinv := fun P sigma => sigma * (P - 0.5);
     gsl_cdf_ugaussian_Pinv := fun P => P - 0.5 |}.

(** GSL on the covariance matrix [[4, 2], [2, 5]]: the matrix that the
    Cholesky decomposition leaves holds the factor and its transpose. *)
Definition covariance_dense : gsl_matrix :=
  {| size1 := 2; size2 := 2; rows := [[4; 2]; [2; 5]] |}.

Definition linalg_dense : GslLinalg :=
  {| gsl_linalg_LU_lndet := fun m => ln 16;
     GSL_LINALG_CHOLESKY_DECOMP := fun m =>
       Some {| size1 := 2; size2 := 2; rows := [[2; 1]; [1; 2]] |};
     gsl_linalg_cholesky_invert := fun m =>
       Some {| size1 := 2; size2 := 2; rows := [[5 / 16; - 1 / 8]; [- 1 / 8; 1 / 4]] |} |}.

(** The posterior after [add (Scale ("x", 1, 2), true)] on a new one. *)
Definition one_scale : LogPosterior :=
  match @add Example.cdf Example.linalg (LogPosterior_new Example.likelihood)
          (Example.scale "x") true with
  | Returns (_, self) => self
  | _ => LogPosterior_new Example.likelihood
  end.

(** [one_scale] after a second [add] of the same prior, which is rejected. *)
Definition scale_twice : LogPosterior :=
  match @add Example.cdf Example.linalg one_scale (Example.scale "x") false with
  | Returns (_, self) => self
  | _ => one_scale
  end.

(** What [LogPrior::MultivariateGaussian] returns for the parameters ["y"]
    and ["x"], mean zero and the identity as covariance. *)
Definition gaussian_yx : LogPrior :=
  match @LogPrior_MultivariateGaussian Example.linalg ["y"; "x"] [0; 0]
          Example.identity_2 with
  | Returns prior => prior
  | _ => Example.scale "y"
  end.

(** The posterior after [add (gaussian_yx, false)] on a new one. *)
Definition one_gaussian : LogPosterior :=
  match @add Example.cdf Example.linalg (LogPosterior_new Example.likelihood)
          gaussian_yx false with
  | Returns (_, self) => self
  | _ => LogPosterior_new Example.likelihood
  end.

(** [one_scale] after [add (gaussian_yx, false)], which is rejected at ["x"]. *)
Definition partly_registered : LogPosterior :=
  match @add Example.cdf Example.linalg one_scale gaussian_yx false with
  | Returns (_, self) => self
  | _ => one_scale
  end.

Definition range_0_4 : ParameterRange := {| range_min := 0; range_max := 4 |}.

(** Masses in GeV, rounded: B, pion, pion, B^*. *)
Definition process : Process :=
  {| mB := 5; mP1 := 1; mP2 := 1; mBst := 5.5 |}.

End MoreExamples.

(** * Properties *)

(** ** Priors *)

Section ScaleProperties.
Local Open Scope R_scope.

Lemma LogPrior_Scale_returns (name : string) (range : ParameterRange) (mu_0 lambda : R) :
  mu_0 > 0 -> lambda > 1 ->
  LogPrior_Scale name range mu_0 lambda = Returns (IsScale (Scale.make name range mu_0 lambda)).
Proof.
  intros Hmu Hlambda. unfold LogPrior_Scale.
  rewrite bool_decide_eq_false_2 by lra.
  rewrite bool_decide_eq_false_2 by lra.
  reflexivity.
Qed.

Lemma Scale_call_in_range (p : Scale.t) (parameters : Parameters) :
  let x := Parameter_evaluate (parameter (Scale._parameter_descriptions_front p)) parameters in
  Scale._min p <= x <= Scale._max p ->
  Scale.call p parameters = Finite (1 / (2 * Scale._ln_lambda p * x)).
Proof.
  intros x [Hlo Hhi]. unfold Scale.call. fold x.
  rewrite bool_decide_eq_false_2 by lra.
  rewrite bool_decide_eq_false_2 by lra.
  reflexivity.
Qed.

Lemma Scale_call_out_of_range (p : Scale.t) (parameters : Parameters) :
  let x := Parameter_evaluate (parameter (Scale._parameter_descriptions_front p)) parameters in
  x < Scale._min p \/ Scale._max p < x ->
  Scale.call p parameters = NegInf.
Proof.
  intros x Hout. unfold Scale.call. fold x.
  destruct Hout as [Hlo | Hhi].
  - rewrite bool_decide_eq_true_2 by exact Hlo. reflexivity.
  - rewrite (bool_decide_eq_true_2 (Scale._max p < x)) by exact Hhi.
    rewrite orb_true_r. reflexivity.
Qed.

(** C3: a Scale prior made with [mu_0 > 0] and [lambda > 1] describes its
    parameter with the range [[mu_0 / lambda, mu_0 * lambda]]; its value is
    [1 / (2 ln(lambda) x)] when the current value [x] of the parameter is in
    that range, and minus infinity when [x] is below or above it. *)
Theorem Scale_evaluate (name : string) (range : ParameterRange) (mu_0 lambda : R) :
  mu_0 > 0 -> lambda > 1 ->
  exists prior,
    LogPrior_Scale name range mu_0 lambda = Returns prior /\
    LogPrior_descriptions prior =
      [{| parameter := name; min := mu_0 / lambda; max := mu_0 * lambda;
          nuisance := false |}] /\
    forall parameters : Parameters,
      let x := Parameter_evaluate name parameters in
      (mu_0 / lambda <= x <= mu_0 * lambda ->
       LogPrior_call prior parameters = Finite (1 / (2 * ln lambda * x))) /\
      (x < mu_0 / lambda \/ mu_0 * lambda < x ->
       LogPrior_call prior parameters = NegInf).
Proof.
  intros Hmu Hlambda.
  exists (IsScale (Scale.make name range mu_0 lambda)).
  split; [apply LogPrior_Scale_returns; assumption |].
  split; [reflexivity |].
  intros parameters x. split; intros Hx.
  - apply (Scale_call_in_range (Scale.make name range mu_0 lambda) parameters Hx).
  - apply (Scale_call_out_of_range (Scale.make name range mu_0 lambda) parameters Hx).
Qed.

(** The case [mu_0 = 1.0], [lambda = 2.0]: the range is [[0.5, 2.0]], the
    value at [x = 0.1] is minus infinity and at [x = 1.0] it is
    [1 / (2 ln 2 * 1.0)]. *)
Lemma Scale_evaluate_witness :
  exists prior,
    LogPrior_Scale "mu" {| range_min := 0; range_max := 10 |} 1 2 = Returns prior /\
    map (fun d => (min d, max d)) (LogPrior_descriptions prior) = [(0.5, 2)] /\
    LogPrior_call prior {["mu" := 0.1]} = NegInf /\
    LogPrior_call prior {["mu" := 1]} = Finite (1 / (2 * ln 2 * 1)).
Proof.
  destruct (Scale_evaluate "mu" {| range_min := 0; range_max := 10 |} 1 2)
    as (prior & Hmake & Hdescs & Hcall); [lra | lra |].
  exists prior. split; [exact Hmake |]. split.
  - rewrite Hdescs. simpl. f_equal. f_equal; lra.
  - split.
    + apply (Hcall {["mu" := 0.1]}). left.
      unfold Parameter_evaluate. rewrite lookup_total_singleton_eq. lra.
    + destruct (Hcall {["mu" := 1]}) as [Hin _].
      unfold Parameter_evaluate in Hin. rewrite lookup_total_singleton_eq in Hin.
      apply Hin. lra.
Defined.

End ScaleProperties.

Section CurtailedGaussProperties.
Context `{GslCdf}.
Local Open Scope R_scope.

Lemma sqrt_2_PI_pos : 0 < sqrt (2 * PI).
Proof. apply sqrt_lt_R0. pose proof PI_RGT_0. lra. Qed.

Lemma LogPrior_CurtailedGauss_returns (name : string) (range : ParameterRange)
    (lower central upper : R) :
  range_min range < range_max range -> lower < central -> central < upper ->
  exists p,
    LogPrior_CurtailedGauss name range lower central upper = Returns (IsCurtailedGauss p) /\
    CurtailedGauss.make name range lower central upper = Returns p.
Proof.
  intros Hrange Hlower Hupper.
  unfold LogPrior_CurtailedGauss, CurtailedGauss.make.
  rewrite (bool_decide_eq_false_2 (lower >= central)) by lra.
  rewrite (bool_decide_eq_false_2 (upper <= central)) by lra.
  rewrite (bool_decide_eq_false_2 (range_min range >= range_max range)) by lra.
  eexists. split; reflexivity.
Qed.

Lemma CurtailedGauss_make_fields (name : string) (range : ParameterRange)
    (lower central upper : R) (p : CurtailedGauss.t) :
  CurtailedGauss.make name range lower central upper = Returns p ->
  parameter (CurtailedGauss._parameter_descriptions_front p) = name /\
  CurtailedGauss._central p = central /\
  CurtailedGauss._sigma_lower p = central - lower /\
  CurtailedGauss._sigma_upper p = upper - central /\
  CurtailedGauss._c_b p
    = CurtailedGauss._sigma_lower p / CurtailedGauss._sigma_upper p * CurtailedGauss._c_a p /\
  CurtailedGauss._norm_lower p
    = XD.log (CurtailedGauss._c_b p / sqrt (2 * PI) / CurtailedGauss._sigma_lower p) /\
  CurtailedGauss._norm_upper p
    = XD.log (CurtailedGauss._c_a p / sqrt (2 * PI) / CurtailedGauss._sigma_upper p).
Proof.
  unfold CurtailedGauss.make.
  destruct (bool_decide (range_min range >= range_max range)); [discriminate |].
  intros [= <-]. simpl. repeat split; reflexivity.
Qed.


Lemma continuity_pt_ball (f : R -> R) (x : R) :
  continuity_pt f x ->
  forall eps, eps > 0 ->
  exists delta, delta > 0 /\ forall y, Rabs (y - x) < delta -> Rabs (f y - f x) < eps.
Proof.
  intros Hf eps Heps. destruct (Hf eps Heps) as (delta & Hdelta & Hlim).
  exists delta. split; [exact Hdelta |]. intros y Hy.
  destruct (Req_dec x y) as [-> | Hne].
  - replace (f y - f y) with 0 by ring. rewrite Rabs_R0. lra.
  - apply Hlim. split; [split; [exact I | exact Hne] | exact Hy].
Qed.

End CurtailedGaussProperties.

(** ** The registry of a posterior *)

Section RegistryProperties.
Context `{GslCdf} `{GslLinalg} `{Declarations}.

(** Cloning a prior that a factory returned runs the constructor on the same
    arguments: it returns, and returns an equal prior. *)
Lemma clone_constructed (prior : LogPrior) :
  constructed prior -> LogPrior_clone prior = Returns prior.
Proof.
  intros [name range p Hp | name range lower central upper p Hp
         | name range mu_0 lambda p Hp | names mean covariance p Hp].
  - unfold LogPrior_Flat, Flat.make in Hp.
    destruct (bool_decide (range_min range >= range_max range)%R) eqn:Hrange;
      [discriminate |].
    injection Hp as <-. simpl. unfold Flat.clone, Flat.make. simpl.
    rewrite Hrange. reflexivity.
  - unfold LogPrior_CurtailedGauss in Hp.
    destruct (bool_decide (lower >= central)%R); [discriminate |].
    destruct (bool_decide (upper <= central)%R); [discriminate |].
    unfold CurtailedGauss.make in Hp.
    destruct (bool_decide (range_min range >= range_max range)%R) eqn:Hrange;
      [discriminate |].
    injection Hp as <-. simpl. unfold CurtailedGauss.clone, CurtailedGauss.make. simpl.
    rewrite Hrange. reflexivity.
  - unfold LogPrior_Scale in Hp.
    destruct (bool_decide (mu_0 <= 0)%R); [discriminate |].
    destruct (bool_decide (lambda <= 1)%R); [discriminate |].
    injection Hp as <-. reflexivity.
  - unfold LogPrior_MultivariateGaussian, MultivariateGaussian.make in Hp.
    destruct (negb (size1 covariance =? size2 covariance)) eqn:Hsquare; [discriminate |].
    destruct (negb (size1 covariance =? length mean)) eqn:Hmean; [discriminate |].
    destruct (negb (length names =? length mean)) eqn:Hdim; [discriminate |].
    destruct (GSL_LINALG_CHOLESKY_DECOMP covariance) as [chol |] eqn:Hchol;
      [| discriminate].
    destruct (gsl_linalg_cholesky_invert chol) as [inv |] eqn:Hinv; [| discriminate].
    injection Hp as <-. simpl.
    unfold MultivariateGaussian.clone, MultivariateGaussian.make. simpl.
    rewrite Hsquare, Hmean, Hdim, Hchol, Hinv. reflexivity.
Qed.

(** What the loop of [add] leaves behind: it registered the first [k]
    descriptions, whose names were new and distinct, and either went through
    all of them or stopped at a name that was already there. *)
Lemma add_descriptions_spec (ds : list ParameterDescription) (nuisance : bool) :
  forall (names : gset string) (registered : list ParameterDescription)
         (inserted : bool) names' registered',
    add_descriptions ds nuisance names registered = (inserted, names', registered') ->
    exists k,
      registered' = registered ++ map (fun d => with_nuisance d nuisance) (take k ds) /\
      names' = list_to_set (map parameter (take k ds)) ∪ names /\
      NoDup (map parameter (take k ds)) /\
      (forall x, x ∈ map parameter (take k ds) -> x ∉ names) /\
      (if inserted then k = length ds
       else exists d, ds !! k = Some d /\ parameter d ∈ names').
Proof.
  induction ds as [| d ds IH]; intros names registered inserted names' registered' Hadd.
  - simpl in Hadd. injection Hadd as <- <- <-. exists 0.
    simpl. rewrite app_nil_r. repeat split.
    + set_solver.
    + constructor.
    + intros x Hx. inversion Hx.
  - simpl in Hadd. destruct (bool_decide (parameter d ∈ names)) eqn:Hd.
    + injection Hadd as <- <- <-. apply bool_decide_eq_true_1 in Hd. exists 0.
      simpl. rewrite app_nil_r. repeat split.
      * set_solver.
      * constructor.
      * intros x Hx. inversion Hx.
      * exists d. split; [reflexivity | exact Hd].
    + apply bool_decide_eq_false_1 in Hd.
      destruct (IH _ _ _ _ _ Hadd) as (k & Hreg & Hnames & Hnodup & Hfresh & Hend).
      exists (S k). simpl. repeat split.
      * rewrite Hreg, <- app_assoc. reflexivity.
      * rewrite Hnames. set_solver.
      * constructor; [| exact Hnodup].
        intros Hin. apply (Hfresh _ Hin). set_solver.
      * intros x Hx. apply elem_of_cons in Hx as [-> | Hx]; [exact Hd |].
        intros Hin. apply (Hfresh _ Hx). set_solver.
      * destruct inserted; [congruence | exact Hend].
Qed.

(** The loop goes through when every name is new and no name repeats. *)
Lemma add_descriptions_fresh (ds : list ParameterDescription) (nuisance : bool) :
  forall (names : gset string) (registered : list ParameterDescription),
    NoDup (map parameter ds) ->
    (forall x, x ∈ map parameter ds -> x ∉ names) ->
    add_descriptions ds nuisance names registered
    = (true, list_to_set (map parameter ds) ∪ names,
       registered ++ map (fun d => with_nuisance d nuisance) ds).
Proof.
  induction ds as [| d ds IH]; intros names registered Hnodup Hfresh.
  - simpl. rewrite app_nil_r. f_equal. f_equal. set_solver.
  - simpl in *. apply NoDup_cons in Hnodup as [Hd Hnodup].
    rewrite bool_decide_eq_false_2 by (apply Hfresh; left).
    rewrite IH.
    + rewrite <- app_assoc. simpl. f_equal. f_equal. set_solver.
    + exact Hnodup.
    + intros x Hx. specialize (Hfresh x (list_elem_of_further _ _ _ Hx)). set_solver.
Qed.

(** A rejected prior with one parameter leaves descriptions, priors and
    names as they were. *)
Lemma add_registered_name (self : LogPosterior) (prior : LogPrior) (nuisance : bool)
    (d : ParameterDescription) :
  constructed prior ->
  LogPrior_descriptions prior = [d] ->
  parameter d ∈ _parameter_names self ->
  exists self',
    add self prior nuisance = Returns (false, self') /\
    _parameter_descriptions self' = _parameter_descriptions self /\
    _priors self' = _priors self /\
    _parameter_names self' = _parameter_names self.
Proof.
  intros Hprior Hd Hin. unfold add.
  rewrite (clone_constructed _ Hprior), Hd. simpl.
  rewrite bool_decide_eq_true_2 by exact Hin.
  eexists. split; [reflexivity |]. simpl. repeat split.
Qed.

Lemma parameter_with_nuisance (nuisance : bool) (ds : list ParameterDescription) :
  map parameter (map (fun d => with_nuisance d nuisance) ds) = map parameter ds.
Proof. rewrite map_map. reflexivity. Qed.

Lemma LogPosterior_new_consistent (log_likelihood : LogLikelihood) :
  registry_consistent (LogPosterior_new log_likelihood).
Proof.
  split; simpl.
  - constructor.
  - reflexivity.
  - constructor.
  - reflexivity.
Qed.

(** An accepted [add] appends the prior's descriptions, with the caller's
    nuisance flag, and the prior; the invariant is kept. *)
Lemma add_accepted (self : LogPosterior) (prior : LogPrior) (nuisance : bool)
    (self' : LogPosterior) :
  registry_consistent self ->
  constructed prior ->
  add self prior nuisance = Returns (true, self') ->
  registry_consistent self' /\
  _parameter_descriptions self'
    = _parameter_descriptions self
      ++ map (fun d => with_nuisance d nuisance) (LogPrior_descriptions prior) /\
  _priors self' = _priors self ++ [prior] /\
  _parameter_names self' = list_to_set (names_of prior) ∪ _parameter_names self /\
  _log_likelihood self' = _log_likelihood self.
Proof.
  intros [Hcons Hdescs Hnodup Hnames] Hprior Hadd. unfold add in Hadd.
  rewrite (clone_constructed _ Hprior) in Hadd.
  destruct (add_descriptions (LogPrior_descriptions prior) nuisance
              (_parameter_names self) (_parameter_descriptions self))
    as [[inserted names'] registered'] eqn:Hloop.
  destruct inserted; [| discriminate].
  injection Hadd as <-.
  destruct (add_descriptions_spec _ _ _ _ _ _ _ Hloop)
    as (k & Hreg & Hnames' & Hnodup' & Hfresh & ->).
  rewrite firstn_all in Hreg, Hnames', Hnodup', Hfresh.
  split; [split |]; simpl.
  - apply Forall_app. split; [exact Hcons | constructor; [exact Hprior | constructor]].
  - rewrite Hreg, map_app, parameter_with_nuisance, Hdescs, map_app, concat_app.
    simpl. rewrite app_nil_r. reflexivity.
  - rewrite Hreg, map_app, parameter_with_nuisance. apply NoDup_app.
    split; [exact Hnodup |]. split; [| exact Hnodup'].
    intros x Hx Hx'. apply (Hfresh x Hx'). rewrite Hnames. set_solver.
  - rewrite Hnames', Hreg, map_app, parameter_with_nuisance, list_to_set_app_L, Hnames.
    set_solver.
  - rewrite Hreg, Hnames'. repeat split.
Qed.

(** [add] accepts a prior whose names are new and distinct. *)
Lemma add_fresh (self : LogPosterior) (prior : LogPrior) (nuisance : bool) :
  registry_consistent self ->
  constructed prior ->
  NoDup (map parameter (_parameter_descriptions self) ++ names_of prior) ->
  exists self', add self prior nuisance = Returns (true, self').
Proof.
  intros Hself Hprior Hnodup. unfold add.
  rewrite (clone_constructed _ Hprior).
  apply NoDup_app in Hnodup as (_ & Hfresh & Hnodup).
  rewrite add_descriptions_fresh.
  - eexists. reflexivity.
  - exact Hnodup.
  - intros x Hx Hin. rewrite (names_registered _ Hself) in Hin.
    apply elem_of_list_to_set in Hin. exact (Hfresh x Hin Hx).
Qed.

(** A rejected [add] of a prior with one parameter: the name was there, and
    only the counter of informative priors may have changed. *)
Lemma add_rejected_single (self : LogPosterior) (prior : LogPrior) (nuisance : bool)
    (d : ParameterDescription) (self' : LogPosterior) :
  constructed prior ->
  LogPrior_descriptions prior = [d] ->
  add self prior nuisance = Returns (false, self') ->
  parameter d ∈ _parameter_names self /\
  _parameter_descriptions self' = _parameter_descriptions self /\
  _priors self' = _priors self /\
  _parameter_names self' = _parameter_names self /\
  _log_likelihood self' = _log_likelihood self.
Proof.
  intros Hprior Hd Hadd. unfold add in Hadd.
  rewrite (clone_constructed _ Hprior), Hd in Hadd. simpl in Hadd.
  destruct (bool_decide (parameter d ∈ _parameter_names self)) eqn:Hin;
    [| discriminate].
  apply bool_decide_eq_true_1 in Hin. injection Hadd as <-. simpl. repeat split.
  exact Hin.
Qed.

(** A rejected [add] that left the description list alone left the priors
    and the names alone as well. *)
Lemma add_rejected_nothing (self : LogPosterior) (prior : LogPrior) (nuisance : bool)
    (self' : LogPosterior) :
  add self prior nuisance = Returns (false, self') ->
  _parameter_descriptions self' = _parameter_descriptions self ->
  _priors self' = _priors self /\ _parameter_names self' = _parameter_names self.
Proof.
  unfold add. destruct (LogPrior_clone prior) as [prior_clone | e |]; try discriminate.
  destruct (add_descriptions _ _ _ _) as [[inserted names'] registered'] eqn:Hloop.
  destruct inserted; [discriminate |]. intros [= <-]. simpl. intros Hsame.
  split; [reflexivity |].
  destruct (add_descriptions_spec _ _ _ _ _ _ _ Hloop) as (k & Hreg & Hnames & _).
  rewrite Hsame in Hreg.
  rewrite <- (app_nil_r (_parameter_descriptions self)) in Hreg at 1.
  apply app_inv_head in Hreg. symmetry in Hreg. apply map_eq_nil in Hreg.
  rewrite Hreg in Hnames. rewrite Hnames. simpl. set_solver.
Qed.

Lemma registry_consistent_same (self self' : LogPosterior) :
  registry_consistent self ->
  _parameter_descriptions self' = _parameter_descriptions self ->
  _priors self' = _priors self ->
  _parameter_names self' = _parameter_names self ->
  registry_consistent self'.
Proof.
  intros [Hcons Hdescs Hnodup Hnames] Hd Hp Hn.
  split; rewrite ?Hd, ?Hp, ?Hn; assumption.
Qed.

(** Whatever [add] returns, names stay distinct and the name set stays the
    set of described names. *)
Lemma add_names_consistent (self : LogPosterior) (prior : LogPrior) (nuisance : bool)
    (result : bool) (self' : LogPosterior) :
  names_consistent self ->
  add self prior nuisance = Returns (result, self') ->
  names_consistent self'.
Proof.
  intros [Hnodup Hnames] Hadd. unfold add in Hadd.
  destruct (LogPrior_clone prior) as [prior_clone | e |]; try discriminate.
  destruct (add_descriptions (LogPrior_descriptions prior) nuisance
              (_parameter_names self) (_parameter_descriptions self))
    as [[inserted names'] registered'] eqn:Hloop.
  destruct (add_descriptions_spec _ _ _ _ _ _ _ Hloop)
    as (k & Hreg & Hnames' & Hnodup' & Hfresh & _).
  assert (Hgoal : NoDup (map parameter registered') /\
                  names' = list_to_set (map parameter registered')).
  { rewrite Hreg, map_app, parameter_with_nuisance. split.
    - apply NoDup_app. split; [exact Hnodup |]. split; [| exact Hnodup'].
      intros x Hx Hx'. apply (Hfresh x Hx'). rewrite Hnames. set_solver.
    - rewrite Hnames', list_to_set_app_L, Hnames. set_solver. }
  destruct inserted; injection Hadd as _ <-; exact Hgoal.
Qed.

Lemma add_prior_clones_names_consistent (priors : list LogPrior) :
  forall result result' : LogPosterior,
    names_consistent result ->
    add_prior_clones priors result = Returns result' ->
    names_consistent result'.
Proof.
  induction priors as [| prior priors IH]; intros result result' Hresult Hclones;
    simpl in Hclones.
  - injection Hclones as <-. exact Hresult.
  - destruct (LogPrior_clone prior) as [c | e |]; try discriminate.
    destruct (add result c add_nuisance_default) as [[accepted result1] | e |] eqn:Hadd;
      try discriminate.
    apply (IH result1 result' (add_names_consistent _ _ _ _ _ Hresult Hadd) Hclones).
Qed.

(** The copy loop writes ranges and flags, never names. *)
Lemma copy_ranges_names (original : list ParameterDescription) :
  forall result copied : list ParameterDescription,
    copy_ranges original result = Returns copied ->
    map parameter copied = map parameter result.
Proof.
  induction original as [| i original IH]; intros result copied Hcopy.
  - destruct result; injection Hcopy as <-; reflexivity.
  - destruct result as [| j result]; [discriminate |]. simpl in Hcopy.
    destruct (copy_ranges original result) as [copied' | e |] eqn:Hrest; try discriminate.
    injection Hcopy as <-. simpl. f_equal. apply (IH _ _ Hrest).
Qed.

Lemma new_names_consistent (log_likelihood : LogLikelihood) :
  names_consistent (LogPosterior_new log_likelihood).
Proof. split; [constructor | reflexivity]. Qed.

Lemma private_clone_names_consistent (self result : LogPosterior) :
  private_clone self = Returns result -> names_consistent result.
Proof.
  unfold private_clone. intros Hclone.
  destruct (add_prior_clones (_priors self) _) as [added | e |] eqn:Hadded;
    try discriminate.
  destruct (copy_ranges _ _) as [copied | e |] eqn:Hcopied; try discriminate.
  injection Hclone as <-.
  assert (Hadded' : names_consistent added).
  { apply (add_prior_clones_names_consistent _ _ _ (new_names_consistent _) Hadded). }
  destruct Hadded' as [Hnodup Hnames].
  unfold names_consistent. simpl. rewrite (copy_ranges_names _ _ _ Hcopied).
  split; assumption.
Qed.

(** Every reachable posterior describes each registered name once. *)
Lemma reachable_names_consistent (self : LogPosterior) :
  reachable self -> names_consistent self.
Proof.
  induction 1 as [llh | self prior nuisance result self' _ IH Hadd
                 | self result _ _ Hclone].
  - apply new_names_consistent.
  - apply (add_names_consistent _ _ _ _ _ IH Hadd).
  - apply (private_clone_names_consistent _ _ Hclone).
Qed.

End RegistryProperties.

Section AddProperties.
Context `{GslCdf} `{GslLinalg} `{Declarations}.

Lemma add_informative_priors (self : LogPosterior) (prior : LogPrior) (nuisance : bool)
    (result : bool) (self' : LogPosterior) :
  add self prior nuisance = Returns (result, self') ->
  informative_priors self'
  = unsigned_add (informative_priors self) (if LogPrior_informative prior then 1 else 0).
Proof.
  unfold add. destruct (LogPrior_clone prior) as [prior_clone | e |]; try discriminate.
  destruct (add_descriptions _ _ _ _) as [[inserted names] registered].
  destruct inserted; intros [= _ <-]; reflexivity.
Qed.

Lemma add_rejected_priors (self : LogPosterior) (prior : LogPrior) (nuisance : bool)
    (self' : LogPosterior) :
  add self prior nuisance = Returns (false, self') -> _priors self' = _priors self.
Proof.
  unfold add. destruct (LogPrior_clone prior) as [prior_clone | e |]; try discriminate.
  destruct (add_descriptions _ _ _ _) as [[inserted names] registered].
  destruct inserted; [discriminate |]. intros [= <-]. reflexivity.
Qed.

Lemma no_description (x : string) (ds : list ParameterDescription) :
  x ∉ map parameter ds -> filter (fun d => parameter d = x) ds = [].
Proof.
  induction ds as [| d ds IH]; intros Hout; [reflexivity |].
  rewrite filter_cons. destruct (decide (parameter d = x)) as [Heq | Hne].
  - exfalso. apply Hout. simpl. rewrite Heq. left.
  - apply IH. intros Hin. apply Hout. simpl. right. exact Hin.
Qed.

Lemma one_description (x : string) (ds : list ParameterDescription) :
  NoDup (map parameter ds) -> x ∈ map parameter ds ->
  length (filter (fun d => parameter d = x) ds) = 1.
Proof.
  induction ds as [| d ds IH]; intros Hnodup Hin; simpl in *.
  - inversion Hin.
  - apply NoDup_cons in Hnodup as [Hd Hnodup].
    rewrite filter_cons. destruct (decide (parameter d = x)) as [Heq | Hne].
    + simpl. rewrite no_description; [reflexivity |]. rewrite <- Heq. exact Hd.
    + apply IH; [exact Hnodup |]. apply elem_of_cons in Hin as [Heq | Hin]; [| exact Hin].
      congruence.
Qed.

(** The loop stops with [false] when one of the names is registered. *)
Lemma add_descriptions_registered (ds : list ParameterDescription) (nuisance : bool)
    (d : ParameterDescription) :
  forall (names : gset string) (registered : list ParameterDescription),
    d ∈ ds -> parameter d ∈ names ->
    exists names' registered',
      add_descriptions ds nuisance names registered = (false, names', registered').
Proof.
  induction ds as [| d' ds IH]; intros names registered Hd Hin.
  - inversion Hd.
  - simpl. destruct (bool_decide (parameter d' ∈ names)) eqn:Hd'.
    + eexists _, _. reflexivity.
    + apply bool_decide_eq_false_1 in Hd'.
      apply elem_of_cons in Hd as [-> | Hd]; [contradiction |].
      apply IH; [exact Hd | set_solver].
Qed.

Lemma add_rejects (self : LogPosterior) (prior : LogPrior) (nuisance : bool)
    (d : ParameterDescription) :
  constructed prior ->
  d ∈ LogPrior_descriptions prior ->
  parameter d ∈ _parameter_names self ->
  exists self', add self prior nuisance = Returns (false, self') /\ _priors self' = _priors self.
Proof.
  intros Hprior Hd Hin. unfold add. rewrite (clone_constructed _ Hprior).
  destruct (add_descriptions_registered _ nuisance d (_parameter_names self)
              (_parameter_descriptions self) Hd Hin) as (names' & registered' & ->).
  eexists. split; reflexivity.
Qed.

Lemma add_twice (self : LogPosterior) (prior1 prior2 : LogPrior)
    (nuisance1 nuisance2 : bool) (d1 d2 : ParameterDescription) :
  reachable self ->
  constructed prior1 -> constructed prior2 ->
  LogPrior_descriptions prior1 = [d1] ->
  LogPrior_descriptions prior2 = [d2] ->
  parameter d1 = parameter d2 ->
  exists first self1 self2,
    add self prior1 nuisance1 = Returns (first, self1) /\
    add self1 prior2 nuisance2 = Returns (false, self2) /\
    _parameter_descriptions self2 = _parameter_descriptions self1 /\
    _priors self2 = _priors self1 /\
    _parameter_names self2 = _parameter_names self1 /\
    length (filter (fun d => parameter d = parameter d1) (_parameter_descriptions self2)) = 1.
Proof.
  intros Hreachable Hprior1 Hprior2 Hd1 Hd2 Hname.
  assert (Hfirst : exists first self1,
             add self prior1 nuisance1 = Returns (first, self1) /\
             parameter d1 ∈ _parameter_names self1).
  { unfold add. rewrite (clone_constructed _ Hprior1), Hd1. simpl.
    destruct (bool_decide (parameter d1 ∈ _parameter_names self)) eqn:Hin.
    - apply bool_decide_eq_true_1 in Hin.
      eexists _, _. split; [reflexivity | exact Hin].
    - eexists _, _. split; [reflexivity |]. simpl. set_solver. }
  destruct Hfirst as (first & self1 & Hadd1 & Hin1).
  pose proof (reachable_add _ _ _ _ _ Hreachable Hadd1) as Hreachable1.
  rewrite Hname in Hin1.
  destruct (add_registered_name self1 prior2 nuisance2 d2 Hprior2 Hd2 Hin1)
    as (self2 & Hadd2 & Hdescs & Hpriors & Hnames).
  exists first, self1, self2. repeat split; try assumption.
  rewrite Hdescs.
  destruct (reachable_names_consistent _ Hreachable1) as [Hnodup1 Hnames1].
  apply one_description; [exact Hnodup1 |].
  rewrite Hname. rewrite Hnames1 in Hin1.
  apply elem_of_list_to_set in Hin1. exact Hin1.
Qed.

(** C1: [add] of a prior one of whose parameter names is registered returns
    [false] and does not append the prior.  In particular, in any posterior
    that the constructor, [add] and [clone] can produce, add a prior with the
    single parameter [x] and then another prior with the single parameter
    [x]: the second call returns [false], and the description list, the prior
    list and the name set are what they were before it, with exactly one
    description for [x]. *)
Theorem add_rejects_registered_name :
  (forall (self : LogPosterior) (prior : LogPrior) (nuisance : bool)
          (d : ParameterDescription),
     constructed prior ->
     d ∈ LogPrior_descriptions prior ->
     parameter d ∈ _parameter_names self ->
     exists self',
       add self prior nuisance = Returns (false, self') /\ _priors self' = _priors self) /\
  (forall (self : LogPosterior) (prior1 prior2 : LogPrior) (nuisance1 nuisance2 : bool)
          (d1 d2 : ParameterDescription),
     reachable self ->
     constructed prior1 -> constructed prior2 ->
     LogPrior_descriptions prior1 = [d1] ->
     LogPrior_descriptions prior2 = [d2] ->
     parameter d1 = parameter d2 ->
     exists first self1 self2,
       add self prior1 nuisance1 = Returns (first, self1) /\
       add self1 prior2 nuisance2 = Returns (false, self2) /\
       _parameter_descriptions self2 = _parameter_descriptions self1 /\
       _priors self2 = _priors self1 /\
       _parameter_names self2 = _parameter_names self1 /\
       length (filter (fun d => parameter d = parameter d1)
                 (_parameter_descriptions self2)) = 1).
Proof.
  split.
  - apply add_rejects.
  - apply add_twice.
Qed.

(** C2: the counter of informative priors is incremented before the names
    are checked: when [add] of an informative prior returns [false], the
    prior list is as before and [informative_priors ()] is one larger (the
    counter is an [unsigned] below its maximum). *)
Theorem rejected_add_counts_informative (self : LogPosterior) (prior : LogPrior)
    (nuisance : bool) (self' : LogPosterior) :
  LogPrior_informative prior = true ->
  (informative_priors self < UINT_MAX)%N ->
  add self prior nuisance = Returns (false, self') ->
  informative_priors self' = (informative_priors self + 1)%N /\
  _priors self' = _priors self.
Proof.
  intros Hinformative Hbound Hadd. split.
  - rewrite (add_informative_priors _ _ _ _ _ Hadd), Hinformative.
    unfold unsigned_add. apply N.mod_small. unfold UINT_MAX in *. lia.
  - apply (add_rejected_priors _ _ _ _ Hadd).
Qed.

End AddProperties.

Section AddExamples.
Local Open Scope R_scope.

Lemma flat_constructed (name : string) :
  @constructed Example.cdf Example.linalg (Example.flat name).
Proof.
  apply (constructed_Flat name Example.unit_interval).
  unfold LogPrior_Flat, Flat.make. simpl.
  rewrite bool_decide_eq_false_2 by lra. reflexivity.
Defined.

Lemma scale_constructed (name : string) :
  @constructed Example.cdf Example.linalg (Example.scale name).
Proof.
  apply (constructed_Scale name Example.unit_interval 1 2).
  apply LogPrior_Scale_returns; lra.
Defined.

(** Flat("x", [0, 1]) and then Scale("x") into a new posterior. *)
Lemma add_rejects_registered_name_witness :
  exists first self1 self2,
    @add Example.cdf Example.linalg (LogPosterior_new Example.likelihood)
      (Example.flat "x") false = Returns (first, self1) /\
    @add Example.cdf Example.linalg self1 (Example.scale "x") true = Returns (false, self2) /\
    _parameter_descriptions self2 = _parameter_descriptions self1 /\
    _priors self2 = _priors self1 /\
    _parameter_names self2 = _parameter_names self1 /\
    length (filter (fun d => parameter d = "x") (_parameter_descriptions self2)) = 1%nat.
Proof.
  apply (proj2 (@add_rejects_registered_name Example.cdf Example.linalg
                  Example.declarations)
           (LogPosterior_new Example.likelihood) (Example.flat "x") (Example.scale "x")
           false true
           {| parameter := "x"; min := 0; max := 1; nuisance := false |}
           {| parameter := "x"; min := 1 / 2; max := 1 * 2; nuisance := false |}).
  - apply (@reachable_new Example.cdf Example.linalg Example.declarations).
  - apply flat_constructed.
  - apply scale_constructed.
  - reflexivity.
  - reflexivity.
  - reflexivity.
Defined.

(** Scale("x") twice: the second call is rejected and counted. *)
Lemma rejected_add_counts_informative_witness :
  exists self1 self2,
    @add Example.cdf Example.linalg (LogPosterior_new Example.likelihood)
      (Example.scale "x") false = Returns (true, self1) /\
    @add Example.cdf Example.linalg self1 (Example.scale "x") false = Returns (false, self2) /\
    informative_priors self1 = 1%N /\
    informative_priors self2 = 2%N /\
    _priors self2 = _priors self1.
Proof.
  destruct (@add_fresh Example.cdf Example.linalg
              (LogPosterior_new Example.likelihood) (Example.scale "x") false)
    as (self1 & Hadd1).
  { apply LogPosterior_new_consistent. }
  { apply scale_constructed. }
  { simpl. apply NoDup_singleton. }
  pose proof (add_informative_priors _ _ _ _ _ Hadd1) as Hcount1. simpl in Hcount1.
  change (unsigned_add 0 1) with 1%N in Hcount1.
  destruct (add_accepted _ _ _ _ (LogPosterior_new_consistent _)
              (scale_constructed "x") Hadd1) as (_ & _ & _ & Hnames & _).
  destruct (add_registered_name self1 (Example.scale "x") false
              {| parameter := "x"; min := 1 / 2; max := 1 * 2; nuisance := false |}
              (scale_constructed "x") eq_refl)
    as (self2 & Hadd2 & _).
  { rewrite Hnames. simpl. set_solver. }
  destruct (@rejected_add_counts_informative Example.cdf Example.linalg
              self1 (Example.scale "x") false self2 eq_refl)
    as (Hcount2 & Hpriors).
  { rewrite Hcount1. reflexivity. }
  { exact Hadd2. }
  exists self1, self2. rewrite Hcount1 in Hcount2. repeat split; assumption.
Defined.

End AddExamples.

(** ** [clone] *)

Section CloneProperties.
Context `{GslCdf} `{GslLinalg} `{Declarations}.

(** Re-adding clones of priors with new and distinct names appends their
    descriptions in order. *)
Lemma add_prior_clones_spec (priors : list LogPrior) :
  forall result : LogPosterior,
    Forall constructed priors ->
    registry_consistent result ->
    NoDup (map parameter (_parameter_descriptions result) ++ concat (map names_of priors)) ->
    exists result',
      add_prior_clones priors result = Returns result' /\
      registry_consistent result' /\
      map parameter (_parameter_descriptions result')
        = map parameter (_parameter_descriptions result) ++ concat (map names_of priors) /\
      _priors result' = _priors result ++ priors /\
      _log_likelihood result' = _log_likelihood result.
Proof.
  induction priors as [| prior priors IH]; intros result Hpriors Hresult Hnodup.
  - exists result. simpl. rewrite !app_nil_r.
    split; [reflexivity |]. split; [exact Hresult |]. repeat split.
  - apply Forall_cons in Hpriors as [Hprior Hpriors].
    simpl in Hnodup. rewrite app_assoc in Hnodup.
    destruct (add_fresh result prior add_nuisance_default Hresult Hprior)
      as (result1 & Hadd).
    { apply NoDup_app in Hnodup as (Hnodup & _). exact Hnodup. }
    destruct (add_accepted _ _ _ _ Hresult Hprior Hadd)
      as (Hresult1 & Hdescs1 & Hpriors1 & _ & Hllh1).
    assert (Hnames1 : map parameter (_parameter_descriptions result1)
                      = map parameter (_parameter_descriptions result) ++ names_of prior).
    { rewrite Hdescs1, map_app, parameter_with_nuisance. reflexivity. }
    destruct (IH result1 Hpriors Hresult1) as (result' & Hclones & Hresult' & Hdescs' & Hpriors' & Hllh').
    { rewrite Hnames1. exact Hnodup. }
    exists result'. simpl.
    rewrite (clone_constructed _ Hprior), Hadd.
    split; [exact Hclones |]. split; [exact Hresult' |]. repeat split.
    + rewrite Hdescs', Hnames1, <- app_assoc. reflexivity.
    + rewrite Hpriors', Hpriors1, <- app_assoc. reflexivity.
    + rewrite Hllh', Hllh1. reflexivity.
Qed.

(** When both lists describe the same parameters in the same order, the copy
    loop stays in bounds and turns the result's list into the original's. *)
Lemma copy_ranges_same_names (original : list ParameterDescription) :
  forall result : list ParameterDescription,
    map parameter result = map parameter original ->
    copy_ranges original result = Returns original.
Proof.
  induction original as [| i original IH]; intros result Hnames.
  - destruct result; [reflexivity | discriminate].
  - destruct result as [| j result]; [discriminate |].
    simpl in Hnames. injection Hnames as Hname Hnames.
    simpl. rewrite (IH _ Hnames). simpl. rewrite Hname.
    destruct i. reflexivity.
Qed.

Lemma private_clone_consistent (self : LogPosterior) :
  registry_consistent self ->
  exists result,
    private_clone self = Returns result /\
    _parameter_descriptions result = _parameter_descriptions self /\
    _priors result = _priors self /\
    registry_consistent result.
Proof.
  intros Hself. unfold private_clone, LogLikelihood_clone.
  destruct (add_prior_clones_spec (_priors self)
              (LogPosterior_new (_log_likelihood self)))
    as (result & Hclones & Hresult & Hdescs & Hpriors & Hllh).
  { apply (owned_constructed _ Hself). }
  { apply LogPosterior_new_consistent. }
  { simpl. rewrite <- (descriptions_of_priors _ Hself). apply (names_distinct _ Hself). }
  simpl in Hdescs, Hpriors. rewrite <- (descriptions_of_priors _ Hself) in Hdescs.
  rewrite Hclones, (copy_ranges_same_names _ _ Hdescs).
  eexists. split; [reflexivity |]. simpl. split; [reflexivity |].
  split; [exact Hpriors |].
  destruct Hresult as [Hcons Hd Hnodup Hnames].
  split; simpl.
  - exact Hcons.
  - rewrite <- Hd. symmetry. exact Hdescs.
  - apply (names_distinct _ Hself).
  - rewrite Hnames, Hdescs. reflexivity.
Qed.

(** Every posterior built by adding priors satisfies the invariant. *)
Lemma built_consistent (self : LogPosterior) :
  built self -> registry_consistent self.
Proof.
  induction 1 as [llh | self prior nuisance self' _ IH Hprior Hadd
                 | self prior nuisance self' _ IH Hadd Hdescs
                 | self result _ IH Hclone].
  - apply LogPosterior_new_consistent.
  - apply (add_accepted _ _ _ _ IH Hprior Hadd).
  - destruct (add_rejected_nothing _ _ _ _ Hadd Hdescs) as (Hps & Hns).
    apply (registry_consistent_same _ _ IH Hdescs Hps Hns).
  - destruct (private_clone_consistent self IH) as (result' & Hclone' & _ & _ & Hresult).
    rewrite Hclone in Hclone'. injection Hclone' as <-. exact Hresult.
Qed.

(** X28: for a posterior built by adding priors, with every rejected [add]
    having registered nothing, [clone ()] returns a
    posterior that owns clones of the same priors and whose
    [parameter_descriptions ()] lists the same (name, min, max, nuisance)
    tuples as the original's, in the same order. *)
Theorem clone_parameter_descriptions (self : LogPosterior) :
  built self ->
  exists result,
    LogPosterior_clone self = Returns result /\
    map (fun d => (parameter d, min d, max d, nuisance d)) (parameter_descriptions result)
    = map (fun d => (parameter d, min d, max d, nuisance d)) (parameter_descriptions self) /\
    parameter_descriptions result = parameter_descriptions self /\
    _priors result = _priors self.
Proof.
  intros Hbuilt.
  destruct (private_clone_consistent self (built_consistent _ Hbuilt))
    as (result & Hclone & Hdescs & Hpriors & _).
  exists result. unfold LogPosterior_clone, parameter_descriptions.
  rewrite Hdescs. repeat split; assumption.
Qed.

End CloneProperties.

Section CloneExample.
Local Open Scope R_scope.

(** The posterior with the priors Flat("a", [0, 1]), a nuisance parameter,
    and CurtailedGauss("b", [0, 4]; 1, 2, 3). *)
Lemma clone_parameter_descriptions_witness :
  exists self result,
    @built Example.cdf Example.linalg Example.declarations self /\
    map (fun d => (parameter d, min d, max d, nuisance d)) (parameter_descriptions self)
    = [("a", 0, 1, true); ("b", 0, 4, false)] /\
    @LogPosterior_clone Example.cdf Example.linalg Example.declarations self
    = Returns result /\
    parameter_descriptions result = parameter_descriptions self.
Proof.
  destruct (@LogPrior_CurtailedGauss_returns Example.cdf "b"
              {| range_min := 0; range_max := 4 |} 1 2 3)
    as (p & Hgauss & Hmake); [simpl; lra | lra | lra |].
  assert (Hb : @constructed Example.cdf Example.linalg (IsCurtailedGauss p)).
  { apply (constructed_CurtailedGauss "b" {| range_min := 0; range_max := 4 |} 1 2 3).
    exact Hgauss. }
  assert (Hfront : CurtailedGauss._parameter_descriptions_front p
                   = {| parameter := "b"; min := 0; max := 4; nuisance := false |}).
  { unfold CurtailedGauss.make in Hmake. simpl in Hmake.
    rewrite bool_decide_eq_false_2 in Hmake by lra.
    injection Hmake as <-. reflexivity. }
  pose proof (@LogPosterior_new_consistent Example.cdf Example.linalg Example.likelihood)
    as Hnew.
  destruct (@add_fresh Example.cdf Example.linalg
              (LogPosterior_new Example.likelihood) (Example.flat "a") true Hnew
              (flat_constructed "a"))
    as (self1 & Hadd1).
  { simpl. apply NoDup_singleton. }
  destruct (add_accepted _ _ _ _ Hnew (flat_constructed "a") Hadd1)
    as (Hself1 & Hdescs1 & _).
  simpl in Hdescs1.
  destruct (@add_fresh Example.cdf Example.linalg self1 (IsCurtailedGauss p) false
              Hself1 Hb)
    as (self2 & Hadd2).
  { rewrite Hdescs1. unfold names_of. simpl. rewrite Hfront. simpl.
    apply NoDup_cons. split; [| apply NoDup_singleton].
    intros Hin. apply list_elem_of_singleton in Hin. discriminate. }
  destruct (add_accepted _ _ _ _ Hself1 Hb Hadd2) as (_ & Hdescs2 & _).
  simpl in Hdescs2. rewrite Hdescs1, Hfront in Hdescs2.
  assert (Hbuilt : @built Example.cdf Example.linalg Example.declarations self2).
  { apply (built_add self1 (IsCurtailedGauss p) false self2); [| exact Hb | exact Hadd2].
    apply (built_add (LogPosterior_new Example.likelihood) (Example.flat "a") true self1);
      [apply built_new | apply flat_constructed | exact Hadd1]. }
  destruct (@clone_parameter_descriptions Example.cdf Example.linalg
              Example.declarations self2 Hbuilt)
    as (result & Hclone & _ & Hsame & _).
  exists self2, result. split; [exact Hbuilt |]. split.
  - unfold parameter_descriptions. rewrite Hdescs2. reflexivity.
  - split; [exact Hclone | exact Hsame].
Defined.

End CloneExample.

(** ** [proposal_covariance] *)

Section CovarianceProperties.
Context `{PriorVariance}.
Local Open Scope R_scope.

Lemma position_unique (n i j k l : nat) :
  (i < n)%nat -> (k < n)%nat -> (i + n * j = k + n * l)%nat -> i = k /\ j = l.
Proof.
  intros Hi Hk Heq.
  assert (Hj : j = l) by nia.
  subst l. split; [lia | reflexivity].
Qed.

Lemma fill_diagonal_spec (self : LogPosterior) (scale_reduction : R)
    (scale_nuisance : bool) (npar : nat) (defs : list ParameterDescription) :
  forall (par : nat) (covariance : list R),
    length covariance = (npar * npar)%nat ->
    (par + length defs = npar)%nat ->
    (forall def, def ∈ defs -> is_Some (log_prior_named self (parameter def))) ->
    exists covariance',
      fill_diagonal self scale_reduction scale_nuisance npar defs par covariance
      = Returns covariance' /\
      length covariance' = (npar * npar)%nat /\
      (forall position : nat,
         (forall k, (par <= k < npar)%nat -> position <> (k + npar * k)%nat) ->
         covariance' !! position = covariance !! position) /\
      (forall (k : nat) def prior,
         defs !! k = Some def ->
         log_prior_named self (parameter def) = Some prior ->
         covariance' !! ((par + k) + npar * (par + k))%nat
         = Some (diagonal_entry scale_reduction scale_nuisance def prior)).
Proof.
  induction defs as [| def defs IH]; intros par covariance Hlen Hpar Hpriors.
  - exists covariance. simpl. repeat split; [exact Hlen |].
    intros k def prior Hk. rewrite lookup_nil in Hk. discriminate.
  - simpl in Hpar.
    destruct (Hpriors def) as [prior Hprior]; [left |].
    simpl. rewrite Hprior.
    set (position := (par + npar * par)%nat).
    set (covariance1 := <[position := variance prior]> covariance).
    set (covariance2 :=
           if negb (nuisance def) || scale_nuisance
           then <[position := covariance1 !!! position / power_of_2 scale_reduction]>
                  covariance1
           else covariance1).
    assert (Hposition : (position < length covariance)%nat) by (unfold position; nia).
    assert (Hlen1 : length covariance1 = (npar * npar)%nat).
    { unfold covariance1. rewrite length_insert. exact Hlen. }
    assert (Hlen2 : length covariance2 = (npar * npar)%nat).
    { unfold covariance2. destruct (negb (nuisance def) || scale_nuisance);
        [rewrite length_insert |]; exact Hlen1. }
    assert (Hentry : covariance2 !! position
                     = Some (diagonal_entry scale_reduction scale_nuisance def prior)).
    { unfold covariance2, diagonal_entry.
      destruct (nuisance def), scale_nuisance; simpl.
      - rewrite list_lookup_insert_eq by (rewrite Hlen1, <- Hlen; exact Hposition).
        unfold covariance1. rewrite list_lookup_total_insert_eq by exact Hposition.
        reflexivity.
      - unfold covariance1. apply list_lookup_insert_eq. exact Hposition.
      - rewrite list_lookup_insert_eq by (rewrite Hlen1, <- Hlen; exact Hposition).
        unfold covariance1. rewrite list_lookup_total_insert_eq by exact Hposition.
        reflexivity.
      - rewrite list_lookup_insert_eq by (rewrite Hlen1, <- Hlen; exact Hposition).
        unfold covariance1. rewrite list_lookup_total_insert_eq by exact Hposition.
        reflexivity. }
    assert (Hother : forall q : nat, q <> position -> covariance2 !! q = covariance !! q).
    { intros q Hq. unfold covariance2.
      destruct (negb (nuisance def) || scale_nuisance).
      - rewrite list_lookup_insert_ne by congruence.
        unfold covariance1. apply list_lookup_insert_ne. congruence.
      - unfold covariance1. apply list_lookup_insert_ne. congruence. }
    destruct (IH (S par) covariance2 Hlen2) as (covariance' & Hfill & Hlen' & Hkeep & Hdiag).
    { lia. }
    { intros def' Hdef'. apply Hpriors. right. exact Hdef'. }
    exists covariance'. split; [exact Hfill |]. split; [exact Hlen' |]. split.
    + intros q Hq. rewrite Hkeep.
      * apply Hother. apply Hq. lia.
      * intros k Hk. apply Hq. lia.
    + intros k def' prior' Hk Hprior'. destruct k as [| k].
      * simpl in Hk. injection Hk as <-.
        rewrite Hprior in Hprior'. injection Hprior' as <-.
        rewrite Nat.add_0_r. fold position. rewrite Hkeep; [exact Hentry |].
        intros k Hk Heq. unfold position in Heq.
        assert (k = par) by nia. lia.
      * simpl in Hk. replace (par + S k)%nat with (S par + k)%nat by lia.
        apply (Hdiag k def' prior' Hk Hprior').
Qed.

(** X29: when every registered parameter has a prior, [proposal_covariance]
    returns a matrix of [n * n] entries, [n] the number of registered
    parameters, whose off-diagonal entries are zero and whose [i]-th diagonal
    entry is the variance of the [i]-th parameter's prior divided by
    [scale_reduction^2], or the variance itself for a nuisance parameter when
    [scale_nuisance] is false. *)
Theorem proposal_covariance_diagonal (self : LogPosterior) (scale_reduction : R)
    (scale_nuisance : bool) :
  (forall def, def ∈ parameter_descriptions self ->
               is_Some (log_prior_named self (parameter def))) ->
  let n := length (parameter_descriptions self) in
  exists covariance,
    proposal_covariance self scale_reduction scale_nuisance = Returns covariance /\
    length covariance = (n * n)%nat /\
    (forall i j : nat, (i < n)%nat -> (j < n)%nat -> i <> j ->
                       covariance !! (i + n * j)%nat = Some 0) /\
    (forall (i : nat) def prior,
       parameter_descriptions self !! i = Some def ->
       log_prior_named self (parameter def) = Some prior ->
       covariance !! (i + n * i)%nat
       = Some (if nuisance def && negb scale_nuisance
               then variance prior
               else variance prior / (scale_reduction * scale_reduction))).
Proof.
  intros Hpriors n. unfold proposal_covariance. fold n.
  destruct (fill_diagonal_spec self scale_reduction scale_nuisance n
              (parameter_descriptions self) 0 (replicate (n * n) 0))
    as (covariance & Hfill & Hlen & Hkeep & Hdiag).
  { apply length_replicate. }
  { reflexivity. }
  { exact Hpriors. }
  exists covariance. split; [exact Hfill |]. split; [exact Hlen |]. split.
  - intros i j Hi Hj Hij. rewrite Hkeep.
    + apply lookup_replicate_2. nia.
    + intros k Hk Heq. destruct (position_unique n i j k k) as [-> ->]; [lia | lia | exact Heq |].
      apply Hij. reflexivity.
  - intros i def prior Hi Hprior. apply (Hdiag i def prior Hi Hprior).
Qed.

End CovarianceProperties.

(** One nuisance parameter with variance 4, one scan parameter with variance
    9, [scale_reduction = 2] and [scale_nuisance = false]: the matrix is
    [[4, 0; 0, 9/4]]. *)
Lemma proposal_covariance_diagonal_witness :
  exists covariance,
    @proposal_covariance Example.prior_variance Example.two_parameters 2 false
    = Returns covariance /\
    length covariance = 4 /\
    covariance !! 0 = Some 4%R /\
    covariance !! 1 = Some 0%R /\
    covariance !! 2 = Some 0%R /\
    covariance !! 3 = Some (9 / (2 * 2))%R.
Proof.
  destruct (@proposal_covariance_diagonal Example.prior_variance
              Example.two_parameters 2 false)
    as (covariance & Hcall & Hlen & Hzero & Hdiag).
  { intros def Hdef. simpl in Hdef.
    apply elem_of_cons in Hdef as [-> | Hdef]; [eexists; reflexivity |].
    apply list_elem_of_singleton in Hdef as ->. eexists; reflexivity. }
  exists covariance. split; [exact Hcall |]. split; [exact Hlen |].
  split; [| split; [| split]].
  - apply (Hdiag 0 {| parameter := "a"; min := 0; max := 1; nuisance := true |}
             (Example.flat "a")); reflexivity.
  - apply (Hzero 1 0); simpl; lia.
  - apply (Hzero 0 1); simpl; lia.
  - apply (Hdiag 1 {| parameter := "b"; min := 0; max := 1; nuisance := false |}
             (Example.flat "b")); reflexivity.
Defined.

(** ** Calls in a world *)

Section CallProperties.
Context `{Hdf5}.

Lemma bind_Returns {A B : Type} (c : M A) (k : A -> M B) (w w' : World) (a : A) :
  c w = (Returns a, w') -> bind c k w = k a w'.
Proof. intros Hc. unfold bind. rewrite Hc. reflexivity. Qed.

Lemma bind_Throws {A B : Type} (c : M A) (k : A -> M B) (w w' : World) (e : Exception) :
  c w = (Throws e, w') -> bind c k w = (Throws e, w').
Proof. intros Hc. unfold bind. rewrite Hc. reflexivity. Qed.

Lemma bind_Undefined {A B : Type} (c : M A) (k : A -> M B) (w w' : World) :
  c w = (Undefined, w') -> bind c k w = (Undefined, w').
Proof. intros Hc. unfold bind. rewrite Hc. reflexivity. Qed.

(** A call that did not return stops the calls after it. *)
Lemma bind_not_Returns {A B : Type} (c : M A) (k : A -> M B) (w : World) :
  (forall a w', c w <> (Returns a, w')) ->
  forall b w', bind c k w <> (Returns b, w').
Proof.
  intros Hc b w'. unfold bind.
  destruct (c w) as [[a | e |] w1] eqn:Hcw.
  - exfalso. apply (Hc a w1). reflexivity.
  - discriminate.
  - discriminate.
Qed.

Lemma with_parameters_same (w : World) : with_parameters w (parameters w) = w.
Proof. destruct w. reflexivity. Qed.

Lemma set_all_snoc (assignments : list (ParameterDescription * R))
    (desc : ParameterDescription) (value : R) (p : Parameters) :
  set_all (assignments ++ [(desc, value)]) p
  = Parameter_set (parameter desc) value (set_all assignments p).
Proof. unfold set_all. rewrite foldl_app. reflexivity. Qed.

(** A parameter that is not assigned keeps its value. *)
Lemma set_all_other (assignments : list (ParameterDescription * R)) (name : string) :
  forall p : Parameters,
    name ∉ map (fun a => parameter (fst a)) assignments ->
    set_all assignments p !! name = p !! name.
Proof.
  induction assignments as [| [desc value] assignments IH]; intros p Hname.
  - reflexivity.
  - simpl in *. rewrite IH.
    + unfold Parameter_set. apply lookup_insert_ne. intros Heq. apply Hname.
      rewrite <- Heq. left.
    + intros Hin. apply Hname. right. exact Hin.
Qed.

(** With distinct names, every assigned parameter holds its assigned value. *)
Lemma set_all_assigned (assignments : list (ParameterDescription * R)) :
  forall (p : Parameters) (j : nat) desc value,
    NoDup (map (fun a => parameter (fst a)) assignments) ->
    assignments !! j = Some (desc, value) ->
    Parameter_evaluate (parameter desc) (set_all assignments p) = value.
Proof.
  induction assignments as [| [desc' value'] assignments IH];
    intros p j desc value Hnodup Hj.
  - rewrite lookup_nil in Hj. discriminate.
  - simpl in Hnodup. apply NoDup_cons in Hnodup as [Hfirst Hnodup].
    destruct j as [| j]; simpl in Hj.
    + injection Hj as -> ->. unfold Parameter_evaluate. simpl.
      rewrite lookup_total_alt, (set_all_other _ _ _ Hfirst).
      unfold Parameter_set. rewrite lookup_insert_eq. reflexivity.
    + simpl. apply (IH _ j desc value Hnodup Hj).
Qed.

End CallProperties.

(** ** [goodness_of_fit] *)

Section GoodnessOfFitProperties.
Context `{GslCdf} `{GslLinalg} `{Hdf5} `{Declarations}.
Local Open Scope R_scope.

Lemma with_parameters_twice (w : World) (p p' : Parameters) :
  with_parameters (with_parameters w p) p' = with_parameters w p'.
Proof. reflexivity. Qed.

(** The loop throws at the first component that is out of bounds, after it
    has set the components before it. *)
Lemma set_parameter_values_stops (i : nat) :
  forall (descs : list ParameterDescription) (values : list R) desc value (w : World),
    descs !! i = Some desc ->
    values !! i = Some value ->
    out_of_bounds desc value ->
    (forall (j : nat) d x, (j < i)%nat -> descs !! j = Some d -> values !! j = Some x ->
                           ~ out_of_bounds d x) ->
    set_parameter_values descs values w
    = (Throws (out_of_bounds_error desc value),
       with_parameters w (set_all (zip (take i descs) (take i values)) (parameters w))).
Proof.
  induction i as [| i IH]; intros descs values desc value w Hdesc Hvalue Hout Hbefore.
  - destruct descs as [| d descs]; [discriminate |].
    destruct values as [| x values]; [discriminate |].
    simpl in Hdesc, Hvalue. injection Hdesc as ->. injection Hvalue as ->.
    simpl. rewrite with_parameters_same.
    destruct Hout as [Hlow | Hhigh].
    + rewrite (bool_decide_eq_true_2 _ Hlow). reflexivity.
    + rewrite (bool_decide_eq_true_2 (value > max desc) Hhigh), orb_true_r. reflexivity.
  - destruct descs as [| d descs]; [discriminate |].
    destruct values as [| x values]; [discriminate |].
    simpl in Hdesc, Hvalue.
    assert (Hin : ~ out_of_bounds d x).
    { apply (Hbefore 0%nat d x); [lia | reflexivity | reflexivity]. }
    simpl.
    rewrite (bool_decide_eq_false_2 (x < min d)) by (intros Hlow; apply Hin; left; exact Hlow).
    rewrite (bool_decide_eq_false_2 (x > max d)) by (intros Hhigh; apply Hin; right; exact Hhigh).
    simpl. unfold bind at 1. unfold set_parameter at 1.
    rewrite (IH descs values desc value _ Hdesc Hvalue Hout).
    + reflexivity.
    + intros j d' x' Hj Hd' Hx'. apply (Hbefore (S j) d' x'); [lia | exact Hd' | exact Hx'].
Qed.

(** When every component is within bounds, the loop sets all of them. *)
Lemma set_parameter_values_all (descs : list ParameterDescription) :
  forall (values : list R) (w : World),
    Forall2 (fun d x => ~ out_of_bounds d x) descs values ->
    set_parameter_values descs values w
    = (Returns tt, with_parameters w (set_all (zip descs values) (parameters w))).
Proof.
  induction descs as [| d descs IH]; intros values w Hin.
  - apply Forall2_nil_inv_l in Hin as ->. simpl. rewrite with_parameters_same. reflexivity.
  - apply Forall2_cons_inv_l in Hin as (x & values' & Hx & Hin & ->).
    simpl.
    rewrite (bool_decide_eq_false_2 (x < min d)) by (intros Hlow; apply Hx; left; exact Hlow).
    rewrite (bool_decide_eq_false_2 (x > max d)) by (intros Hhigh; apply Hx; right; exact Hhigh).
    simpl. unfold bind at 1. unfold set_parameter at 1.
    rewrite (IH values' _ Hin). reflexivity.
Qed.

(** Among the components out of bounds there is a first one. *)
Lemma first_out_of_bounds (descs : list ParameterDescription) :
  forall values : list R,
    length descs = length values ->
    (exists (i : nat) desc value,
        descs !! i = Some desc /\ values !! i = Some value /\ out_of_bounds desc value) ->
    exists (i : nat) desc value,
      descs !! i = Some desc /\ values !! i = Some value /\ out_of_bounds desc value /\
      forall (j : nat) d x, (j < i)%nat -> descs !! j = Some d -> values !! j = Some x ->
                            ~ out_of_bounds d x.
Proof.
  induction descs as [| d descs IH]; intros values Hlen (i & desc & value & Hdesc & Hvalue & Hout).
  - rewrite lookup_nil in Hdesc. discriminate.
  - destruct values as [| x values]; [discriminate |].
    destruct (Rlt_dec x (min d)) as [Hlow | Hlow].
    { exists 0%nat, d, x. repeat split; [left; exact Hlow |]. intros j d' x' Hj. lia. }
    destruct (Rgt_dec x (max d)) as [Hhigh | Hhigh].
    { exists 0%nat, d, x. repeat split; [right; exact Hhigh |]. intros j d' x' Hj. lia. }
    destruct i as [| i].
    { simpl in Hdesc, Hvalue. injection Hdesc as ->. injection Hvalue as ->.
      destruct Hout; contradiction. }
    simpl in Hdesc, Hvalue, Hlen.
    destruct (IH values) as (i' & desc' & value' & Hdesc' & Hvalue' & Hout' & Hbefore).
    { lia. }
    { exists i, desc, value. repeat split; assumption. }
    exists (S i'), desc', value'. repeat split; try assumption.
    intros j d' x' Hj Hd' Hx'. destruct j as [| j].
    + simpl in Hd', Hx'. injection Hd' as <-. injection Hx' as <-.
      intros [Hl | Hh]; contradiction.
    + apply (Hbefore j d' x'); [lia | exact Hd' | exact Hx'].
Qed.

(** [goodness_of_fit] up to the loop that sets the parameters. *)
Lemma goodness_of_fit_stops (self : LogPosterior) (parameter_values : list R)
    (simulated_datasets : nat) (output_file : string) (w w1 w2 : World)
    (f : option hdf5_File) (e : Exception) :
  length (_parameter_descriptions self) = length parameter_values ->
  open_output self parameter_values output_file w = (Returns f, w1) ->
  set_parameter_values (_parameter_descriptions self) parameter_values w1 = (Throws e, w2) ->
  goodness_of_fit self parameter_values simulated_datasets output_file w = (Throws e, w2).
Proof.
  intros Hlen Hopen Hset. unfold goodness_of_fit.
  rewrite (proj2 (Nat.eqb_eq _ _) Hlen). cbn [negb].
  rewrite (bind_Returns _ _ _ _ _ Hopen).
  rewrite (bind_Throws _ _ _ _ _ Hset). reflexivity.
Qed.

End GoodnessOfFitProperties.

Section GoodnessOfFitInput.
Context `{GslCdf} `{GslLinalg} `{Hdf5} `{Declarations}.
Local Open Scope R_scope.

Lemma assigned_names (i : nat) :
  forall (descs : list ParameterDescription) (values : list R),
    length descs = length values ->
    map (fun a => parameter (fst a)) (zip (take i descs) (take i values))
    = map parameter (take i descs).
Proof.
  induction i as [| i IH]; intros descs values Hlen; [reflexivity |].
  destruct descs as [| d descs], values as [| x values]; try discriminate; [reflexivity |].
  simpl. f_equal. apply IH. simpl in Hlen. lia.
Qed.

Lemma assigned_lookup (i j : nat) (descs : list ParameterDescription) (values : list R)
    (d : ParameterDescription) (x : R) :
  (j < i)%nat -> descs !! j = Some d -> values !! j = Some x ->
  zip (take i descs) (take i values) !! j = Some (d, x).
Proof.
  intros Hj Hd Hx. apply lookup_zip_with_Some. exists d, x.
  rewrite !lookup_take_lt by exact Hj. repeat split; assumption.
Qed.

Lemma NoDup_take_names (i : nat) (descs : list ParameterDescription) :
  NoDup (map parameter descs) -> NoDup (map parameter (take i descs)).
Proof.
  intros Hnodup. rewrite <- (take_drop i descs), map_app in Hnodup.
  apply NoDup_app in Hnodup as (Htake & _). exact Htake.
Qed.

(** C7: a call of [goodness_of_fit] with a point of the right dimension one
    of whose components is outside the [[min, max]] of its description does
    not return; once the optional output file is open, the call throws the
    out-of-bounds error for the first such component. *)
Theorem goodness_of_fit_out_of_range (self : LogPosterior) (parameter_values : list R)
    (simulated_datasets : nat) (output_file : string) (w : World) :
  length (parameter_descriptions self) = length parameter_values ->
  (exists (i : nat) desc value,
      parameter_descriptions self !! i = Some desc /\
      parameter_values !! i = Some value /\
      (value < min desc \/ value > max desc)) ->
  (forall result w',
      goodness_of_fit self parameter_values simulated_datasets output_file w
      <> (Returns result, w')) /\
  (forall f w1,
      open_output self parameter_values output_file w = (Returns f, w1) ->
      exists (i : nat) desc value w',
        parameter_descriptions self !! i = Some desc /\
        parameter_values !! i = Some value /\
        (value < min desc \/ value > max desc) /\
        goodness_of_fit self parameter_values simulated_datasets output_file w
        = (Throws (InternalError
                     [Str "LogPosterior::goodness_of_fit: parameter "; Str (parameter desc);
                      Str " out of bounds ["; Dbl (min desc); Str ", "; Dbl (max desc);
                      Str "]: "; Dbl value]),
           w')).
Proof.
  unfold parameter_descriptions. intros Hlen Hout.
  destruct (first_out_of_bounds _ _ Hlen Hout)
    as (i & desc & value & Hdesc & Hvalue & Hbounds & Hbefore).
  assert (Hthrows : forall f w1,
             open_output self parameter_values output_file w = (Returns f, w1) ->
             goodness_of_fit self parameter_values simulated_datasets output_file w
             = (Throws (out_of_bounds_error desc value),
                with_parameters w1
                  (set_all (zip (take i (_parameter_descriptions self))
                                (take i parameter_values)) (parameters w1)))).
  { intros f w1 Hopen. apply (goodness_of_fit_stops _ _ _ _ _ _ _ _ _ Hlen Hopen).
    apply (set_parameter_values_stops i _ _ _ _ _ Hdesc Hvalue Hbounds Hbefore). }
  split.
  - intros result w'.
    destruct (open_output self parameter_values output_file w) as [[f | e |] w1] eqn:Hopen.
    + rewrite (Hthrows f w1 eq_refl). discriminate.
    + unfold goodness_of_fit. rewrite (proj2 (Nat.eqb_eq _ _) Hlen). cbn [negb].
      rewrite (bind_Throws _ _ _ _ _ Hopen). discriminate.
    + unfold goodness_of_fit. rewrite (proj2 (Nat.eqb_eq _ _) Hlen). cbn [negb].
      rewrite (bind_Undefined _ _ _ _ Hopen). discriminate.
  - intros f w1 Hopen. exists i, desc, value. eexists.
    split; [exact Hdesc |]. split; [exact Hvalue |]. split; [exact Hbounds |].
    apply (Hthrows f w1 Hopen).
Qed.

(** C10: when component [i] of the point is the first one out of bounds, the
    call throws after the parameters at the positions before [i] were set to
    the supplied values: in the world the failed call leaves behind they
    hold these values, the other parameters are untouched, and the store
    differs from the one before as soon as one of the values is new. *)
Theorem goodness_of_fit_not_atomic (self : LogPosterior) (parameter_values : list R)
    (simulated_datasets : nat) (output_file : string) (w w1 : World)
    (f : option hdf5_File) (i : nat) (desc : ParameterDescription) (value : R) :
  length (parameter_descriptions self) = length parameter_values ->
  NoDup (map parameter (parameter_descriptions self)) ->
  open_output self parameter_values output_file w = (Returns f, w1) ->
  parameter_descriptions self !! i = Some desc ->
  parameter_values !! i = Some value ->
  (value < min desc \/ value > max desc) ->
  (forall (j : nat) d x,
      (j < i)%nat -> parameter_descriptions self !! j = Some d ->
      parameter_values !! j = Some x -> ~ (x < min d \/ x > max d)) ->
  exists w',
    goodness_of_fit self parameter_values simulated_datasets output_file w
    = (Throws (InternalError
                 [Str "LogPosterior::goodness_of_fit: parameter "; Str (parameter desc);
                  Str " out of bounds ["; Dbl (min desc); Str ", "; Dbl (max desc);
                  Str "]: "; Dbl value]),
       w') /\
    (forall (j : nat) d x,
        (j < i)%nat -> parameter_descriptions self !! j = Some d ->
        parameter_values !! j = Some x ->
        Parameter_evaluate (parameter d) (parameters w') = x) /\
    (forall name,
        name ∉ map parameter (take i (parameter_descriptions self)) ->
        parameters w' !! name = parameters w1 !! name) /\
    ((exists (j : nat) d x,
         (j < i)%nat /\ parameter_descriptions self !! j = Some d /\
         parameter_values !! j = Some x /\
         Parameter_evaluate (parameter d) (parameters w1) <> x) ->
     parameters w' <> parameters w1).
Proof.
  unfold parameter_descriptions.
  intros Hlen Hnodup Hopen Hdesc Hvalue Hbounds Hbefore.
  set (assignments := zip (take i (_parameter_descriptions self)) (take i parameter_values)).
  exists (with_parameters w1 (set_all assignments (parameters w1))).
  assert (Hset : forall (j : nat) d x,
             (j < i)%nat -> _parameter_descriptions self !! j = Some d ->
             parameter_values !! j = Some x ->
             Parameter_evaluate (parameter d) (set_all assignments (parameters w1)) = x).
  { intros j d x Hj Hd Hx. apply (set_all_assigned assignments _ j d x).
    - unfold assignments. rewrite (assigned_names i _ _ Hlen).
      apply NoDup_take_names. exact Hnodup.
    - apply (assigned_lookup i j _ _ d x Hj Hd Hx). }
  split; [| split; [| split]].
  - apply (goodness_of_fit_stops _ _ _ _ _ _ _ _ _ Hlen Hopen).
    apply (set_parameter_values_stops i _ _ _ _ _ Hdesc Hvalue Hbounds Hbefore).
  - exact Hset.
  - intros name Hname. simpl. apply set_all_other.
    unfold assignments. rewrite (assigned_names i _ _ Hlen). exact Hname.
  - intros (j & d & x & Hj & Hd & Hx & Hnew) Hsame. simpl in Hsame.
    apply Hnew. rewrite <- Hsame. apply (Hset j d x Hj Hd Hx).
Qed.

End GoodnessOfFitInput.

Section GoodnessOfFitExamples.
Local Open Scope R_scope.

(** The point [(0.5, 2)] for two parameters with the range [[0, 1]]: the
    second component is out of bounds. *)
Lemma goodness_of_fit_out_of_range_witness :
  (forall result w',
      @goodness_of_fit Example.cdf Example.declarations Example.hdf5
        Example.two_parameters [0.5; 2] 10 "" Example.world
      <> (Returns result, w')) /\
  exists w',
    @goodness_of_fit Example.cdf Example.declarations Example.hdf5
      Example.two_parameters [0.5; 2] 10 "" Example.world
    = (Throws (InternalError
                 [Str "LogPosterior::goodness_of_fit: parameter "; Str "b";
                  Str " out of bounds ["; Dbl 0; Str ", "; Dbl 1; Str "]: "; Dbl 2]),
       w').
Proof.
  destruct (@goodness_of_fit_out_of_range Example.cdf Example.hdf5 Example.declarations
              Example.two_parameters [0.5; 2] 10%nat "" Example.world)
    as [Hfails Hthrows].
  { reflexivity. }
  { exists 1%nat, {| parameter := "b"; min := 0; max := 1; nuisance := false |}, 2.
    split; [reflexivity |]. split; [reflexivity |]. right. simpl. lra. }
  split; [exact Hfails |].
  destruct (Hthrows None Example.world eq_refl)
    as (i & desc & value & w' & Hdesc & Hvalue & Hbounds & Hcall).
  destruct i as [| [| i]]; simpl in Hdesc, Hvalue.
  - injection Hdesc as <-. injection Hvalue as <-. simpl in Hbounds. lra.
  - injection Hdesc as <-. injection Hvalue as <-. exists w'. exact Hcall.
  - discriminate.
Defined.

(** The same call leaves ["a"] at [0.5] although it threw. *)
Lemma goodness_of_fit_not_atomic_witness :
  exists w',
    @goodness_of_fit Example.cdf Example.declarations Example.hdf5
      Example.two_parameters [0.5; 2] 10 "" Example.world
    = (Throws (InternalError
                 [Str "LogPosterior::goodness_of_fit: parameter "; Str "b";
                  Str " out of bounds ["; Dbl 0; Str ", "; Dbl 1; Str "]: "; Dbl 2]),
       w') /\
    Parameter_evaluate "a" (parameters Example.world) = 0 /\
    Parameter_evaluate "a" (parameters w') = 0.5 /\
    parameters w' <> parameters Example.world.
Proof.
  destruct (@goodness_of_fit_not_atomic Example.cdf Example.hdf5 Example.declarations
              Example.two_parameters [0.5; 2] 10%nat "" Example.world Example.world None
              1%nat {| parameter := "b"; min := 0; max := 1; nuisance := false |} 2)
    as (w' & Hcall & Hset & _ & Hchanged).
  { reflexivity. }
  { simpl. apply NoDup_cons. split; [| apply NoDup_singleton].
    intros Hin. apply list_elem_of_singleton in Hin. discriminate. }
  { reflexivity. }
  { reflexivity. }
  { reflexivity. }
  { right. simpl. lra. }
  { intros j d x Hj Hd Hx. destruct j as [| j]; [| lia].
    simpl in Hd, Hx. injection Hd as <-. injection Hx as <-. simpl. lra. }
  exists w'. split; [exact Hcall |]. split; [reflexivity |]. split.
  - apply (Hset 0%nat {| parameter := "a"; min := 0; max := 1; nuisance := true |} 0.5);
      [lia | reflexivity | reflexivity].
  - apply Hchanged.
    exists 0%nat, {| parameter := "a"; min := 0; max := 1; nuisance := true |}, 0.5.
    split; [lia |]. split; [reflexivity |]. split; [reflexivity |].
    unfold Parameter_evaluate. simpl. rewrite lookup_total_empty. simpl. lra.
Defined.

End GoodnessOfFitExamples.

Section GoodnessOfFitReport.
Context `{GslCdf} `{GslLinalg} `{Hdf5} `{Declarations}.
Local Open Scope R_scope.

Lemma with_log_twice (w : World) (a b : list LogMessage) :
  with_log (with_log w a) b = with_log w (a ++ b).
Proof. unfold with_log. simpl. rewrite <- app_assoc. reflexivity. Qed.

Lemma with_log_nil (w : World) : with_log w [] = w.
Proof. destruct w. unfold with_log. simpl. rewrite app_nil_r. reflexivity. Qed.

Lemma log_message_returns (context : string) (level : LogLevel) (message : text)
    (w : World) :
  log_message context level message w
  = (Returns tt,
     with_log w [{| log_context := context; log_level := level; log_text := message |}]).
Proof. reflexivity. Qed.

Lemma block_significances_spec (name : string) (bs : list LogLikelihoodBlock) :
  forall (acc : R * list R) (w : World),
    let found := map (fun b => (name, significance b (parameters w))) bs in
    block_significances name bs acc w
    = (Returns (foldl (fun total s => total + power_of_2 (snd s)) (fst acc) found,
                snd acc ++ map snd found),
       with_log w (map (fun s => gof_message ll_informational
                                   [Str (fst s); Str ": "; Dbl (snd s); Str " sigma"])
                       found)).
Proof.
  induction bs as [| b bs IH]; intros acc w; simpl.
  - rewrite app_nil_r, with_log_nil. destruct acc. reflexivity.
  - unfold bind at 1. unfold get_parameters at 1.
    unfold bind at 1. rewrite log_message_returns.
    rewrite IH. simpl. rewrite with_log_twice, <- app_assoc. reflexivity.
Qed.

Lemma constraint_significances_spec (cs : list Constraint) :
  forall (acc : R * list R) (w : World),
    let found :=
      concat (map (fun c => map (fun b => (constraint_name c, significance b (parameters w)))
                               (blocks c)) cs) in
    constraint_significances cs acc w
    = (Returns (foldl (fun total s => total + power_of_2 (snd s)) (fst acc) found,
                snd acc ++ map snd found),
       with_log w (map (fun s => gof_message ll_informational
                                   [Str (fst s); Str ": "; Dbl (snd s); Str " sigma"])
                       found)).
Proof.
  induction cs as [| c cs IH]; intros acc w; simpl.
  - rewrite app_nil_r, with_log_nil. destruct acc. reflexivity.
  - unfold bind at 1. rewrite block_significances_spec.
    rewrite IH. simpl. rewrite with_log_twice.
    rewrite !map_app, foldl_app, <- app_assoc. reflexivity.
Qed.

Lemma observables_logged (cache : list (string * (Parameters -> R))) :
  forall w : World,
    for_each cache
      (fun o =>
         bind get_parameters (fun parameters =>
           log_message "log_posterior.goodness_of_fit" ll_informational
             [Str (fst o); Str " = "; Dbl (snd o parameters)])) w
    = (Returns tt,
       with_log w (map (fun o => gof_message ll_informational
                                   [Str (fst o); Str " = "; Dbl (snd o (parameters w))])
                       cache)).
Proof.
  induction cache as [| o cache IH]; intros w; simpl.
  - rewrite with_log_nil. reflexivity.
  - unfold bind at 1. unfold bind at 1. unfold get_parameters at 1.
    rewrite log_message_returns, IH. simpl. rewrite with_log_twice. reflexivity.
Qed.

Lemma on_disk_returns {A : Type} (op : hdf5_disk -> outcome A * hdf5_disk) (w : World)
    (a : A) (d' : hdf5_disk) :
  op (disk w) = (Returns a, d') -> on_disk op w = (Returns a, with_disk w d').
Proof. intros Hop. unfold on_disk. rewrite Hop. reflexivity. Qed.

Lemma store_significances_returns (f : option hdf5_File) (significances : list R)
    (total chi_squared : R) (d : hdf5_disk) :
  hdf5_returns ->
  exists d', forall w : World,
      disk w = d ->
      store_significances f significances total chi_squared w = (Returns tt, with_disk w d').
Proof.
  intros (Hcreate & Hwrite & Hattribute & Hassign).
  destruct f as [file |]; simpl.
  - destruct (Hcreate file "/data/significances"%string d) as (data_set & d1 & E1).
    destruct (Hwrite data_set (ArrayRecord significances) d1) as (d2 & E2).
    destruct (Hattribute data_set "chi2_significance"%string d2) as (attr_sign & d3 & E3).
    destruct (Hassign attr_sign (AttrDouble total) d3) as (d4 & E4).
    destruct (Hattribute data_set "chi2_simulation"%string d4) as (attr_sim & d5 & E5).
    destruct (Hassign attr_sign (AttrDouble chi_squared) d5) as (d6 & E6).
    exists d6. intros w Hd. rewrite <- Hd in E1.
    rewrite (bind_Returns _ _ _ _ _ (on_disk_returns _ _ _ _ E1)).
    rewrite (bind_Returns _ _ _ _ _ (on_disk_returns _ (with_disk w d1) _ _ E2)).
    rewrite (bind_Returns _ _ _ _ _ (on_disk_returns _ (with_disk _ d2) _ _ E3)).
    rewrite (bind_Returns _ _ _ _ _ (on_disk_returns _ (with_disk _ d3) _ _ E4)).
    rewrite (bind_Returns _ _ _ _ _ (on_disk_returns _ (with_disk _ d4) _ _ E5)).
    rewrite (on_disk_returns _ (with_disk _ d5) _ _ E6).
    reflexivity.
  - exists d. intros w <-. destruct w. reflexivity.
Qed.

Lemma call_log_prior_returns (self : LogPosterior) (w : World) :
  _priors self <> [] ->
  exists lp, log_prior self (parameters w) = Returns lp /\
             call_log_prior self w = (Returns lp, w).
Proof.
  intros Hpriors. unfold call_log_prior, log_prior, bind, get_parameters, lift_outcome.
  destruct (_priors self) as [| prior priors]; [contradiction |].
  eexists. split; reflexivity.
Qed.

End GoodnessOfFitReport.

Section GoodnessOfFitDegrees.
Context `{GslCdf} `{GslLinalg} `{Hdf5} `{Declarations}.
Local Open Scope R_scope.

(** C8: a call of [goodness_of_fit] that got past the output file, the
    bounds and the prior returns the pair of the simulated p-value and the
    analytic p-value, whatever the sign of the degrees of freedom.  The
    analytic p-value for [n_observations - n_parameters] is computed and
    logged when that number is positive; otherwise a warning is logged and
    the pair carries 0 in its place.  The same holds, in the log, for
    [n_observations - n_scan_parameters], and the two p-values from the
    significances are logged under the same two conditions. *)
Theorem goodness_of_fit_degenerate_dof (self : LogPosterior) (parameter_values : list R)
    (simulated_datasets : nat) (output_file : string) (w w1 : World)
    (f : option hdf5_File) :
  hdf5_returns ->
  length (parameter_descriptions self) = length parameter_values ->
  open_output self parameter_values output_file w = (Returns f, w1) ->
  Forall2 (fun d x => ~ (x < min d \/ x > max d))
          (parameter_descriptions self) parameter_values ->
  _priors self <> [] ->
  let llh := _log_likelihood self in
  let n_observations := number_of_observations llh in
  let n_parameters := length (parameter_descriptions self) in
  let n_scan_parameters :=
    length (filter (fun d => nuisance d = false) (parameter_descriptions self)) in
  let point := set_all (zip (parameter_descriptions self) parameter_values) (parameters w1) in
  let simulated := bootstrap_p_value llh point simulated_datasets in
  let chi_squared := gsl_cdf_chisq_Qinv (fst simulated) (INR n_observations) in
  let dof := 1 * INR n_observations - INR n_parameters in
  let dof_scan := 1 * INR n_observations - INR n_scan_parameters in
  let total := total_significance_squared_at llh point in
  exists w' lp,
    log_prior self point = Returns lp /\
    goodness_of_fit self parameter_values simulated_datasets output_file w
    = (Returns (fst simulated,
                if bool_decide (dof > 0) then gsl_cdf_chisq_Q chi_squared dof else 0),
       w') /\
    parameters w' = point /\
    log w'
    = log w1
      ++ [gof_message ll_informational
            [Str "Calculating p-values at parameters "; Vec parameter_values;
             Str " with log(post) = "; XDbl (XD.add (llh_call llh point) lp)]]
      ++ (if bool_decide (dof > 0)
          then [gof_message ll_debug
                  [Str "dof = "; Dbl dof; Str ", _parameter_descriptions.size = ";
                   Uns n_parameters; Str ", #observations = "; Uns n_observations];
                gof_message ll_informational
                  [Str "p-value from simulating pseudo experiments after applying DoF correction and using the \chi^2-distribution";
                   Str " (valid assumption?) has a value of ";
                   Dbl (gsl_cdf_chisq_Q chi_squared dof)]]
          else [gof_message ll_warning
                  [Str "Cannot compute p-value for non-positive dof ("; Dbl dof;
                   Str "). Need more constraints / less parameters"]])
      ++ (if bool_decide (dof_scan > 0)
          then [gof_message ll_informational
                  [Str "p-value from simulating pseudo experiments after applying DoF correction (scan parameters only)";
                   Str " and using the \chi^2-distribution";
                   Str " (valid assumption?) has a value of ";
                   Dbl (gsl_cdf_chisq_Q chi_squared dof_scan)]]
          else [gof_message ll_warning
                  [Str "Cannot compute p-value for negative dof_scan ("; Dbl dof_scan;
                   Str "). Need more constraints / less parameters"]])
      ++ [gof_message ll_informational [Str "Significances for each constraint:"]]
      ++ significance_messages llh point
      ++ [gof_message ll_informational
            [Str "Listing the individual observables' predicted values:"]]
      ++ observable_messages llh point
      ++ (if bool_decide (dof > 0)
          then [gof_message ll_informational
                  [Str "p-value from calculating significances, treating them as coming from a Gaussian, is ";
                   Dbl (gsl_cdf_chisq_Q total dof);
                   Str ". The pseudo chi_squared/dof is "; Dbl total; Str "/"; Dbl dof;
                   Str " = "; Dbl (total / dof)]]
          else [])
      ++ (if bool_decide (dof_scan > 0)
          then [gof_message ll_informational
                  [Str "p-value from calculating significances, treating them as coming from a Gaussian, is ";
                   Dbl (gsl_cdf_chisq_Q total dof_scan);
                   Str ". The pseudo chi_squared/dof (dof from scan parameters only) is ";
                   Dbl total; Str "/"; Dbl dof_scan; Str " = "; Dbl (total / dof_scan)]]
          else []).
Proof.
  intros Hhdf5 Hlen Hopen Hbounds Hpriors llh n_observations n_parameters
         n_scan_parameters point simulated chi_squared dof dof_scan total.
  unfold parameter_descriptions in *.
  set (w2 := with_parameters w1 point).
  destruct (call_log_prior_returns self w2 Hpriors) as (lp & Hlp & Hcall_lp).
  destruct (store_significances_returns f (map snd (significances_at llh point))
              total chi_squared (disk w1) Hhdf5) as (d' & Hstore).
  unfold goodness_of_fit.
  rewrite (proj2 (Nat.eqb_eq _ _) Hlen). cbn [negb].
  rewrite (bind_Returns _ _ _ _ _ Hopen).
  rewrite (bind_Returns _ _ _ _ _ (set_parameter_values_all _ _ w1 Hbounds)).
  fold point. fold w2.
  unfold bind at 1. unfold call_log_likelihood at 1, bind at 1, get_parameters at 1, ret at 1.
  rewrite (bind_Returns _ _ _ _ _ Hcall_lp).
  unfold bind at 1. rewrite log_message_returns.
  unfold bind at 1. unfold get_parameters at 1.
  change (parameters (with_log w2 _)) with point.
  fold llh. fold n_observations. fold simulated. fold chi_squared.
  fold n_parameters. fold dof. fold n_scan_parameters. fold dof_scan.
  destruct (bool_decide (dof > 0)); destruct (bool_decide (dof_scan > 0)).
  all: eexists _, lp; split; [exact Hlp |].
  all: split;
    [ erewrite bind_Returns; [| reflexivity];
      erewrite bind_Returns; [| reflexivity];
      erewrite bind_Returns; [| apply log_message_returns];
      erewrite bind_Returns; [| apply constraint_significances_spec];
      erewrite bind_Returns; [| apply Hstore; reflexivity];
      erewrite bind_Returns; [| apply log_message_returns];
      erewrite bind_Returns; [| apply observables_logged];
      erewrite bind_Returns; [| reflexivity];
      erewrite bind_Returns; [| reflexivity];
      reflexivity
    | split;
      [ reflexivity
      | unfold significance_messages, observable_messages, significances_at, gof_message;
        simpl; rewrite <- ?app_assoc; simpl; rewrite ?app_nil_r; reflexivity ] ].
Qed.

End GoodnessOfFitDegrees.

Section GoodnessOfFitDegreesExample.
Local Open Scope R_scope.

Lemma example_hdf5_returns : @hdf5_returns Example.hdf5.
Proof.
  repeat split; intros; simpl.
  - eexists _, _. reflexivity.
  - eexists. reflexivity.
  - eexists _, _. reflexivity.
  - eexists. reflexivity.
Defined.

(** No observations and two parameters: both degrees of freedom are
    negative, and the call returns the simulated p-value with 0. *)
Lemma goodness_of_fit_degenerate_dof_witness :
  exists w',
    @goodness_of_fit Example.cdf Example.declarations Example.hdf5
      Example.two_parameters [0.5; 0.5] 10 "" Example.world
    = (Returns (1, 0), w') /\
    last (log w')
    = Some (gof_message ll_informational
              [Str "Listing the individual observables' predicted values:"]).
Proof.
  destruct (@goodness_of_fit_degenerate_dof Example.cdf Example.hdf5 Example.declarations
              Example.two_parameters [0.5; 0.5] 10%nat "" Example.world Example.world None)
    as (w' & lp & _ & Hcall & _ & Hlog).
  { apply example_hdf5_returns. }
  { reflexivity. }
  { reflexivity. }
  { repeat constructor; simpl; lra. }
  { discriminate. }
  exists w'. split.
  - rewrite Hcall. simpl.
    repeat match goal with
           | |- context [bool_decide ?P] =>
               rewrite (bool_decide_eq_false_2 P) by (simpl; lra)
           end.
    reflexivity.
  - rewrite Hlog. simpl.
    repeat match goal with
           | |- context [bool_decide ?P] =>
               rewrite (bool_decide_eq_false_2 P) by (simpl; lra)
           end.
    reflexivity.
Defined.

End GoodnessOfFitDegreesExample.

(** ** [optimize] *)

Section OptimizeProperties.
Context `{GslCdf} `{GslLinalg} `{Hdf5} `{GslMultimin}.
Local Open Scope R_scope.

Lemma set_components_returns (descs : list ParameterDescription) (pars : gsl_vector) :
  forall (i : nat) (w : World),
    exists p, set_components descs pars i w = (Returns tt, with_parameters w p).
Proof.
  induction descs as [| desc descs IH]; intros i w; simpl.
  - exists (parameters w). rewrite with_parameters_same. reflexivity.
  - unfold bind at 1. unfold set_parameter at 1.
    destruct (IH (S i) {| parameters := Parameter_set (parameter desc) (pars !!! i) (parameters w);
                         log := log w; disk := disk w |}) as (p & ->).
    exists p. reflexivity.
Qed.

(** With a prior registered, the callback always returns. *)
Lemma negative_log_posterior_returns (self : LogPosterior) (pars : gsl_vector) (w : World) :
  _priors self <> [] ->
  exists value w', negative_log_posterior pars self w = (Returns value, w').
Proof.
  intros Hpriors. unfold negative_log_posterior.
  destruct (set_components_returns (_parameter_descriptions self) pars 0 w) as (p & Hset).
  rewrite (bind_Returns _ _ _ _ _ Hset).
  destruct (call_log_prior_returns self (with_parameters w p) Hpriors) as (lp & _ & Hlp).
  rewrite (bind_Returns _ _ _ _ _ Hlp).
  eexists _, _. reflexivity.
Qed.

(** So does every call into GSL. *)
Lemma call_gsl_returns {A : Type} (self : LogPosterior) (c : gsl_call A) :
  _priors self <> [] ->
  forall w : World, exists a w', call_gsl self c w = (Returns a, w').
Proof.
  intros Hpriors. induction c as [a | x k IH]; intros w; simpl.
  - eexists _, _. reflexivity.
  - destruct (negative_log_posterior_returns self x w Hpriors) as (value & w1 & Hvalue).
    rewrite (bind_Returns _ _ _ _ _ Hvalue). apply IH.
Qed.

Lemma run_minimizer_returns (self : LogPosterior) (options : OptimizationOptions) :
  _priors self <> [] ->
  forall (fuel iter : nat) (minim : gsl_multimin_fminimizer) (w : World),
    exists minim' w', run_minimizer fuel self options iter minim w = (Returns minim', w').
Proof.
  intros Hpriors. induction fuel as [| fuel IH]; intros iter minim w; simpl.
  - destruct (call_gsl_returns self (gsl_multimin_fminimizer_iterate minim) Hpriors w)
      as ([status minim1] & w1 & Hiterate).
    rewrite (bind_Returns _ _ _ _ _ Hiterate). simpl.
    destruct (negb (status =? 0)%Z); [eexists _, _; reflexivity |].
    unfold bind at 1. rewrite log_message_returns.
    destruct (gsl_multimin_test_size _ _ =? GSL_SUCCESS)%Z;
      destruct ((gsl_multimin_test_size _ _ =? GSL_CONTINUE)%Z
                && (S iter <? maximum_iterations options)%nat);
      eexists _, _; reflexivity.
  - destruct (call_gsl_returns self (gsl_multimin_fminimizer_iterate minim) Hpriors w)
      as ([status minim1] & w1 & Hiterate).
    rewrite (bind_Returns _ _ _ _ _ Hiterate). simpl.
    destruct (negb (status =? 0)%Z); [eexists _, _; reflexivity |].
    unfold bind at 1. rewrite log_message_returns.
    destruct (gsl_multimin_test_size _ _ =? GSL_SUCCESS)%Z;
      destruct ((gsl_multimin_test_size _ _ =? GSL_CONTINUE)%Z
                && (S iter <? maximum_iterations options)%nat).
    + unfold bind at 1. rewrite log_message_returns. apply IH.
    + eexists _, _. reflexivity.
    + unfold bind at 1. unfold ret at 1. apply IH.
    + eexists _, _. reflexivity.
Qed.

Lemma bind_ext {A B : Type} (c : M A) (k k' : A -> M B) (w : World) :
  (forall a w', k a w' = k' a w') -> bind c k w = bind c k' w.
Proof.
  intros Hk. unfold bind. destruct (c w) as [[a | e |] w']; [apply Hk | |]; reflexivity.
Qed.

(** The loop never runs out of [fuel]: started with at least
    [maximum_iterations - (iter + 1)] of it, the result does not depend on
    how much there is. *)
Lemma run_minimizer_fuel (self : LogPosterior) (options : OptimizationOptions) :
  forall (fuel fuel' iter : nat) (minim : gsl_multimin_fminimizer) (w : World),
    (maximum_iterations options - S iter <= fuel)%nat ->
    (maximum_iterations options - S iter <= fuel')%nat ->
    run_minimizer fuel self options iter minim w
    = run_minimizer fuel' self options iter minim w.
Proof.
  induction fuel as [| fuel IH]; intros [| fuel'] iter minim w Hfuel Hfuel'; simpl;
    try reflexivity.
  all: apply bind_ext; intros [status minim1] w1; simpl.
  all: destruct (negb (status =? 0)%Z); [reflexivity |].
  all: apply bind_ext; intros _ w2; apply bind_ext; intros _ w3.
  all: destruct ((gsl_multimin_test_size _ _ =? GSL_CONTINUE)%Z
                 && (S iter <? maximum_iterations options)%nat) eqn:Hcontinue;
    [| reflexivity].
  all: apply andb_true_iff in Hcontinue as [_ Hiter]; apply Nat.ltb_lt in Hiter.
  - lia.
  - lia.
  - apply IH; lia.
Qed.

(** The point copied out of the minimiser is its [x] when that has as many
    components as the initial guess. *)
Lemma copy_mode_same (initial_guess : list R) (x : gsl_vector) :
  length x = length initial_guess -> copy_mode initial_guess x = x.
Proof.
  intros Hlen. unfold copy_mode. apply list_eq. intros i.
  rewrite list_lookup_imap.
  destruct (initial_guess !! i) as [g |] eqn:Hg; simpl.
  - apply lookup_lt_Some in Hg. rewrite <- Hlen in Hg.
    destruct (lookup_lt_is_Some_2 x i Hg) as [v Hv].
    rewrite Hv. f_equal. apply list_lookup_total_correct. exact Hv.
  - apply lookup_ge_None in Hg. symmetry. apply lookup_ge_None. lia.
Qed.

(** C6: with an initial guess of the right dimension (and a prior
    registered, so that the posterior is defined) [optimize] evaluates the
    negated log-posterior at the initial guess, runs the minimiser and
    compares: when the value the minimiser ends with is not below the initial
    one it logs a warning and returns the initial guess with the negated
    initial value; otherwise it returns the minimiser's point with the
    negated value found. *)
Theorem optimize_compares_with_initial_guess (self : LogPosterior) (initial_guess : list R)
    (options : OptimizationOptions) (w : World) :
  length (parameter_descriptions self) = length initial_guess ->
  _priors self <> [] ->
  exists initial_minimum w0 minim0 w1 minim w2 w',
    negative_log_posterior initial_guess self w = (Returns initial_minimum, w0) /\
    call_gsl self
      (gsl_multimin_fminimizer_set (length (parameter_descriptions self)) initial_guess
         (map (fun d => (max d - min d) * initial_step_size options)
              (parameter_descriptions self))) w0
    = (Returns minim0, w1) /\
    run_minimizer (maximum_iterations options) self options 0 minim0 w1
    = (Returns minim, w2) /\
    optimize self initial_guess options w
    = (Returns (if XD.ge (minim_fval minim) initial_minimum
                then (initial_guess, XD.neg initial_minimum)
                else (copy_mode initial_guess (minim_x minim), XD.neg (minim_fval minim))),
       w') /\
    parameters w' = parameters w2 /\
    (XD.ge (minim_fval minim) initial_minimum = true ->
     log w' = log w2 ++ [{| log_context := "log_posterior.optimize";
                            log_level := ll_warning;
                            log_text :=
                              [Str "Simplex algorithm did not improve on initial guess"] |}]) /\
    (length (minim_x minim) = length initial_guess ->
     copy_mode initial_guess (minim_x minim) = minim_x minim).
Proof.
  unfold parameter_descriptions. intros Hlen Hpriors.
  destruct (negative_log_posterior_returns self initial_guess w Hpriors)
    as (initial_minimum & w0 & Hinitial).
  destruct (call_gsl_returns self
              (gsl_multimin_fminimizer_set (length (_parameter_descriptions self))
                 initial_guess
                 (map (fun d => (max d - min d) * initial_step_size options)
                      (_parameter_descriptions self))) Hpriors w0)
    as (minim0 & w1 & Hset).
  destruct (run_minimizer_returns self options Hpriors
              (maximum_iterations options) 0 minim0 w1)
    as (minim & w2 & Hrun).
  exists initial_minimum, w0, minim0, w1, minim, w2.
  unfold optimize.
  rewrite (proj2 (Nat.eqb_eq _ _) Hlen). cbn [negb].
  rewrite (bind_Returns _ _ _ _ _ Hinitial).
  rewrite (bind_Returns _ _ _ _ _ Hset).
  rewrite (bind_Returns _ _ _ _ _ Hrun).
  destruct (XD.ge (minim_fval minim) initial_minimum).
  - eexists. split; [exact Hinitial |]. split; [exact Hset |]. split; [exact Hrun |].
    split; [| split; [| split]].
    + unfold bind at 1. rewrite log_message_returns. reflexivity.
    + reflexivity.
    + intros _. reflexivity.
    + apply copy_mode_same.
  - eexists. split; [exact Hinitial |]. split; [exact Hset |]. split; [exact Hrun |].
    split; [| split; [| split]].
    + unfold bind at 1. rewrite log_message_returns. reflexivity.
    + reflexivity.
    + discriminate.
    + apply copy_mode_same.
Qed.

End OptimizeProperties.

Section OptimizeExample.
Local Open Scope R_scope.

(** Two flat priors and the guess [(0.5, 0.5)]. *)
Lemma optimize_compares_with_initial_guess_witness :
  exists result w',
    @optimize Example.hdf5 Example.multimin Example.two_parameters [0.5; 0.5]
      OptimizationOptions_Defaults Example.world
    = (Returns result, w').
Proof.
  destruct (@optimize_compares_with_initial_guess Example.hdf5 Example.multimin
              Example.two_parameters [0.5; 0.5] OptimizationOptions_Defaults Example.world)
    as (initial_minimum & w0 & minim0 & w1 & minim & w2 & w' & _ & _ & _ & Hcall & _).
  { reflexivity. }
  { discriminate. }
  eexists _, w'. exact Hcall.
Defined.

End OptimizeExample.

(** * Further properties *)

(** ** Further properties of the priors *)

Lemma Parameter_evaluate_set (name : string) (value : R) (parameters : Parameters) :
  Parameter_evaluate name (Parameter_set name value parameters) = value.
Proof. apply lookup_total_insert_eq. Qed.

Lemma Parameter_evaluate_set_other (name other : string) (value : R)
    (parameters : Parameters) :
  other <> name ->
  Parameter_evaluate other (Parameter_set name value parameters)
  = Parameter_evaluate other parameters.
Proof. intros Hother. apply lookup_total_insert_ne. congruence. Qed.

Section FlatProperties.
Local Open Scope R_scope.

Lemma LogPrior_Flat_returns (name : string) (range : ParameterRange) :
  range_min range < range_max range ->
  exists p,
    LogPrior_Flat name range = Returns (IsFlat p) /\
    Flat._name p = name /\ Flat._range p = range /\
    Flat._value p = ln (1 / (range_max range - range_min range)) /\
    Flat._parameter_descriptions_front p
      = {| parameter := name; min := range_min range; max := range_max range;
           nuisance := false |}.
Proof.
  intros Hrange. unfold LogPrior_Flat, Flat.make.
  rewrite bool_decide_eq_false_2 by lra.
  eexists. split; [reflexivity |]. simpl. repeat split; reflexivity.
Qed.

(** X1: [LogPrior::Flat] with [min < max] returns a prior whose value is
    the same at all parameter values, and the density [exp (value)] is the
    uniform one: times the width of the range it gives 1. *)
Theorem Flat_density_uniform (name : string) (range : ParameterRange) :
  range_min range < range_max range ->
  exists prior value,
    LogPrior_Flat name range = Returns prior /\
    (forall parameters, LogPrior_call prior parameters = Finite value) /\
    exp value * (range_max range - range_min range) = 1.
Proof.
  intros Hrange.
  destruct (LogPrior_Flat_returns name range Hrange) as (p & -> & _ & _ & Hvalue & _).
  exists (IsFlat p), (Flat._value p). split; [reflexivity |]. split.
  - intros parameters. reflexivity.
  - rewrite Hvalue. rewrite exp_ln.
    + field. lra.
    + apply Rdiv_lt_0_compat; lra.
Qed.

(** X2: [Flat::sample] with a draw [u] in the unit interval puts the
    parameter inside the range the prior describes and leaves every other
    parameter alone. *)
Theorem Flat_sample_in_range (name : string) (range : ParameterRange) (p : Flat.t)
    (u : R) (parameters : Parameters) :
  LogPrior_Flat name range = Returns (IsFlat p) ->
  0 <= u <= 1 ->
  let d := Flat._parameter_descriptions_front p in
  let sampled := Flat_sample p u parameters in
  min d <= Parameter_evaluate (parameter d) sampled <= max d /\
  (forall other, other <> parameter d ->
     Parameter_evaluate other sampled = Parameter_evaluate other parameters).
Proof.
  intros Hmake Hu. unfold LogPrior_Flat, Flat.make in Hmake.
  destruct (bool_decide_reflect (range_min range >= range_max range)) as [|Hrange];
    [discriminate |].
  injection Hmake as <-. simpl.
  unfold Flat_sample, Parameter_evaluate, Parameter_set. simpl. split.
  - rewrite lookup_total_insert_eq. nra.
  - intros other Hother. rewrite lookup_total_insert_ne by congruence. reflexivity.
Qed.

End FlatProperties.

Lemma Flat_density_uniform_witness :
  exists prior value,
    LogPrior_Flat "a" Example.unit_interval = Returns prior /\
    (forall parameters, LogPrior_call prior parameters = Finite value) /\
    (exp value * (range_max Example.unit_interval - range_min Example.unit_interval) = 1)%R.
Proof. apply Flat_density_uniform. simpl. lra. Defined.

Section ScaleSampling.
Local Open Scope R_scope.

Lemma Rpower_between (lambda y : R) :
  1 < lambda -> -1 <= y <= 1 -> / lambda <= Rpower lambda y <= lambda.
Proof.
  intros Hlambda [Hlo Hhi]. split.
  - replace (/ lambda) with (Rpower lambda (- (1))).
    + apply Rle_Rpower; lra.
    + rewrite Rpower_Ropp, Rpower_1 by lra. reflexivity.
  - rewrite <- (Rpower_1 lambda) at 2 by lra.
    apply Rle_Rpower; lra.
Qed.

(** X3: [Scale::sample] with a draw [u] in the unit interval puts the
    parameter inside [mu_0 / lambda, mu_0 * lambda], the range the prior
    describes, so that the prior evaluated at the sample is finite, never
    minus infinity. *)
Theorem Scale_sample_in_range (name : string) (range : ParameterRange) (mu_0 lambda : R)
    (u : R) (parameters : Parameters) :
  mu_0 > 0 -> lambda > 1 -> 0 <= u <= 1 ->
  let p := Scale.make name range mu_0 lambda in
  let d := Scale._parameter_descriptions_front p in
  let sampled := Scale_sample p u parameters in
  let x := Parameter_evaluate (parameter d) sampled in
  LogPrior_Scale name range mu_0 lambda = Returns (IsScale p) /\
  min d <= x <= max d /\
  LogPrior_call (IsScale p) sampled = Finite (1 / (2 * ln lambda * x)).
Proof.
  intros Hmu Hlambda Hu p d sampled x.
  split; [apply LogPrior_Scale_returns; assumption |].
  assert (Hx : x = mu_0 * Rpower lambda (2 * u - 1)).
  { unfold x, sampled, Scale_sample, Parameter_evaluate, Parameter_set. simpl.
    apply lookup_total_insert_eq. }
  assert (Hpow : / lambda <= Rpower lambda (2 * u - 1) <= lambda)
    by (apply Rpower_between; lra).
  assert (Hrange : mu_0 / lambda <= x <= mu_0 * lambda).
  { rewrite Hx. unfold Rdiv. split; apply Rmult_le_compat_l; lra. }
  split; [exact Hrange |].
  simpl. apply (Scale_call_in_range p sampled). exact Hrange.
Qed.

End ScaleSampling.

Section CurtailedGaussShape.
Context `{GslCdf} `{GslCdfInverse}.
Local Open Scope R_scope.

Lemma LogPrior_CurtailedGauss_inv (name : string) (range : ParameterRange)
    (lower central upper : R) (prior : LogPrior) :
  LogPrior_CurtailedGauss name range lower central upper = Returns prior ->
  exists p,
    prior = IsCurtailedGauss p /\
    lower < central /\ central < upper /\ range_min range < range_max range /\
    CurtailedGauss.make name range lower central upper = Returns p.
Proof.
  unfold LogPrior_CurtailedGauss.
  destruct (bool_decide_reflect (lower >= central)); [discriminate |].
  destruct (bool_decide_reflect (upper <= central)); [discriminate |].
  destruct (CurtailedGauss.make name range lower central upper) as [q| |] eqn:Hmake;
    simpl; try discriminate.
  intros [= <-]. exists q. repeat split; try lra.
  unfold CurtailedGauss.make in Hmake.
  destruct (bool_decide_reflect (range_min range >= range_max range));
    [discriminate | lra].
Qed.

Lemma CurtailedGauss_make_coefficients (name : string) (range : ParameterRange)
    (lower central upper : R) (p : CurtailedGauss.t) :
  CurtailedGauss.make name range lower central upper = Returns p ->
  CurtailedGauss._name p = name /\
  CurtailedGauss._c_a p
    = 1 / ((central - lower) / (upper - central)
             * (0.5 - gsl_cdf_gaussian_P (range_min range - central) (central - lower))
           + gsl_cdf_gaussian_P (range_max range - central) (upper - central) - 0.5) /\
  CurtailedGauss._prob_lower p
    = CurtailedGauss._c_b p
      * (0.5 - gsl_cdf_gaussian_P (range_min range - central) (central - lower)).
Proof.
  unfold CurtailedGauss.make.
  destruct (bool_decide (range_min range >= range_max range)); [discriminate |].
  intros [= <-]. simpl. repeat split; reflexivity.
Qed.

Lemma CurtailedGauss_norms_finite (name : string) (range : ParameterRange)
    (lower central upper : R) (p : CurtailedGauss.t) :
  lower < central -> central < upper ->
  CurtailedGauss.make name range lower central upper = Returns p ->
  0 < CurtailedGauss._c_a p ->
  CurtailedGauss._norm_lower p
  = Finite (ln (CurtailedGauss._c_a p / (sqrt (2 * PI) * (upper - central)))) /\
  CurtailedGauss._norm_upper p
  = Finite (ln (CurtailedGauss._c_a p / (sqrt (2 * PI) * (upper - central)))).
Proof.
  intros Hlower Hupper Hmake Hca.
  destruct (CurtailedGauss_make_fields _ _ _ _ _ _ Hmake)
    as (_ & _ & Hsl & Hsu & Hcb & Hnl & Hnu).
  pose proof sqrt_2_PI_pos as Hs.
  assert (Hlow : CurtailedGauss._c_b p / sqrt (2 * PI) / CurtailedGauss._sigma_lower p
                 = CurtailedGauss._c_a p / (sqrt (2 * PI) * (upper - central))).
  { rewrite Hcb, Hsl, Hsu. field. repeat split; lra. }
  assert (Hup : CurtailedGauss._c_a p / sqrt (2 * PI) / CurtailedGauss._sigma_upper p
                = CurtailedGauss._c_a p / (sqrt (2 * PI) * (upper - central))).
  { rewrite Hsu. field. split; lra. }
  assert (Hpositive : 0 < CurtailedGauss._c_a p / (sqrt (2 * PI) * (upper - central))).
  { apply Rdiv_lt_0_compat; [exact Hca |]. apply Rmult_lt_0_compat; lra. }
  rewrite Hnl, Hnu, Hlow, Hup. unfold XD.log.
  rewrite bool_decide_eq_true_2 by exact Hpositive. split; reflexivity.
Qed.


Lemma CurtailedGauss_density_finite (p : CurtailedGauss.t) (norm : R) :
  CurtailedGauss._norm_lower p = Finite norm ->
  CurtailedGauss._norm_upper p = Finite norm ->
  forall x, CurtailedGauss.density p x = Finite (CurtailedGauss_parabolas norm p x).
Proof.
  intros Hnl Hnu x. unfold CurtailedGauss.density, CurtailedGauss_parabolas.
  rewrite Hnl, Hnu. destruct (bool_decide (x < CurtailedGauss._central p)); reflexivity.
Qed.




(** X4: the density of a [CurtailedGauss] prior with a positive coefficient
    [_c_a] has its maximum at the central value: its value at any parameter
    value is at most the value at [central], with equality only at
    [central]. *)
Theorem CurtailedGauss_mode (name : string) (range : ParameterRange)
    (lower central upper : R) (p : CurtailedGauss.t) (parameters : Parameters) :
  LogPrior_CurtailedGauss name range lower central upper = Returns (IsCurtailedGauss p) ->
  0 < CurtailedGauss._c_a p ->
  exists v m,
    LogPrior_call (IsCurtailedGauss p) parameters = Finite v /\
    LogPrior_call (IsCurtailedGauss p) (Parameter_set name central parameters) = Finite m /\
    v <= m /\
    (v = m -> Parameter_evaluate name parameters = central).
Proof.
  intros Hfactory Hca.
  destruct (LogPrior_CurtailedGauss_inv _ _ _ _ _ _ Hfactory)
    as (q & [= <-] & Hlower & Hupper & _ & Hmake).
  destruct (CurtailedGauss_norms_finite _ _ _ _ _ _ Hlower Hupper Hmake Hca) as [Hnl Hnu].
  destruct (CurtailedGauss_make_fields _ _ _ _ _ _ Hmake)
    as (Hname & Hcentral & Hsl & Hsu & _).
  simpl. unfold CurtailedGauss.call.
  rewrite !(CurtailedGauss_density_finite p _ Hnl Hnu).
  do 2 eexists. split; [reflexivity |]. split; [reflexivity |].
  unfold CurtailedGauss_parabolas. rewrite Hname, Parameter_evaluate_set.
  rewrite Hcentral, Hsl, Hsu.
  rewrite (bool_decide_eq_false_2 (central < central)) by lra.
  set (x := Parameter_evaluate name parameters).
  set (norm := ln (CurtailedGauss._c_a p / (sqrt (2 * PI) * (upper - central)))).
  unfold power_of_2.
  replace ((central - central) / (upper - central)) with 0 by (field; lra).
  destruct (bool_decide_reflect (x < central)) as [Hx | Hx].
  - assert (Hq : (x - central) / (central - lower) < 0).
    { apply Ropp_lt_cancel. rewrite Ropp_0.
      replace (- ((x - central) / (central - lower)))
        with ((central - x) / (central - lower)) by (field; lra).
      apply Rdiv_lt_0_compat; lra. }
    split; [nra |]. intros Heq. nra.
  - destruct (Req_dec x central) as [-> | Hne].
    + split; [| reflexivity].
      replace ((central - central) / (upper - central)) with 0 by (field; lra). lra.
    + assert (Hq : 0 < (x - central) / (upper - central))
        by (apply Rdiv_lt_0_compat; lra).
      split; [nra |]. intros Heq. nra.
Qed.

(** X5: the coefficients [_c_a] and [_c_b] of a [CurtailedGauss] prior make
    the mass below the central value, which is [_prob_lower], and the mass
    above it add up to one, whenever the denominator of [_c_a] is not zero. *)
Theorem CurtailedGauss_total_mass (name : string) (range : ParameterRange)
    (lower central upper : R) (p : CurtailedGauss.t) :
  let P_min := gsl_cdf_gaussian_P (range_min range - central) (central - lower) in
  let P_max := gsl_cdf_gaussian_P (range_max range - central) (upper - central) in
  LogPrior_CurtailedGauss name range lower central upper = Returns (IsCurtailedGauss p) ->
  (central - lower) / (upper - central) * (0.5 - P_min) + P_max - 0.5 <> 0 ->
  CurtailedGauss._prob_lower p = CurtailedGauss._c_b p * (0.5 - P_min) /\
  CurtailedGauss._prob_lower p + CurtailedGauss._c_a p * (P_max - 0.5) = 1.
Proof.
  intros P_min P_max Hfactory Hden.
  destruct (LogPrior_CurtailedGauss_inv _ _ _ _ _ _ Hfactory)
    as (q & [= <-] & Hlower & Hupper & _ & Hmake).
  destruct (CurtailedGauss_make_fields _ _ _ _ _ _ Hmake)
    as (_ & _ & Hsl & Hsu & Hcb & _).
  destruct (CurtailedGauss_make_coefficients _ _ _ _ _ _ Hmake) as (_ & Hca & Hprob).
  fold P_min in Hprob. fold P_min P_max in Hca.
  split; [exact Hprob |].
  rewrite Hprob, Hcb, Hsl, Hsu, Hca.
  remember ((central - lower) / (upper - central)) as r eqn:Hr.
  remember (r * (0.5 - P_min) + P_max - 0.5) as D eqn:HD.
  replace (r * (1 / D) * (0.5 - P_min) + 1 / D * (P_max - 0.5))
    with ((r * (0.5 - P_min) + P_max - 0.5) / D) by (field; exact Hden).
  rewrite <- HD. field. exact Hden.
Qed.

(** X6: [CurtailedGauss::sample] lands on the side of the central value
    that the draw selects: below [central] exactly when the draw is below
    [_prob_lower].  The inverse distribution function is assumed to be
    negative below one half and non-negative from one half on, and the
    coefficient [_c_a] to be positive. *)
Theorem CurtailedGauss_sample_side (name : string) (range : ParameterRange)
    (lower central upper : R) (p : CurtailedGauss.t) (u : R) (parameters : Parameters) :
  LogPrior_CurtailedGauss name range lower central upper = Returns (IsCurtailedGauss p) ->
  (forall P sigma, 0 < sigma -> P < 0.5 -> gsl_cdf_gaussian_Pinv P sigma < 0) ->
  (forall P sigma, 0 < sigma -> 0.5 <= P -> 0 <= gsl_cdf_gaussian_Pinv P sigma) ->
  0 < CurtailedGauss._c_a p ->
  let x := Parameter_evaluate name (CurtailedGauss_sample p u parameters) in
  (u < CurtailedGauss._prob_lower p -> x < central) /\
  (CurtailedGauss._prob_lower p <= u -> central <= x).
Proof.
  intros Hfactory Hneg Hpos Hca x.
  destruct (LogPrior_CurtailedGauss_inv _ _ _ _ _ _ Hfactory)
    as (q & [= <-] & Hlower & Hupper & _ & Hmake).
  destruct (CurtailedGauss_make_fields _ _ _ _ _ _ Hmake)
    as (_ & Hcentral & Hsl & Hsu & Hcb & _).
  destruct (CurtailedGauss_make_coefficients _ _ _ _ _ _ Hmake) as (Hname & _ & _).
  assert (Hcb_pos : 0 < CurtailedGauss._c_b p).
  { rewrite Hcb, Hsl, Hsu. apply Rmult_lt_0_compat; [| exact Hca].
    apply Rdiv_lt_0_compat; lra. }
  unfold x, CurtailedGauss_sample, Parameter_evaluate, Parameter_set.
  rewrite Hname, Hcentral, Hsl, Hsu.
  split; intros Hu.
  - rewrite bool_decide_eq_true_2 by exact Hu.
    rewrite lookup_total_insert_eq.
    assert (Hq : (u - CurtailedGauss._prob_lower p) / CurtailedGauss._c_b p < 0).
    { apply Ropp_lt_cancel. rewrite Ropp_0.
      replace (- ((u - CurtailedGauss._prob_lower p) / CurtailedGauss._c_b p))
        with ((CurtailedGauss._prob_lower p - u) / CurtailedGauss._c_b p)
        by (field; lra).
      apply Rdiv_lt_0_compat; lra. }
    pose proof (Hneg ((u - CurtailedGauss._prob_lower p) / CurtailedGauss._c_b p + 0.5)
                  (central - lower)). lra.
  - rewrite bool_decide_eq_false_2 by lra.
    rewrite lookup_total_insert_eq.
    assert (Hq : 0 <= (u - CurtailedGauss._prob_lower p) / CurtailedGauss._c_a p).
    { apply Rle_mult_inv_pos; lra. }
    pose proof (Hpos ((u - CurtailedGauss._prob_lower p) / CurtailedGauss._c_a p + 0.5)
                  (upper - central)). lra.
Qed.

End CurtailedGaussShape.

Section SampleFrame.
Context `{GslCdf} `{GslLinalg} `{GslCdfInverse}.
Local Open Scope R_scope.

Lemma set_pairs_other (l : list (string * R)) (other : string) :
  forall parameters,
    other ∉ map fst l ->
    Parameter_evaluate other
      (foldl (fun parameters a => Parameter_set (fst a) (snd a) parameters) parameters l)
    = Parameter_evaluate other parameters.
Proof.
  induction l as [| a l IH]; intros parameters Hother; [reflexivity |].
  simpl in *. rewrite IH.
  - apply Parameter_evaluate_set_other. intros ->. apply Hother. left.
  - intros Hin. apply Hother. right. exact Hin.
Qed.

Lemma MultivariateGaussian_make_fields (names : list string) (mean : gsl_vector)
    (covariance : gsl_matrix) (p : MultivariateGaussian.t) :
  MultivariateGaussian.make names mean covariance = Returns p ->
  size1 covariance = size2 covariance /\
  size1 covariance = length mean /\
  length names = length mean /\
  MultivariateGaussian._parameters p = names /\
  MultivariateGaussian._dim p = length names /\
  MultivariateGaussian._mean p = mean /\
  MultivariateGaussian._norm p = MultivariateGaussian.compute_norm (length names) covariance /\
  MultivariateGaussian._parameter_descriptions p
    = map (fun n => {| parameter := n; min := - DBL_MAX; max := DBL_MAX;
                       nuisance := false |}) names /\
  exists chol,
    GSL_LINALG_CHOLESKY_DECOMP covariance = Some chol /\
    MultivariateGaussian._chol p = MultivariateGaussian.zero_upper (length names) chol.
Proof.
  unfold MultivariateGaussian.make.
  destruct (size1 covariance =? size2 covariance)%nat eqn:E1; [| discriminate].
  destruct (size1 covariance =? length mean)%nat eqn:E2; [| discriminate].
  destruct (length names =? length mean)%nat eqn:E3; [| discriminate].
  cbn [negb].
  destruct (GSL_LINALG_CHOLESKY_DECOMP covariance) as [chol |]; [| discriminate].
  destruct (gsl_linalg_cholesky_invert chol); [| discriminate].
  intros [= <-]. simpl.
  apply Nat.eqb_eq in E1, E2, E3.
  repeat split; try assumption. exists chol. split; reflexivity.
Qed.

Lemma LogPrior_MultivariateGaussian_inv (names : list string) (mean : gsl_vector)
    (covariance : gsl_matrix) (prior : LogPrior) :
  LogPrior_MultivariateGaussian names mean covariance = Returns prior ->
  exists p,
    prior = IsMultivariateGaussian p /\
    MultivariateGaussian.make names mean covariance = Returns p.
Proof.
  unfold LogPrior_MultivariateGaussian.
  destruct (MultivariateGaussian.make names mean covariance) as [p| |];
    simpl; try discriminate.
  intros [= <-]. exists p. split; reflexivity.
Qed.

(** X7: [sample] of a prior that a factory returned changes the values of
    the prior's own parameters only. *)
Theorem sample_changes_own_parameters (prior : LogPrior) (u : nat -> R)
    (parameters : Parameters) (other : string) :
  constructed prior ->
  other ∉ names_of prior ->
  Parameter_evaluate other (LogPrior_sample prior u parameters)
  = Parameter_evaluate other parameters.
Proof.
  intros Hconstructed Hother. unfold names_of in Hother.
  destruct Hconstructed as [name range prior Hf | name range lower central upper prior Hf
                           | name range mu_0 lambda prior Hf
                           | names mean covariance prior Hf].
  - unfold LogPrior_Flat, Flat.make in Hf.
    destruct (bool_decide (range_min range >= range_max range)); [discriminate |].
    injection Hf as <-. simpl in *.
    apply Parameter_evaluate_set_other. intros ->. apply Hother. left.
  - destruct (LogPrior_CurtailedGauss_inv _ _ _ _ _ _ Hf) as (p & -> & _ & _ & _ & Hmake).
    destruct (CurtailedGauss_make_fields _ _ _ _ _ _ Hmake) as (Hfront & _).
    destruct (CurtailedGauss_make_coefficients _ _ _ _ _ _ Hmake) as (Hname & _).
    simpl in *. rewrite Hfront in Hother.
    unfold CurtailedGauss_sample. rewrite Hname.
    destruct (bool_decide _);
      apply Parameter_evaluate_set_other; intros ->; apply Hother; left.
  - unfold LogPrior_Scale in Hf.
    destruct (bool_decide (mu_0 <= 0)); [discriminate |].
    destruct (bool_decide (lambda <= 1)); [discriminate |].
    injection Hf as <-. simpl in *.
    apply Parameter_evaluate_set_other. intros ->. apply Hother. left.
  - destruct (LogPrior_MultivariateGaussian_inv _ _ _ _ Hf) as (p & -> & Hmake).
    destruct (MultivariateGaussian_make_fields _ _ _ _ Hmake)
      as (_ & _ & _ & Hparameters & Hdim & _ & _ & Hdescs & _).
    simpl in *. rewrite Hdescs in Hother. rewrite map_map in Hother. simpl in Hother.
    rewrite map_id in Hother.
    unfold MultivariateGaussian_sample. apply set_pairs_other.
    rewrite Hparameters, Hdim. intros Hin. apply Hother.
    apply list_elem_of_fmap in Hin as [[n v] [-> Hin]]. simpl.
    apply elem_of_lookup_imap in Hin as (i & n' & [= Hn _] & Hlookup).
    rewrite Hn. apply list_elem_of_lookup. exists i.
    apply lookup_take_Some in Hlookup. apply Hlookup.
Qed.

End SampleFrame.

Section MultivariateGaussianProperties.
Context `{GslLinalg}.
Local Open Scope R_scope.

Lemma gsl_blas_ddot_zero (x y : gsl_vector) :
  Forall (fun v => v = 0) x -> MultivariateGaussian.gsl_blas_ddot x y = 0.
Proof.
  unfold MultivariateGaussian.gsl_blas_ddot.
  intros Hx. revert y. induction Hx as [| v x Hv Hx IH]; intros y; [reflexivity |].
  destruct y as [| w y]; [reflexivity |]. simpl. rewrite IH, Hv. lra.
Qed.

Lemma centred_at_mean (names : list string) (mean : gsl_vector) (parameters : Parameters) :
  Forall2 (fun n m => Parameter_evaluate n parameters = m) names mean ->
  Forall (fun v => v = 0)
    (zip_with Rminus mean (map (fun n => Parameter_evaluate n parameters) names)).
Proof.
  induction 1 as [| n m names mean Hn Hrest IH]; simpl; constructor.
  - rewrite Hn. lra.
  - exact IH.
Qed.

(** X8: at the mean, the value of a [MultivariateGaussian] prior is its
    normalisation constant: [chi_square] vanishes when every parameter has
    the value of its component of [mean]. *)
Theorem MultivariateGaussian_at_mean (names : list string) (mean : gsl_vector)
    (covariance : gsl_matrix) (prior : LogPrior) (parameters : Parameters) :
  LogPrior_MultivariateGaussian names mean covariance = Returns prior ->
  Forall2 (fun n m => Parameter_evaluate n parameters = m) names mean ->
  LogPrior_call prior parameters
  = Finite (MultivariateGaussian.compute_norm (length names) covariance).
Proof.
  intros Hf Hmean.
  destruct (LogPrior_MultivariateGaussian_inv _ _ _ _ Hf) as (p & -> & Hmake).
  destruct (MultivariateGaussian_make_fields _ _ _ _ Hmake)
    as (_ & _ & _ & Hparameters & Hdim & Hm & Hnorm & _).
  simpl. unfold MultivariateGaussian.call.
  rewrite Hparameters, Hdim, Hm, Hnorm, take_ge by lia.
  rewrite gsl_blas_ddot_zero by (apply centred_at_mean; exact Hmean).
  f_equal. lra.
Qed.

(** X9: the Cholesky factor a [MultivariateGaussian] prior keeps is lower
    triangular: the constructor sets every entry above the diagonal, within
    the prior's dimension, to zero. *)
Theorem MultivariateGaussian_chol_lower_triangular (names : list string)
    (mean : gsl_vector) (covariance : gsl_matrix) (p : MultivariateGaussian.t)
    (i j : nat) (row : list R) (x : R) :
  MultivariateGaussian.make names mean covariance = Returns p ->
  (i < j < MultivariateGaussian._dim p)%nat ->
  rows (MultivariateGaussian._chol p) !! i = Some row ->
  row !! j = Some x ->
  x = 0.
Proof.
  intros Hmake [Hij Hj] Hrow Hx.
  destruct (MultivariateGaussian_make_fields _ _ _ _ Hmake)
    as (_ & _ & _ & _ & Hdim & _ & _ & _ & chol & _ & Hchol).
  rewrite Hchol in Hrow. rewrite Hdim in Hj. simpl in Hrow.
  rewrite list_lookup_imap in Hrow.
  destruct (rows chol !! i) as [row' |]; [| discriminate].
  injection Hrow as <-.
  rewrite list_lookup_imap in Hx.
  destruct (row' !! j) as [x' |]; [| discriminate].
  injection Hx as <-.
  replace (i <? length names)%nat with true by (symmetry; apply Nat.ltb_lt; lia).
  replace (i <? j)%nat with true by (symmetry; apply Nat.ltb_lt; lia).
  replace (j <? length names)%nat with true by (symmetry; apply Nat.ltb_lt; lia).
  reflexivity.
Qed.

(** X10: when [LogPrior::MultivariateGaussian] returns, the checks of the
    constructor have passed: the covariance matrix is square with as many
    rows as there are names and components of the mean, and the prior
    describes the names in order, each with the range [-DBL_MAX, DBL_MAX]
    and not as a nuisance parameter. *)
Theorem LogPrior_MultivariateGaussian_checks (names : list string) (mean : gsl_vector)
    (covariance : gsl_matrix) (prior : LogPrior) :
  LogPrior_MultivariateGaussian names mean covariance = Returns prior ->
  size1 covariance = length names /\ size2 covariance = length names /\
  length mean = length names /\
  LogPrior_descriptions prior
  = map (fun n => {| parameter := n; min := - DBL_MAX; max := DBL_MAX;
                     nuisance := false |}) names.
Proof.
  intros Hf.
  destruct (LogPrior_MultivariateGaussian_inv _ _ _ _ Hf) as (p & -> & Hmake).
  destruct (MultivariateGaussian_make_fields _ _ _ _ Hmake)
    as (E1 & E2 & E3 & _ & _ & _ & _ & Hdescs & _).
  simpl. rewrite Hdescs. repeat split; lia.
Qed.

End MultivariateGaussianProperties.

(** ** Further properties of the posterior *)

Section PriorValues.
Context `{GslCdf} `{GslLinalg} `{Declarations}.
Local Open Scope R_scope.

Lemma add_vetoed (a b : xdouble) :
  a = NegInf \/ a = NaN -> XD.add a b = NegInf \/ XD.add a b = NaN.
Proof. intros [-> | ->]; destruct b; simpl; auto. Qed.

Lemma add_veto (a : xdouble) : XD.add a NegInf = NegInf \/ XD.add a NegInf = NaN.
Proof. destruct a; simpl; auto. Qed.

Lemma log_prior_sum_vetoed (priors : list LogPrior) (parameters : Parameters) :
  forall acc : xdouble,
    acc = NegInf \/ acc = NaN ->
    let v := foldl (fun result _prior => XD.add result (LogPrior_call _prior parameters))
                   acc priors in
    v = NegInf \/ v = NaN.
Proof.
  induction priors as [| prior priors IH]; intros acc Hacc; simpl; [exact Hacc |].
  apply IH. apply add_vetoed. exact Hacc.
Qed.

Lemma log_prior_sum_veto (priors : list LogPrior) (parameters : Parameters) :
  Exists (fun prior => LogPrior_call prior parameters = NegInf) priors ->
  forall acc : xdouble,
    let v := foldl (fun result _prior => XD.add result (LogPrior_call _prior parameters))
                   acc priors in
    v = NegInf \/ v = NaN.
Proof.
  induction 1 as [prior priors Hcall | prior priors Hrest IH]; intros acc; simpl.
  - apply log_prior_sum_vetoed. rewrite Hcall. apply add_veto.
  - apply IH.
Qed.

(** X11: [log_prior ()] throws exactly for a posterior without priors.
    When the parameter of some owned [Scale] prior lies outside the range of
    that prior, the sum it returns is not a finite number: it is minus
    infinity or NaN, whatever the other priors contribute. *)
Theorem log_prior_scale_out_of_range (self : LogPosterior) (parameters : Parameters) :
  match log_prior self parameters with
  | Returns v =>
      _priors self <> [] /\
      (Exists (fun prior =>
                 exists p,
                   prior = IsScale p /\
                   let x := Parameter_evaluate
                              (parameter (Scale._parameter_descriptions_front p))
                              parameters in
                   x < Scale._min p \/ Scale._max p < x)
              (_priors self) ->
       v = NegInf \/ v = NaN)
  | Throws _ => _priors self = []
  | Undefined => False
  end.
Proof.
  unfold log_prior. destruct (_priors self) as [| prior priors] eqn:Hpriors;
    [reflexivity |].
  split; [discriminate |]. intros Hout.
  apply log_prior_sum_veto. eapply Exists_impl; [exact Hout |].
  intros candidate (p & -> & Hx). simpl. apply Scale_call_out_of_range. exact Hx.
Qed.

End PriorValues.

Section IndexProperties.
Context `{GslCdf} `{GslLinalg} `{Declarations}.

Lemma index_from_spec (name : string) (ds : list ParameterDescription) :
  forall start : nat,
    match index_from name ds start with
    | Returns i =>
        exists k d, i = (start + k)%nat /\ ds !! k = Some d /\ parameter d = name /\
                    (name ∉ map parameter (take k ds))
    | Throws e => (name ∉ map parameter ds) /\ exists message, e = InternalError message
    | Undefined => False
    end.
Proof.
  induction ds as [| d ds IH]; intros start; simpl.
  - split; [apply not_elem_of_nil | eexists; reflexivity].
  - destruct (bool_decide_reflect (name = parameter d)) as [-> | Hne].
    + exists 0%nat, d. rewrite Nat.add_0_r. repeat split. apply not_elem_of_nil.
    + specialize (IH (S start)).
      destruct (index_from name ds (S start)) as [i | e |]; [| | exact IH].
      * destruct IH as (k & d' & -> & Hlookup & Hname & Hfirst).
        exists (S k), d'. split; [lia |]. split; [exact Hlookup |].
        split; [exact Hname |]. simpl. intros Hin.
        apply elem_of_cons in Hin as [Heq | Hin]; [congruence | exact (Hfirst Hin)].
      * destruct IH as [Hnot Hmessage]. split; [| exact Hmessage].
        intros Hin. apply elem_of_cons in Hin as [Heq | Hin]; [congruence | exact (Hnot Hin)].
Qed.

Lemma index_from_first (name : string) (ds : list ParameterDescription) (k : nat)
    (d : ParameterDescription) :
  forall start : nat,
    ds !! k = Some d -> parameter d = name -> name ∉ map parameter (take k ds) ->
    index_from name ds start = Returns (start + k)%nat.
Proof.
  revert k. induction ds as [| d' ds IH]; intros k start Hlookup Hname Hfirst;
    [discriminate |].
  simpl. destruct k as [| k]; simpl in *.
  - injection Hlookup as ->. rewrite bool_decide_eq_true_2 by congruence.
    rewrite Nat.add_0_r. reflexivity.
  - rewrite bool_decide_eq_false_2.
    + rewrite (IH k (S start) Hlookup Hname).
      * f_equal. lia.
      * intros Hin. apply Hfirst. right. exact Hin.
    + intros Heq. apply Hfirst. rewrite Heq. left.
Qed.

(** X12: [index (name)] returns the first position whose description
    carries the name, and [nuisance (name)] returns the flag stored there:
    the position is always inside the vector, so the branch of [nuisance]
    for an index past the end is never taken.  For a name that no
    description carries both throw the same [InternalError]. *)
Theorem index_first_position (self : LogPosterior) (name : string) :
  match index self name with
  | Returns i =>
      exists d,
        _parameter_descriptions self !! i = Some d /\ parameter d = name /\
        (name ∉ map parameter (take i (_parameter_descriptions self))) /\
        LogPosterior_nuisance self name = Returns (nuisance d)
  | Throws e =>
      (name ∉ map parameter (_parameter_descriptions self)) /\
      (exists message, e = InternalError message) /\
      LogPosterior_nuisance self name = Throws e
  | Undefined => False
  end.
Proof.
  unfold LogPosterior_nuisance.
  pose proof (index_from_spec name (_parameter_descriptions self) 0) as Hspec.
  unfold index. destruct (index_from name (_parameter_descriptions self) 0) as [i | e |].
  - destruct Hspec as (k & d & -> & Hlookup & Hname & Hfirst). simpl.
    exists d. repeat split; try assumption.
    rewrite Hlookup.
    replace (length (_parameter_descriptions self) <=? k)%nat with false; [reflexivity |].
    symmetry. apply Nat.leb_gt. apply lookup_lt_Some in Hlookup. exact Hlookup.
  - destruct Hspec as [Hnot Hmessage]. repeat split; assumption.
  - exact Hspec.
Qed.

(** X13: in a posterior that the constructor, [add] and [clone] produced,
    [index] and [operator[]] are inverse to each other: the name at position
    [i] has index [i], and [nuisance] of that name is the flag at position
    [i]. *)
Theorem index_of_position (self : LogPosterior) (i : nat) (d : ParameterDescription) :
  reachable self ->
  _parameter_descriptions self !! i = Some d ->
  LogPosterior_subscript self i = Returns (parameter d) /\
  index self (parameter d) = Returns i /\
  LogPosterior_nuisance self (parameter d) = Returns (nuisance d).
Proof.
  intros Hreachable Hlookup.
  destruct (reachable_names_consistent self Hreachable) as [Hdistinct _].
  assert (Hindex : index self (parameter d) = Returns i).
  { unfold index.
    rewrite (index_from_first (parameter d) (_parameter_descriptions self) i d 0 Hlookup
               eq_refl); [reflexivity |].
    intros Hin. apply list_elem_of_lookup in Hin as [j Hj].
    rewrite list_lookup_fmap in Hj.
    destruct (take i (_parameter_descriptions self) !! j) as [d' |] eqn:Hd';
      [| discriminate].
    injection Hj as Hj.
    apply lookup_take_Some in Hd' as [Hd' Hlt].
    assert (Heq : j = i).
    { apply (NoDup_lookup _ j i (parameter d) Hdistinct).
      - rewrite list_lookup_fmap, Hd'. simpl. congruence.
      - rewrite list_lookup_fmap, Hlookup. reflexivity. }
    lia. }
  unfold LogPosterior_subscript, LogPosterior_nuisance.
  rewrite Hindex, Hlookup. split; [reflexivity |]. split; [reflexivity |].
  replace (length (_parameter_descriptions self) <=? i)%nat with false; [reflexivity |].
  symmetry. apply Nat.leb_gt. apply lookup_lt_Some in Hlookup. exact Hlookup.
Qed.

(** X14: in a posterior that the constructor, [add] and [clone] produced,
    no two descriptions carry the same name, the set of registered names
    holds exactly the described names, and there are as many names as
    descriptions. *)
Theorem reachable_registry (self : LogPosterior) :
  reachable self ->
  NoDup (map parameter (_parameter_descriptions self)) /\
  (forall name,
     name ∈ _parameter_names self <-> name ∈ map parameter (_parameter_descriptions self)) /\
  size (_parameter_names self) = length (_parameter_descriptions self).
Proof.
  intros Hreachable.
  destruct (reachable_names_consistent self Hreachable) as [Hdistinct Hnames].
  split; [exact Hdistinct |]. split.
  - intros name. rewrite Hnames. apply elem_of_list_to_set.
  - rewrite Hnames, size_list_to_set by exact Hdistinct. apply length_map.
Qed.

End IndexProperties.

Section AddOutcome.
Context `{GslCdf} `{GslLinalg} `{Declarations}.

Lemma add_outcome (self : LogPosterior) (prior : LogPrior) (nuisance : bool)
    (result : bool) (self' : LogPosterior) :
  add self prior nuisance = Returns (result, self') ->
  exists k,
    _parameter_descriptions self'
    = _parameter_descriptions self
      ++ map (fun d => with_nuisance d nuisance) (take k (LogPrior_descriptions prior)) /\
    _parameter_names self'
    = list_to_set (map parameter (take k (LogPrior_descriptions prior)))
      ∪ _parameter_names self /\
    (forall x, x ∈ map parameter (take k (LogPrior_descriptions prior)) ->
               x ∉ _parameter_names self) /\
    _log_likelihood self' = _log_likelihood self /\
    (if result
     then k = length (LogPrior_descriptions prior) /\
          exists prior_clone,
            LogPrior_clone prior = Returns prior_clone /\
            _priors self' = _priors self ++ [prior_clone]
     else _priors self' = _priors self /\
          exists d, LogPrior_descriptions prior !! k = Some d /\
                    parameter d ∈ _parameter_names self').
Proof.
  unfold add.
  destruct (LogPrior_clone prior) as [prior_clone | |]; try discriminate.
  destruct (add_descriptions (LogPrior_descriptions prior) nuisance
              (_parameter_names self) (_parameter_descriptions self))
    as [[inserted names] registered] eqn:Hloop.
  destruct (add_descriptions_spec _ _ _ _ _ _ _ Hloop)
    as (k & Hregistered & Hnames & _ & Hfresh & Hk).
  destruct inserted; intros [= <- <-]; simpl; exists k;
    (split; [exact Hregistered |]); (split; [exact Hnames |]);
    (split; [exact Hfresh |]); (split; [reflexivity |]).
  - split; [exact Hk |]. exists prior_clone. split; reflexivity.
  - split; [reflexivity | exact Hk].
Qed.

Lemma nuisance_at (self : LogPosterior) (i : nat) (d : ParameterDescription) :
  _parameter_descriptions self !! i = Some d ->
  parameter d ∉ map parameter (take i (_parameter_descriptions self)) ->
  LogPosterior_nuisance self (parameter d) = Returns (nuisance d).
Proof.
  intros Hlookup Hfirst. unfold LogPosterior_nuisance, index.
  rewrite (index_from_first (parameter d) _ i d 0 Hlookup eq_refl Hfirst). simpl.
  rewrite Hlookup.
  replace (length (_parameter_descriptions self) <=? i)%nat with false; [reflexivity |].
  symmetry. apply Nat.leb_gt. apply lookup_lt_Some in Hlookup. exact Hlookup.
Qed.

Lemma NoDup_first (names : list string) (i : nat) (name : string) :
  NoDup names -> names !! i = Some name -> name ∉ take i names.
Proof.
  intros Hdistinct Hlookup Hin.
  apply list_elem_of_lookup in Hin as [j Hj].
  apply lookup_take_Some in Hj as [Hj Hlt].
  pose proof (NoDup_lookup _ j i name Hdistinct Hj Hlookup). lia.
Qed.

(** X15: after [add (prior, nuisance)] returned [true] on a posterior that
    the constructor, [add] and [clone] produced, [nuisance (name)] is the
    flag of the call for every parameter of the prior, and what it was
    before for every parameter registered earlier. *)
Theorem nuisance_after_add (self : LogPosterior) (prior : LogPrior) (flag : bool)
    (self' : LogPosterior) :
  reachable self ->
  add self prior flag = Returns (true, self') ->
  (forall d, d ∈ LogPrior_descriptions prior ->
             LogPosterior_nuisance self' (parameter d) = Returns flag) /\
  (forall name, name ∈ _parameter_names self ->
                LogPosterior_nuisance self' name = LogPosterior_nuisance self name).
Proof.
  intros Hreachable Hadd.
  assert (Hreachable' : reachable self')
    by (eapply reachable_add; [exact Hreachable | exact Hadd]).
  destruct (reachable_names_consistent self' Hreachable') as [Hdistinct' _].
  destruct (reachable_names_consistent self Hreachable) as [Hdistinct Hnames].
  destruct (add_outcome _ _ _ _ _ Hadd) as (k & Hdescs & _ & _ & _ & -> & _).
  rewrite take_ge in Hdescs by lia.
  split.
  - intros d Hd. apply list_elem_of_lookup in Hd as [j Hj].
    set (i := (length (_parameter_descriptions self) + j)%nat).
    assert (Hlookup : _parameter_descriptions self' !! i = Some (with_nuisance d flag)).
    { rewrite Hdescs. unfold i. rewrite lookup_app_r by lia.
      replace (length (_parameter_descriptions self) + j
               - length (_parameter_descriptions self))%nat with j by lia.
      rewrite list_lookup_fmap, Hj. reflexivity. }
    apply (nuisance_at self' i (with_nuisance d flag) Hlookup).
    rewrite <- firstn_map. apply NoDup_first; [exact Hdistinct' |].
    rewrite list_lookup_fmap, Hlookup. reflexivity.
  - intros name Hname. rewrite Hnames in Hname.
    apply elem_of_list_to_set in Hname.
    apply list_elem_of_lookup in Hname as [i Hi].
    rewrite list_lookup_fmap in Hi.
    destruct (_parameter_descriptions self !! i) as [d |] eqn:Hd; [| discriminate].
    injection Hi as <-.
    rewrite (nuisance_at self i d Hd).
    + apply (nuisance_at self' i d).
      * rewrite Hdescs. apply lookup_app_l_Some. exact Hd.
      * rewrite <- firstn_map. apply NoDup_first; [exact Hdistinct' |].
        rewrite list_lookup_fmap, Hdescs, (lookup_app_l_Some _ _ _ _ Hd). reflexivity.
    + rewrite <- firstn_map. apply NoDup_first; [exact Hdistinct |].
      rewrite list_lookup_fmap, Hd. reflexivity.
Qed.

(** X16: a call of [add] that returns [false] is not undone.  The
    descriptions of the prior in front of the rejected one stay registered,
    with the flag of the call, and their names stay in the name set, while
    the prior itself is not owned; the name of the rejected description is
    in the name set. *)
Theorem add_rejected_keeps_earlier_names (self : LogPosterior) (prior : LogPrior)
    (flag : bool) (self' : LogPosterior) :
  add self prior flag = Returns (false, self') ->
  exists k d,
    LogPrior_descriptions prior !! k = Some d /\
    parameter d ∈ _parameter_names self' /\
    _parameter_descriptions self'
    = _parameter_descriptions self
      ++ map (fun d => with_nuisance d flag) (take k (LogPrior_descriptions prior)) /\
    _parameter_names self'
    = list_to_set (map parameter (take k (LogPrior_descriptions prior)))
      ∪ _parameter_names self /\
    _priors self' = _priors self.
Proof.
  intros Hadd.
  destruct (add_outcome _ _ _ _ _ Hadd)
    as (k & Hdescs & Hnames & _ & _ & Hpriors & d & Hd & Hin).
  exists k, d. repeat split; assumption.
Qed.

End AddOutcome.

Section NamedPrior.
Context `{GslCdf} `{GslLinalg} `{Declarations} `{PriorVariance}.
Local Open Scope R_scope.

Lemma matching_description (name : string) (_prior : LogPrior)
    (ds : list ParameterDescription) :
  forall prior : option LogPrior,
    foldl (fun prior i => if bool_decide (parameter i = name) then Some _prior else prior)
          prior ds
    = if bool_decide (name ∈ map parameter ds) then Some _prior else prior.
Proof.
  induction ds as [| d ds IH]; intros prior; simpl.
  - reflexivity.
  - rewrite IH.
    destruct (bool_decide_reflect (parameter d = name)) as [Heq | Hne].
    + rewrite (bool_decide_eq_true_2 (name ∈ parameter d :: map parameter ds))
        by (rewrite Heq; left).
      destruct (bool_decide (name ∈ map parameter ds)); reflexivity.
    + destruct (bool_decide_reflect (name ∈ map parameter ds)) as [Hin | Hnot].
      * rewrite bool_decide_eq_true_2 by (right; exact Hin). reflexivity.
      * rewrite bool_decide_eq_false_2; [reflexivity |].
        intros Hin. apply elem_of_cons in Hin as [Heq | Hin]; congruence.
Qed.

Lemma log_prior_named_from (name : string) (priors : list LogPrior) :
  forall prior : option LogPrior,
    foldl (fun prior _prior =>
             foldl (fun prior i =>
                      if bool_decide (parameter i = name) then Some _prior else prior)
                   prior (LogPrior_descriptions _prior))
          prior priors
    = match last (filter (fun candidate => name ∈ names_of candidate) priors) with
      | Some found => Some found
      | None => prior
      end.
Proof.
  induction priors as [| _prior priors IH]; intros prior; [reflexivity |].
  simpl. rewrite IH, matching_description, filter_cons. unfold names_of.
  destruct (decide (name ∈ map parameter (LogPrior_descriptions _prior))) as [Hin | Hnot].
  - rewrite bool_decide_eq_true_2 by exact Hin.
    rewrite last_cons. destruct (last (filter _ priors)); reflexivity.
  - rewrite bool_decide_eq_false_2 by exact Hnot. reflexivity.
Qed.

(** X17: [log_prior (name)] returns the last of the owned priors that
    describes a parameter of that name, and the null pointer when no owned
    prior does. *)
Theorem log_prior_named_last (self : LogPosterior) (name : string) :
  log_prior_named self name
  = last (filter (fun candidate => name ∈ names_of candidate) (_priors self)).
Proof.
  unfold log_prior_named. rewrite log_prior_named_from.
  destruct (last _); reflexivity.
Qed.

Lemma elem_of_concat_names (name : string) (priors : list LogPrior) :
  name ∈ concat (map names_of priors) <->
  exists prior, prior ∈ priors /\ name ∈ names_of prior.
Proof.
  rewrite list_elem_of_In, in_concat. split.
  - intros (names & Hnames & Hname). apply in_map_iff in Hnames as (prior & <- & Hprior).
    exists prior. rewrite !list_elem_of_In. split; assumption.
  - intros (prior & Hprior & Hname). exists (names_of prior).
    apply list_elem_of_In in Hprior. apply list_elem_of_In in Hname.
    split; [| exact Hname].
    apply in_map. exact Hprior.
Qed.

Lemma log_prior_named_Some (self : LogPosterior) (name : string) (prior : LogPrior) :
  log_prior_named self name = Some prior ->
  prior ∈ _priors self /\ name ∈ names_of prior.
Proof.
  unfold log_prior_named. rewrite log_prior_named_from.
  destruct (last _) as [found |] eqn:Hlast; [| discriminate].
  intros [= <-]. apply last_Some_elem_of in Hlast.
  apply list_elem_of_filter in Hlast as [Hname Hin]. split; assumption.
Qed.

Lemma log_prior_named_None (self : LogPosterior) (name : string) :
  log_prior_named self name = None <->
  name ∉ concat (map names_of (_priors self)).
Proof.
  unfold log_prior_named. rewrite log_prior_named_from, elem_of_concat_names.
  split.
  - destruct (last _) as [found |] eqn:Hlast; [discriminate |]. intros _.
    apply last_None in Hlast.
    intros (prior & Hprior & Hname).
    assert (Hfound : prior ∈ filter (fun candidate => name ∈ names_of candidate)
                                    (_priors self))
      by (apply list_elem_of_filter; split; assumption).
    rewrite Hlast in Hfound. inversion Hfound.
  - intros Hnot. destruct (last _) as [found |] eqn:Hlast; [| reflexivity].
    exfalso. apply Hnot. apply last_Some_elem_of in Hlast.
    apply list_elem_of_filter in Hlast as [Hname Hin].
    exists found. split; assumption.
Qed.

(** X18: in a posterior built by adding priors, [log_prior (name)] returns
    an owned prior that describes [name] for every registered name, and the
    null pointer for every other name. *)
Theorem log_prior_named_registered (self : LogPosterior) (name : string) :
  built self ->
  (name ∈ _parameter_names self ->
   exists prior, log_prior_named self name = Some prior /\
                 prior ∈ _priors self /\ name ∈ names_of prior) /\
  (name ∉ _parameter_names self -> log_prior_named self name = None).
Proof.
  intros Hbuilt.
  destruct (built_consistent self Hbuilt) as [_ Hdescs _ Hnames].
  assert (Hiff : name ∈ _parameter_names self <->
                 name ∈ concat (map names_of (_priors self))).
  { rewrite Hnames, elem_of_list_to_set, Hdescs. reflexivity. }
  split.
  - intros Hin. destruct (log_prior_named self name) as [prior |] eqn:Hfound.
    + exists prior. split; [reflexivity |]. apply log_prior_named_Some. exact Hfound.
    + apply log_prior_named_None in Hfound. tauto.
  - intros Hnot. apply log_prior_named_None. tauto.
Qed.

Lemma fill_diagonal_defined (self : LogPosterior) (scale_reduction : R)
    (scale_nuisance : bool) (npar : nat) (defs : list ParameterDescription) :
  forall (par : nat) (covariance : list R),
    match fill_diagonal self scale_reduction scale_nuisance npar defs par covariance with
    | Returns covariance' =>
        length covariance' = length covariance /\
        Forall (fun d => is_Some (log_prior_named self (parameter d))) defs
    | Throws _ => False
    | Undefined => Exists (fun d => log_prior_named self (parameter d) = None) defs
    end.
Proof.
  induction defs as [| def defs IH]; intros par covariance; simpl.
  - split; [reflexivity | constructor].
  - destruct (log_prior_named self (parameter def)) as [prior |] eqn:Hprior.
    + match goal with
      | |- match fill_diagonal _ _ _ _ _ ?p ?c with _ => _ end =>
          specialize (IH p c); destruct (fill_diagonal self scale_reduction scale_nuisance
                                           npar defs p c) as [covariance' | e |]
      end.
      * destruct IH as [Hlength Hall]. split.
        -- rewrite Hlength. destruct (negb (nuisance def) || scale_nuisance);
             rewrite ?length_insert; reflexivity.
        -- constructor; [rewrite Hprior; eexists; reflexivity | exact Hall].
      * exact IH.
      * apply Exists_cons_tl. exact IH.
    + apply Exists_cons_hd. exact Hprior.
Qed.

(** X19: [proposal_covariance] returns, a matrix of [npar * npar] entries,
    exactly when [log_prior (name)] finds a prior for every described
    parameter; when some described parameter has no prior, the call
    dereferences the null pointer. *)
Theorem proposal_covariance_defined (self : LogPosterior) (scale_reduction : R)
    (scale_nuisance : bool) :
  let npar := length (_parameter_descriptions self) in
  match proposal_covariance self scale_reduction scale_nuisance with
  | Returns covariance =>
      length covariance = (npar * npar)%nat /\
      Forall (fun d => is_Some (log_prior_named self (parameter d)))
             (_parameter_descriptions self)
  | Throws _ => False
  | Undefined =>
      Exists (fun d => log_prior_named self (parameter d) = None)
             (_parameter_descriptions self)
  end.
Proof.
  intros npar. unfold proposal_covariance, parameter_descriptions. fold npar.
  pose proof (fill_diagonal_defined self scale_reduction scale_nuisance npar
                (_parameter_descriptions self) 0 (replicate (npar * npar) 0)) as Hfill.
  destruct (fill_diagonal _ _ _ _ _ _ _) as [covariance | e |]; [| exact Hfill..].
  destruct Hfill as [Hlength Hall]. split; [| exact Hall].
  rewrite Hlength. apply length_replicate.
Qed.

End NamedPrior.

Section CloneCounter.
Context `{GslCdf} `{GslLinalg} `{Declarations}.

Lemma LogPrior_clone_informative (prior prior_clone : LogPrior) :
  LogPrior_clone prior = Returns prior_clone ->
  LogPrior_informative prior_clone = LogPrior_informative prior.
Proof.
  destruct prior as [p | p | p | p]; simpl.
  - destruct (Flat.clone p); simpl; try discriminate. intros [= <-]. reflexivity.
  - destruct (CurtailedGauss.clone p); simpl; try discriminate. intros [= <-]. reflexivity.
  - intros [= <-]. reflexivity.
  - destruct (MultivariateGaussian.clone p); simpl; try discriminate.
    intros [= <-]. reflexivity.
Qed.

Lemma add_prior_clones_counter (priors : list LogPrior) :
  forall result result' : LogPosterior,
    add_prior_clones priors result = Returns result' ->
    _informative_priors result' = foldl counted (_informative_priors result) priors /\
    _log_likelihood result' = _log_likelihood result.
Proof.
  induction priors as [| prior priors IH]; intros result result'; simpl.
  - intros [= <-]. split; reflexivity.
  - destruct (LogPrior_clone prior) as [c | |] eqn:Hclone; try discriminate.
    destruct (add result c add_nuisance_default) as [[accepted result1] | |] eqn:Hadd;
      try discriminate.
    intros Hrest. destruct (IH _ _ Hrest) as [Hcounter Hllh].
    rewrite Hcounter, Hllh.
    pose proof (add_informative_priors _ _ _ _ _ Hadd) as Hone.
    unfold informative_priors in Hone. rewrite Hone.
    rewrite (LogPrior_clone_informative _ _ Hclone).
    destruct (add_outcome _ _ _ _ _ Hadd) as (_ & _ & _ & _ & Hsame & _).
    split; [reflexivity | exact Hsame].
Qed.

Lemma counted_modulo (priors : list LogPrior) :
  forall n : N,
    foldl counted (n mod (UINT_MAX + 1))%N priors
    = ((n + N.of_nat (length (filter (fun prior => LogPrior_informative prior = true)
                                     priors)))
       mod (UINT_MAX + 1))%N.
Proof.
  induction priors as [| prior priors IH]; intros n; simpl.
  - rewrite N.add_0_r. reflexivity.
  - rewrite filter_cons. unfold counted at 2, unsigned_add.
    destruct (LogPrior_informative prior) eqn:Hinformative.
    + rewrite N.Div0.add_mod_idemp_l, IH.
      destruct (decide (true = true)) as [_ | Hne]; [| congruence].
      simpl length. f_equal. lia.
    + rewrite N.Div0.add_mod_idemp_l, IH.
      destruct (decide (false = true)) as [Heq | _]; [discriminate |].
      f_equal. lia.
Qed.

(** X20: [clone] counts the informative priors anew: the counter of the
    clone is the number of informative priors the original owns, modulo
    [2^32], whatever the counter of the original is. *)
Theorem clone_counts_owned_priors (self result : LogPosterior) :
  private_clone self = Returns result ->
  informative_priors result
  = (N.of_nat (length (filter (fun prior => LogPrior_informative prior = true)
                              (_priors self)))
     mod (UINT_MAX + 1))%N.
Proof.
  unfold private_clone, informative_priors.
  destruct (add_prior_clones (_priors self)
              (LogPosterior_new (LogLikelihood_clone (_log_likelihood self))))
    as [added | |] eqn:Hadded; try discriminate.
  destruct (copy_ranges _ _) as [copied | |]; try discriminate.
  intros [= <-]. simpl.
  destruct (add_prior_clones_counter _ _ _ Hadded) as [Hcounter _].
  rewrite Hcounter. simpl.
  apply (counted_modulo (_priors self) 0).
Qed.

(** X21: the clone of a posterior built by adding priors is its own clone:
    cloning it again returns a posterior equal to it. *)
Theorem clone_of_clone (self result : LogPosterior) :
  built self ->
  private_clone self = Returns result ->
  private_clone result = Returns result.
Proof.
  intros Hbuilt Hclone.
  destruct (private_clone_consistent self (built_consistent self Hbuilt))
    as (result0 & Hclone0 & _ & Hpriors & _).
  rewrite Hclone in Hclone0. injection Hclone0 as <-.
  revert Hclone. unfold private_clone at 1.
  destruct (add_prior_clones (_priors self)
              (LogPosterior_new (LogLikelihood_clone (_log_likelihood self))))
    as [added | |] eqn:Hadded; try discriminate.
  destruct (copy_ranges (_parameter_descriptions self) (_parameter_descriptions added))
    as [copied | |] eqn:Hcopied; try discriminate.
  intros Hresult.
  destruct (add_prior_clones_counter _ _ _ Hadded) as [_ Hllh]. simpl in Hllh.
  assert (Hllh' : _log_likelihood result = _log_likelihood self)
    by (injection Hresult as <-; exact Hllh).
  assert (Hdescs : _parameter_descriptions result = copied)
    by (injection Hresult as <-; reflexivity).
  unfold private_clone. rewrite Hpriors, Hllh', Hadded, Hdescs.
  rewrite (copy_ranges_same_names copied (_parameter_descriptions added)).
  - rewrite <- Hresult. reflexivity.
  - symmetry. apply (copy_ranges_names _ _ _ Hcopied).
Qed.

End CloneCounter.

Section CallEdges.
Context `{GslCdf} `{GslLinalg} `{Declarations} `{Hdf5} `{GslMultimin} `{PriorVariance}.
Local Open Scope eos_scope.
Local Open Scope R_scope.

(** X22: [goodness_of_fit] and [optimize] check the dimension of the point
    first: when the number of values differs from the number of described
    parameters, each throws an [InternalError] and leaves the parameter
    values, the log and the files as they were. *)
Theorem wrong_dimension_rejected (self : LogPosterior) (values : list R) (w : World) :
  length (_parameter_descriptions self) <> length values ->
  (forall simulated_datasets output_file,
     exists message,
       goodness_of_fit self values simulated_datasets output_file w
       = (Throws (InternalError message), w)) /\
  (forall options,
     exists message, optimize self values options w = (Throws (InternalError message), w)).
Proof.
  intros Hlength. apply Nat.eqb_neq in Hlength. split.
  - intros simulated_datasets output_file. unfold goodness_of_fit.
    rewrite Hlength. simpl. eexists. reflexivity.
  - intros options. unfold optimize. rewrite Hlength. simpl. eexists. reflexivity.
Qed.

Lemma for_each_stops {A : Type} (l : list A) (body : A -> M unit) :
  Exists (fun a => forall w r w', body a w <> (Returns r, w')) l ->
  forall w r w', for_each l body w <> (Returns r, w').
Proof.
  induction 1 as [a l Hbody | a l Hl IH]; intros w r w'; simpl.
  - apply bind_not_Returns. exact (Hbody w).
  - unfold bind. destruct (body a w) as [[[] | e |] w1]; [apply IH | discriminate..].
Qed.

Lemma dump_descriptions_stops (self : LogPosterior) (file : hdf5_File)
    (data_set_base : string) :
  Exists (fun d => exists p, log_prior_named self (parameter d)
                             = Some (IsMultivariateGaussian p))
         (_parameter_descriptions self) ->
  forall w r w', dump_descriptions self file data_set_base w <> (Returns r, w').
Proof.
  intros Hgaussian w r w'. unfold dump_descriptions.
  unfold bind at 1. destruct (on_disk _ w) as [[data_set | e |] w1]; [| discriminate..].
  apply bind_not_Returns. apply for_each_stops.
  apply Exists_exists in Hgaussian as (d & Hd & p & Hprior).
  apply Exists_exists. exists d. split; [exact Hd |].
  intros w2 r2 w2'. rewrite Hprior. apply bind_not_Returns.
  intros a w3. unfold lift_outcome. simpl. discriminate.
Qed.

(** X23: [goodness_of_fit] with an output file never returns when a
    described parameter belongs to a [MultivariateGaussian] prior:
    [dump_descriptions] asks the prior for [as_string ()], which throws. *)
Theorem goodness_of_fit_output_multivariate (self : LogPosterior)
    (parameter_values : list R) (simulated_datasets : nat) (output_file : string)
    (w : World) :
  output_file <> "" ->
  Exists (fun d => exists p, log_prior_named self (parameter d)
                             = Some (IsMultivariateGaussian p))
         (_parameter_descriptions self) ->
  forall r w', goodness_of_fit self parameter_values simulated_datasets output_file w
               <> (Returns r, w').
Proof.
  intros Hfile Hgaussian r w'. unfold goodness_of_fit.
  destruct (negb _); [discriminate |].
  apply bind_not_Returns. intros f w1. unfold open_output.
  rewrite bool_decide_eq_false_2 by exact Hfile.
  unfold bind at 1. destruct (on_disk _ w) as [[file | e |] w2]; [| discriminate..].
  apply bind_not_Returns. apply dump_descriptions_stops. exact Hgaussian.
Qed.

Lemma set_components_spec (descs : list ParameterDescription) (pars : gsl_vector) :
  forall (i : nat) (w : World),
    set_components descs pars i w
    = (Returns tt,
       with_parameters w
         (set_all (imap (fun k d => (d, pars !!! (i + k)%nat)) descs) (parameters w))).
Proof.
  induction descs as [| d descs IH]; intros i w; simpl.
  - unfold ret. rewrite with_parameters_same. reflexivity.
  - unfold bind, set_parameter at 1. rewrite IH. simpl.
    rewrite Nat.add_0_r. unfold with_parameters. simpl. do 3 f_equal.
    apply imap_ext. intros k d' _. simpl. f_equal. f_equal. lia.
Qed.

(** X24: [negative_log_posterior (pars)] sets every described parameter to
    its component of [pars] and returns the negated value of [evaluate ()]
    at these parameter values; [evaluate ()] itself changes nothing. *)
Theorem negative_log_posterior_evaluate (self : LogPosterior) (pars : gsl_vector)
    (w : World) :
  let w' :=
    with_parameters w
      (set_all (imap (fun i d => (d, pars !!! i)) (_parameter_descriptions self))
               (parameters w)) in
  exists o,
    evaluate self w' = (o, w') /\
    negative_log_posterior pars self w = (outcome_map XD.neg o, w').
Proof.
  intros w'. unfold negative_log_posterior, evaluate, log_posterior.
  unfold bind at 3. rewrite set_components_spec. cbn [Nat.add]. fold w'.
  cbv [bind call_log_prior call_log_likelihood get_parameters lift_outcome ret].
  destruct (log_prior self (parameters w')) as [lp | e |];
    eexists; split; reflexivity.
Qed.

(** X25: a posterior without priors cannot be evaluated: [evaluate ()]
    throws the [InternalError] of [log_prior ()], and so does [optimize]
    for a starting point of the right dimension, after it has set the
    parameters to the starting point and before it logs or calls GSL. *)
Theorem no_priors_throws (self : LogPosterior) (initial_guess : list R)
    (options : OptimizationOptions) (w : World) :
  _priors self = [] ->
  length (_parameter_descriptions self) = length initial_guess ->
  let e := InternalError [Str "LogPosterior::log_prior(): prior is undefined"] in
  evaluate self w = (Throws e, w) /\
  optimize self initial_guess options w
  = (Throws e,
     with_parameters w
       (set_all (imap (fun i d => (d, initial_guess !!! i)) (_parameter_descriptions self))
                (parameters w))).
Proof.
  intros Hpriors Hlength e. split.
  - unfold evaluate, log_posterior.
    cbv [bind call_log_prior call_log_likelihood get_parameters lift_outcome ret].
    unfold log_prior. rewrite Hpriors. reflexivity.
  - unfold optimize. rewrite (proj2 (Nat.eqb_eq _ _) Hlength). cbn [negb].
    unfold bind at 1. unfold negative_log_posterior.
    unfold bind at 1. rewrite set_components_spec. cbn [Nat.add].
    cbv [bind call_log_prior call_log_likelihood get_parameters lift_outcome ret].
    unfold log_prior. rewrite Hpriors. reflexivity.
Qed.

End CallEdges.

(** ** The form factors *)

Section FormFactorProperties.
Context `{Process}.
Local Open Scope R_scope.

(** X26: [_calc_z] maps the values below the threshold [t_p] into the
    open interval from -1 to 1; it maps [t_0] to zero, the values below
    [t_0] to positive and the values above [t_0] to negative numbers. *)
Theorem calc_z_interval (t t_p t_0 : R) :
  t < t_p -> t_0 < t_p ->
  -1 < FvDV2018._calc_z t t_p t_0 < 1 /\
  (FvDV2018._calc_z t t_p t_0 = 0 <-> t = t_0) /\
  (0 < FvDV2018._calc_z t t_p t_0 <-> t < t_0).
Proof.
  intros Ht Ht0. unfold FvDV2018._calc_z.
  pose proof (sqrt_lt_R0 (t_p - t)) as Ha.
  pose proof (sqrt_lt_R0 (t_p - t_0)) as Hb.
  pose proof (sqrt_sqrt (t_p - t)) as Ha2.
  pose proof (sqrt_sqrt (t_p - t_0)) as Hb2.
  set (a := sqrt (t_p - t)) in *. set (b := sqrt (t_p - t_0)) in *.
  assert (Ha' : 0 < a) by (apply Ha; lra).
  assert (Hb' : 0 < b) by (apply Hb; lra).
  assert (Ha2' : a * a = t_p - t) by (apply Ha2; lra).
  assert (Hb2' : b * b = t_p - t_0) by (apply Hb2; lra).
  clear Ha Hb Ha2 Hb2. clearbody a b.
  assert (Hup : 1 - (a - b) / (a + b) = 2 * b / (a + b)) by (field; lra).
  assert (Hdown : (a - b) / (a + b) + 1 = 2 * a / (a + b)) by (field; lra).
  assert (Hup' : 0 < 2 * b / (a + b)) by (apply Rdiv_lt_0_compat; lra).
  assert (Hdown' : 0 < 2 * a / (a + b)) by (apply Rdiv_lt_0_compat; lra).
  assert (Hz : (a - b) / (a + b) * (a + b) = a - b) by (field; lra).
  split; [lra |]. split; split.
  - intros Hzero. rewrite Hzero in Hz. assert (a = b) by lra. subst a.
    assert (b * b = t_p - t) by exact Ha2'. lra.
  - intros Heq. assert (Hsquares : a * a = b * b) by lra.
    assert (a = b) by nra. replace (a - b) with 0 by lra. field. lra.
  - intros Hpositive.
    assert (0 < a - b).
    { rewrite <- Hz. apply Rmult_lt_0_compat; lra. }
    nra.
  - intros Hlt. apply Rdiv_lt_0_compat; [| lra]. nra.
Qed.

Lemma zhat_pole_factor (that : R) :
  let mBst2 := power_of_2 mBst in
  let that_p := power_of_2 (mB + mP2) in
  mBst2 < that_p -> that < that_p -> that <> mBst2 ->
  (that - mBst2)
  * ((1 - FvDV2018._zhat that * FvDV2018._zhat mBst2)
     / (FvDV2018._zhat that - FvDV2018._zhat mBst2))
  = - power_of_2 (sqrt (that_p - that) + sqrt (that_p - mBst2)).
Proof.
  intros mBst2 that_p Hpole Hthat Hne.
  unfold FvDV2018._zhat, FvDV2018._calc_z. fold mBst2 that_p.
  assert (Hsquare : 0 <= mBst2) by (unfold mBst2, power_of_2; nra).
  assert (Hroot : 0 < sqrt (that_p * (that_p - mBst2))).
  { apply sqrt_lt_R0. apply Rmult_lt_0_compat; lra. }
  replace (that_p - (that_p - sqrt (that_p * (that_p - mBst2))))
    with (sqrt (that_p * (that_p - mBst2))) by ring.
  pose proof (sqrt_lt_R0 (that_p - that)) as Ha.
  pose proof (sqrt_lt_R0 (that_p - mBst2)) as Hc.
  pose proof (sqrt_lt_R0 (sqrt (that_p * (that_p - mBst2))) Hroot) as Hb.
  pose proof (sqrt_sqrt (that_p - that)) as Ha2.
  pose proof (sqrt_sqrt (that_p - mBst2)) as Hc2.
  set (a := sqrt (that_p - that)) in *.
  set (c := sqrt (that_p - mBst2)) in *.
  set (b := sqrt (sqrt (that_p * (that_p - mBst2)))) in *.
  assert (Ha' : 0 < a) by (apply Ha; lra).
  assert (Hc' : 0 < c) by (apply Hc; lra).
  assert (Ha2' : a * a = that_p - that) by (apply Ha2; lra).
  assert (Hc2' : c * c = that_p - mBst2) by (apply Hc2; lra).
  clear Ha Hc Ha2 Hc2. clearbody a b c.
  assert (Hac : a <> c) by (intros ->; lra).
  replace (that - mBst2) with (c * c - a * a) by lra.
  unfold power_of_2. field.
  split; [| split]; try lra.
  intros Hzero. apply Hac.
  assert (Hfactor : 2 * b * (a - c) = 0) by (rewrite <- Hzero; ring).
  nra.
Qed.

(** X27: [_blaschke_res_qhat2 (z)] is the residue of the Blaschke factor
    at the pole [qhat2 = mBst^2]: as [that] tends to [mBst^2], the product
    of [that - mBst^2] and [_blaschke (z, _zhat (that))] tends to it.  The
    pole is assumed to lie below the threshold [(mB + mP2)^2]. *)
Theorem blaschke_residue (z : R) :
  power_of_2 mBst < power_of_2 (mB + mP2) ->
  forall eps, 0 < eps ->
  exists delta,
    0 < delta /\
    forall that,
      that <> power_of_2 mBst ->
      Rabs (that - power_of_2 mBst) < delta ->
      Rabs ((that - power_of_2 mBst) * FvDV2018._blaschke z (FvDV2018._zhat that)
            - FvDV2018._blaschke_res_qhat2 z) < eps.
Proof.
  intros Hpole eps Heps.
  set (mBst2 := power_of_2 mBst) in *. set (that_p := power_of_2 (mB + mP2)) in *.
  set (F := (1 - z * FvDV2018._z mBst2) / (z - FvDV2018._z mBst2)).
  set (g := fun that => - power_of_2 (sqrt (that_p - that) + sqrt (that_p - mBst2)) * F).
  assert (Hg : continuity_pt g mBst2).
  { unfold g, power_of_2.
    apply continuity_pt_mult; [| apply continuity_pt_const; intros x y; reflexivity].
    apply continuity_pt_opp.
    assert (Hsum : continuity_pt
                     (fun that => sqrt (that_p - that) + sqrt (that_p - mBst2)) mBst2).
    { apply continuity_pt_plus; [| apply continuity_pt_const; intros x y; reflexivity].
      apply (continuity_pt_comp (fun that => that_p - that) sqrt).
      - apply continuity_pt_minus; [apply continuity_pt_const; intros x y; reflexivity |].
        apply derivable_continuous_pt. apply derivable_pt_id.
      - apply continuity_pt_sqrt. lra. }
    apply continuity_pt_mult; exact Hsum. }
  destruct (continuity_pt_ball g mBst2 Hg eps Heps) as (delta & Hdelta & Hlimit).
  exists (Rmin delta (that_p - mBst2)). split; [apply Rmin_glb_lt; lra |].
  intros that Hne Hnear.
  assert (Hnear1 : Rabs (that - mBst2) < delta)
    by (eapply Rlt_le_trans; [exact Hnear | apply Rmin_l]).
  assert (Hnear2 : Rabs (that - mBst2) < that_p - mBst2)
    by (eapply Rlt_le_trans; [exact Hnear | apply Rmin_r]).
  assert (Hthat : that < that_p).
  { apply Rabs_def2 in Hnear2. lra. }
  replace ((that - mBst2) * FvDV2018._blaschke z (FvDV2018._zhat that)) with (g that).
  - replace (FvDV2018._blaschke_res_qhat2 z) with (g mBst2); [exact (Hlimit that Hnear1) |].
    unfold g, FvDV2018._blaschke_res_qhat2. fold mBst2 that_p F. unfold power_of_2 at 1.
    pose proof (sqrt_sqrt (that_p - mBst2)) as Hsquare. nra.
  - unfold g, FvDV2018._blaschke. fold mBst2 F.
    pose proof (zhat_pole_factor that Hpole Hthat Hne) as Hfactor.
    cbv zeta in Hfactor. fold mBst2 that_p in Hfactor.
    rewrite <- Hfactor. ring.
Qed.

End FormFactorProperties.

(** ** Examples for the further properties *)

Section PriorExamples.
#[local] Existing Instance Example.cdf.
#[local] Existing Instance Example.linalg.
#[local] Existing Instance MoreExamples.cdf_inverse.
Local Open Scope R_scope.

Lemma Flat_sample_in_range_witness :
  exists p,
    LogPrior_Flat "a" Example.unit_interval = Returns (IsFlat p) /\
    0 <= 1 / 2 <= 1 /\
    let d := Flat._parameter_descriptions_front p in
    let sampled := Flat_sample p (1 / 2) ∅ in
    min d <= Parameter_evaluate (parameter d) sampled <= max d /\
    (forall other, other <> parameter d ->
       Parameter_evaluate other sampled = Parameter_evaluate other ∅).
Proof.
  destruct (LogPrior_Flat_returns "a" Example.unit_interval) as (p & Hp & _);
    [simpl; lra |].
  exists p. split; [exact Hp |]. split; [lra |].
  apply (Flat_sample_in_range "a" Example.unit_interval p (1 / 2) ∅ Hp). lra.
Defined.

Lemma Scale_sample_in_range_witness :
  let p := Scale.make "mu" Example.unit_interval 1 2 in
  let d := Scale._parameter_descriptions_front p in
  let sampled := Scale_sample p (1 / 2) ∅ in
  let x := Parameter_evaluate (parameter d) sampled in
  LogPrior_Scale "mu" Example.unit_interval 1 2 = Returns (IsScale p) /\
  min d <= x <= max d /\
  LogPrior_call (IsScale p) sampled = Finite (1 / (2 * ln 2 * x)).
Proof. apply (Scale_sample_in_range "mu" Example.unit_interval 1 2 (1 / 2) ∅); lra. Defined.

Lemma example_gauss :
  exists p,
    LogPrior_CurtailedGauss "b" MoreExamples.range_0_4 1 2 3 = Returns (IsCurtailedGauss p) /\
    CurtailedGauss._c_a p = 1 /\ CurtailedGauss._prob_lower p = 0.5.
Proof.
  destruct (LogPrior_CurtailedGauss_returns "b" MoreExamples.range_0_4 1 2 3)
    as (p & Hfactory & Hmake); [simpl; lra | lra | lra |].
  exists p. split; [exact Hfactory |].
  unfold CurtailedGauss.make in Hmake. simpl in Hmake.
  rewrite (bool_decide_eq_false_2 (0 >= 4)) in Hmake by lra.
  rewrite (bool_decide_eq_true_2 (0 - 2 < 0)) in Hmake by lra.
  rewrite (bool_decide_eq_false_2 (4 - 2 < 0)) in Hmake by lra.
  injection Hmake as <-. simpl. split; field; lra.
Qed.

Lemma CurtailedGauss_mode_witness :
  exists p v m,
    LogPrior_CurtailedGauss "b" MoreExamples.range_0_4 1 2 3
    = Returns (IsCurtailedGauss p) /\
    0 < CurtailedGauss._c_a p /\
    LogPrior_call (IsCurtailedGauss p) ∅ = Finite v /\
    LogPrior_call (IsCurtailedGauss p) (Parameter_set "b" 2 ∅) = Finite m /\
    v <= m /\
    (v = m -> Parameter_evaluate "b" ∅ = 2).
Proof.
  destruct example_gauss as (p & Hfactory & Hca & _).
  assert (Hpositive : 0 < CurtailedGauss._c_a p) by (rewrite Hca; lra).
  destruct (CurtailedGauss_mode "b" MoreExamples.range_0_4 1 2 3 p ∅ Hfactory Hpositive)
    as (v & m & Hrest).
  exists p, v, m. split; [exact Hfactory |]. split; [exact Hpositive | exact Hrest].
Defined.



Lemma CurtailedGauss_total_mass_witness :
  exists p,
    LogPrior_CurtailedGauss "b" MoreExamples.range_0_4 1 2 3 = Returns (IsCurtailedGauss p) /\
    CurtailedGauss._prob_lower p
    + CurtailedGauss._c_a p * (gsl_cdf_gaussian_P (range_max MoreExamples.range_0_4 - 2) (3 - 2) - 0.5)
    = 1.
Proof.
  destruct example_gauss as (p & Hfactory & _).
  exists p. split; [exact Hfactory |].
  apply (CurtailedGauss_total_mass "b" MoreExamples.range_0_4 1 2 3 p Hfactory).
  simpl.
  rewrite (bool_decide_eq_true_2 (0 - 2 < 0)) by lra.
  rewrite (bool_decide_eq_false_2 (4 - 2 < 0)) by lra.
  lra.
Defined.

Lemma CurtailedGauss_sample_side_witness :
  exists p,
    LogPrior_CurtailedGauss "b" MoreExamples.range_0_4 1 2 3 = Returns (IsCurtailedGauss p) /\
    let x := Parameter_evaluate "b" (CurtailedGauss_sample p (1 / 4) ∅) in
    (1 / 4 < CurtailedGauss._prob_lower p -> x < 2) /\
    (CurtailedGauss._prob_lower p <= 1 / 4 -> 2 <= x).
Proof.
  destruct example_gauss as (p & Hfactory & Hca & _).
  exists p. split; [exact Hfactory |].
  apply (CurtailedGauss_sample_side "b" MoreExamples.range_0_4 1 2 3 p (1 / 4) ∅ Hfactory).
  - intros P sigma Hsigma HP. simpl. nra.
  - intros P sigma Hsigma HP. simpl. nra.
  - rewrite Hca. lra.
Defined.

Lemma sample_changes_own_parameters_witness :
  constructed (Example.scale "x") /\
  ("y" ∉ names_of (Example.scale "x")) /\
  Parameter_evaluate "y" (LogPrior_sample (Example.scale "x") (fun _ => 1 / 2) ∅)
  = Parameter_evaluate "y" ∅.
Proof.
  assert (Hother : "y" ∉ names_of (Example.scale "x")).
  { unfold names_of. simpl. intros Hin. apply list_elem_of_singleton in Hin. discriminate. }
  split; [apply scale_constructed |]. split; [exact Hother |].
  apply (sample_changes_own_parameters (Example.scale "x") (fun _ => 1 / 2) ∅ "y");
    [apply scale_constructed | exact Hother].
Defined.

Lemma MultivariateGaussian_at_mean_witness :
  let parameters : Parameters := <["a" := 1]> (<["b" := 2]> ∅) in
  exists prior,
    LogPrior_MultivariateGaussian ["a"; "b"] [1; 2] Example.identity_2 = Returns prior /\
    LogPrior_call prior parameters
    = Finite (MultivariateGaussian.compute_norm 2 Example.identity_2).
Proof.
  intros parameters. eexists. split; [reflexivity |].
  apply (MultivariateGaussian_at_mean ["a"; "b"] [1; 2] Example.identity_2 _ parameters);
    [reflexivity |].
  repeat constructor.
Defined.

Lemma LogPrior_MultivariateGaussian_checks_witness :
  exists prior,
    LogPrior_MultivariateGaussian ["a"; "b"] [1; 2] Example.identity_2 = Returns prior /\
    size1 Example.identity_2 = 2%nat /\ size2 Example.identity_2 = 2%nat /\
    length [1; 2] = 2%nat /\
    LogPrior_descriptions prior
    = map (fun n => {| parameter := n; min := - DBL_MAX; max := DBL_MAX;
                       nuisance := false |}) ["a"; "b"].
Proof.
  eexists. split; [reflexivity |].
  apply (LogPrior_MultivariateGaussian_checks ["a"; "b"] [1; 2] Example.identity_2).
  reflexivity.
Defined.

End PriorExamples.

Section CholeskyExample.
#[local] Existing Instance MoreExamples.linalg_dense.
Local Open Scope R_scope.

Lemma MultivariateGaussian_chol_lower_triangular_witness :
  exists p row x,
    MultivariateGaussian.make ["a"; "b"] [0; 0] MoreExamples.covariance_dense = Returns p /\
    (0 < 1 < MultivariateGaussian._dim p)%nat /\
    rows (MultivariateGaussian._chol p) !! 0%nat = Some row /\
    row !! 1%nat = Some x /\
    x = 0.
Proof.
  eexists _, _, _. split; [reflexivity |]. split; [simpl; lia |].
  split; [reflexivity |]. split; [reflexivity |].
  eapply (MultivariateGaussian_chol_lower_triangular ["a"; "b"] [0; 0]
            MoreExamples.covariance_dense _ 0 1);
    [reflexivity | simpl; lia | reflexivity | reflexivity].
Defined.

End CholeskyExample.

Section PosteriorExamples.
#[local] Existing Instance Example.cdf.
#[local] Existing Instance Example.linalg.
#[local] Existing Instance Example.declarations.
#[local] Existing Instance Example.hdf5.
#[local] Existing Instance Example.multimin.
#[local] Existing Instance Example.prior_variance.
Local Open Scope R_scope.

Lemma one_scale_added :
  add (LogPosterior_new Example.likelihood) (Example.scale "x") true
  = Returns (true, MoreExamples.one_scale).
Proof. reflexivity. Qed.

Lemma one_scale_reachable : reachable MoreExamples.one_scale.
Proof.
  apply (reachable_add (LogPosterior_new Example.likelihood) (Example.scale "x") true true).
  - apply reachable_new.
  - exact one_scale_added.
Qed.

Lemma one_scale_built : built MoreExamples.one_scale.
Proof.
  apply (built_add (LogPosterior_new Example.likelihood) (Example.scale "x") true).
  - apply built_new.
  - apply scale_constructed.
  - exact one_scale_added.
Qed.

Lemma index_of_position_witness :
  exists d,
    reachable MoreExamples.one_scale /\
    _parameter_descriptions MoreExamples.one_scale !! 0%nat = Some d /\
    LogPosterior_subscript MoreExamples.one_scale 0 = Returns (parameter d) /\
    index MoreExamples.one_scale (parameter d) = Returns 0%nat /\
    LogPosterior_nuisance MoreExamples.one_scale (parameter d) = Returns (nuisance d).
Proof.
  eexists. split; [exact one_scale_reachable |]. split; [reflexivity |].
  apply (index_of_position MoreExamples.one_scale 0 _ one_scale_reachable). reflexivity.
Defined.

Lemma reachable_registry_witness :
  reachable MoreExamples.scale_twice /\
  NoDup (map parameter (_parameter_descriptions MoreExamples.scale_twice)) /\
  (forall name,
     name ∈ _parameter_names MoreExamples.scale_twice <->
     name ∈ map parameter (_parameter_descriptions MoreExamples.scale_twice)) /\
  size (_parameter_names MoreExamples.scale_twice)
  = length (_parameter_descriptions MoreExamples.scale_twice).
Proof.
  assert (Hreachable : reachable MoreExamples.scale_twice).
  { apply (reachable_add MoreExamples.one_scale (Example.scale "x") false false).
    - exact one_scale_reachable.
    - reflexivity. }
  split; [exact Hreachable |].
  apply (reachable_registry MoreExamples.scale_twice Hreachable).
Defined.

Lemma nuisance_after_add_witness :
  reachable (LogPosterior_new Example.likelihood) /\
  add (LogPosterior_new Example.likelihood) (Example.scale "x") true
  = Returns (true, MoreExamples.one_scale) /\
  (forall d, d ∈ LogPrior_descriptions (Example.scale "x") ->
             LogPosterior_nuisance MoreExamples.one_scale (parameter d) = Returns true) /\
  (forall name, name ∈ _parameter_names (LogPosterior_new Example.likelihood) ->
                LogPosterior_nuisance MoreExamples.one_scale name
                = LogPosterior_nuisance (LogPosterior_new Example.likelihood) name).
Proof.
  split; [apply reachable_new |]. split; [exact one_scale_added |].
  apply (nuisance_after_add (LogPosterior_new Example.likelihood) (Example.scale "x") true
           MoreExamples.one_scale); [apply reachable_new | exact one_scale_added].
Defined.

Lemma partly_registered_rejected :
  add MoreExamples.one_scale MoreExamples.gaussian_yx false
  = Returns (false, MoreExamples.partly_registered).
Proof. reflexivity. Qed.

Lemma partly_registered_reachable : reachable MoreExamples.partly_registered.
Proof.
  apply (reachable_add MoreExamples.one_scale MoreExamples.gaussian_yx false false).
  - exact one_scale_reachable.
  - exact partly_registered_rejected.
Qed.

(** C4: [clone ()] fails on a posterior built by adding priors.  On the
    posterior with the prior Scale ("x"), [add] of the MultivariateGaussian
    prior of ["y"] and ["x"] returns [false] at ["x"], after it has
    registered ["y"], and does not undo that.  The posterior then describes
    ["x"] and ["y"] and owns the prior of ["x"] only; its clone gets the one
    description of that prior, and the loop of [clone] that copies the
    ranges runs over the two descriptions of the original and leaves the
    clone's vector.  The behaviour is undefined, where a clone with the same
    descriptions is due. *)
Theorem clone_after_rejected_add :
  LogPrior_MultivariateGaussian ["y"; "x"] [0; 0] Example.identity_2
  = Returns MoreExamples.gaussian_yx /\
  add (LogPosterior_new Example.likelihood) (Example.scale "x") true
  = Returns (true, MoreExamples.one_scale) /\
  add MoreExamples.one_scale MoreExamples.gaussian_yx false
  = Returns (false, MoreExamples.partly_registered) /\
  reachable MoreExamples.partly_registered /\
  map (fun d => (parameter d, nuisance d))
      (parameter_descriptions MoreExamples.partly_registered)
  = [("x", true); ("y", false)] /\
  map names_of (_priors MoreExamples.partly_registered) = [["x"]] /\
  LogPosterior_clone MoreExamples.partly_registered = Undefined.
Proof.
  split; [reflexivity |]. split; [exact one_scale_added |].
  split; [exact partly_registered_rejected |].
  split; [exact partly_registered_reachable |].
  split; [reflexivity |]. split; reflexivity.
Qed.

(** C9: [proposal_covariance] fails on a posterior with two registered
    parameters.  On the posterior that the rejected [add] of C4 leaves,
    ["y"] is described but no owned prior describes it: [log_prior ("y")]
    returns the null pointer, and [proposal_covariance] calls [variance ()]
    through it.  The behaviour is undefined, where a matrix of 2 x 2 entries
    is due. *)
Theorem proposal_covariance_after_rejected_add :
  add MoreExamples.one_scale MoreExamples.gaussian_yx false
  = Returns (false, MoreExamples.partly_registered) /\
  reachable MoreExamples.partly_registered /\
  map parameter (parameter_descriptions MoreExamples.partly_registered) = ["x"; "y"] /\
  log_prior_named MoreExamples.partly_registered "x" = Some (Example.scale "x") /\
  log_prior_named MoreExamples.partly_registered "y" = None /\
  proposal_covariance MoreExamples.partly_registered 2 false = Undefined.
Proof.
  split; [exact partly_registered_rejected |].
  split; [exact partly_registered_reachable |].
  split; [reflexivity |]. split; [reflexivity |]. split; reflexivity.
Qed.

Lemma add_rejected_keeps_earlier_names_witness :
  exists k d,
    add MoreExamples.one_scale MoreExamples.gaussian_yx false
    = Returns (false, MoreExamples.partly_registered) /\
    k = 1%nat /\
    LogPrior_descriptions MoreExamples.gaussian_yx !! k = Some d /\
    parameter d ∈ _parameter_names MoreExamples.partly_registered /\
    _parameter_descriptions MoreExamples.partly_registered
    = _parameter_descriptions MoreExamples.one_scale
      ++ map (fun d => with_nuisance d false)
             (take k (LogPrior_descriptions MoreExamples.gaussian_yx)) /\
    _parameter_names MoreExamples.partly_registered
    = list_to_set (map parameter (take k (LogPrior_descriptions MoreExamples.gaussian_yx)))
      ∪ _parameter_names MoreExamples.one_scale /\
    _priors MoreExamples.partly_registered = _priors MoreExamples.one_scale.
Proof.
  destruct (add_rejected_keeps_earlier_names MoreExamples.one_scale MoreExamples.gaussian_yx
              false MoreExamples.partly_registered partly_registered_rejected)
    as (k & d & Hd & Hin & Hdescs & Hnames & Hpriors).
  exists k, d. split; [exact partly_registered_rejected |]. split.
  - assert (Hlength : length (_parameter_descriptions MoreExamples.partly_registered)
                      = 2%nat) by reflexivity.
    rewrite Hdescs, length_app, length_map, length_take in Hlength.
    assert (Hone : length (_parameter_descriptions MoreExamples.one_scale) = 1%nat)
      by reflexivity.
    assert (Htwo : length (LogPrior_descriptions MoreExamples.gaussian_yx) = 2%nat)
      by reflexivity.
    rewrite Hone, Htwo in Hlength. lia.
  - repeat split; assumption.
Defined.

Lemma log_prior_named_registered_witness :
  built MoreExamples.one_scale /\
  ("x" ∈ _parameter_names MoreExamples.one_scale ->
   exists prior, log_prior_named MoreExamples.one_scale "x" = Some prior /\
                 prior ∈ _priors MoreExamples.one_scale /\ "x" ∈ names_of prior) /\
  ("x" ∉ _parameter_names MoreExamples.one_scale ->
   log_prior_named MoreExamples.one_scale "x" = None).
Proof.
  split; [exact one_scale_built |].
  apply (log_prior_named_registered MoreExamples.one_scale "x" one_scale_built).
Defined.

Lemma clone_counts_owned_priors_witness :
  exists result,
    private_clone MoreExamples.scale_twice = Returns result /\
    informative_priors MoreExamples.scale_twice = 2%N /\
    informative_priors result = 1%N.
Proof.
  eexists. split; [reflexivity |]. split; [reflexivity |].
  rewrite (clone_counts_owned_priors MoreExamples.scale_twice _ eq_refl). reflexivity.
Defined.

Lemma clone_of_clone_witness :
  exists result,
    built MoreExamples.one_scale /\
    private_clone MoreExamples.one_scale = Returns result /\
    private_clone result = Returns result.
Proof.
  eexists. split; [exact one_scale_built |]. split; [reflexivity |].
  apply (clone_of_clone MoreExamples.one_scale _ one_scale_built). reflexivity.
Defined.

Lemma wrong_dimension_rejected_witness :
  length (_parameter_descriptions Example.two_parameters) <> length [1] /\
  (forall simulated_datasets output_file,
     exists message,
       goodness_of_fit Example.two_parameters [1] simulated_datasets output_file
         Example.world
       = (Throws (InternalError message), Example.world)) /\
  (forall options,
     exists message,
       optimize Example.two_parameters [1] options Example.world
       = (Throws (InternalError message), Example.world)).
Proof.
  assert (Hlength : length (_parameter_descriptions Example.two_parameters) <> length [1])
    by (simpl; lia).
  split; [exact Hlength |].
  apply (wrong_dimension_rejected Example.two_parameters [1] Example.world Hlength).
Defined.

Lemma goodness_of_fit_output_multivariate_witness :
  "fit.hdf5" <> "" /\
  Exists (fun d => exists p, log_prior_named MoreExamples.one_gaussian (parameter d)
                             = Some (IsMultivariateGaussian p))
         (_parameter_descriptions MoreExamples.one_gaussian) /\
  forall r w', goodness_of_fit MoreExamples.one_gaussian [0; 0] 0 "fit.hdf5" Example.world
               <> (Returns r, w').
Proof.
  assert (Hgaussian :
            Exists (fun d => exists p, log_prior_named MoreExamples.one_gaussian (parameter d)
                                       = Some (IsMultivariateGaussian p))
                   (_parameter_descriptions MoreExamples.one_gaussian)).
  { apply Exists_cons_hd. eexists. reflexivity. }
  split; [discriminate |]. split; [exact Hgaussian |].
  apply (goodness_of_fit_output_multivariate MoreExamples.one_gaussian [0; 0] 0 "fit.hdf5"
           Example.world); [discriminate | exact Hgaussian].
Defined.

Lemma no_priors_throws_witness :
  let self := LogPosterior_new Example.likelihood in
  let e := InternalError [Str "LogPosterior::log_prior(): prior is undefined"] in
  evaluate self Example.world = (Throws e, Example.world) /\
  optimize self [] OptimizationOptions_Defaults Example.world
  = (Throws e,
     with_parameters Example.world
       (set_all (imap (fun i d => (d, [] !!! i)) (_parameter_descriptions self))
                (parameters Example.world))).
Proof.
  apply (no_priors_throws (LogPosterior_new Example.likelihood) []
           OptimizationOptions_Defaults Example.world); reflexivity.
Defined.

End PosteriorExamples.

Section FormFactorExamples.
#[local] Existing Instance MoreExamples.process.
Local Open Scope R_scope.

Lemma calc_z_interval_witness :
  -1 < FvDV2018._calc_z 0 4 1 < 1 /\
  (FvDV2018._calc_z 0 4 1 = 0 <-> 0 = 1) /\
  (0 < FvDV2018._calc_z 0 4 1 <-> 0 < 1).
Proof. apply (calc_z_interval 0 4 1); lra. Defined.

Lemma blaschke_residue_witness :
  exists delta,
    0 < delta /\
    forall that,
      that <> power_of_2 mBst ->
      Rabs (that - power_of_2 mBst) < delta ->
      Rabs ((that - power_of_2 mBst) * FvDV2018._blaschke 0 (FvDV2018._zhat that)
            - FvDV2018._blaschke_res_qhat2 0) < 1.
Proof.
  apply (blaschke_residue 0); [unfold power_of_2; simpl; lra | lra].
Defined.

End FormFactorExamples.
